(** * KELAH Agrovet landing page: the interactive layer, verified

    A shallow embedding of [js/config.js] (the configuration [CONFIG] and
    the application controller [KelahApp]), of [js/utils.js] ([Utils]) and of
    the animation controllers ([Animations]).

    Modelling conventions.
    - Time is a natural number of milliseconds.
    - [setTimeout]/[clearTimeout] act on an explicit timer queue; a timer
      callback (a JS closure) is a constructor of a callback type that
      carries what the closure captured, and a [fire] function gives its
      body.  The event loop runs, before an event arriving at time [t],
      every timer due at or before [t], earliest first, ties in
      registration order.
    - A callee that is a parameter of the code ([func] of [debounce] and
      [throttle]) is a black box: each invocation is recorded, with the
      time and the arguments, in a trace.
    - A DOM reference that may be [null] is an [option]; dereferencing
      [null] throws a [TypeError].
    - [el.style] and the document are JS objects used as maps: [gmap]. *)

From Stdlib Require Import NArith.
From stdpp Require Import gmap strings list sorting.

Set Default Proof Using "Type".

(** ** Timers and the event loop *)

Module Timers.

Section Queue.
Context {C : Type}.

Record timer := Timer { tid : nat; due : nat; cb : C }.

(** [next_id] is the handle the next [setTimeout] returns; [pending]
    holds the live timers in registration order. *)
Record queue := Queue { next_id : nat; pending : list timer }.

Definition setTimeout (c : C) (delay now : nat) (q : queue) : nat * queue :=
  (next_id q,
   Queue (S (next_id q)) (pending q ++ [Timer (next_id q) (now + delay) c])).

(** [clearTimeout(undefined)] does nothing. *)
Definition clearTimeout (h : option nat) (q : queue) : queue :=
  match h with
  | None => q
  | Some i => Queue (next_id q) (filter (λ tm, tid tm ≠ i) (pending q))
  end.

(** The timer to run next, taken out of the list: least due time, the
    first registered among equals. *)
Fixpoint pop_earliest (l : list timer) : option (timer * list timer) :=
  match l with
  | [] => None
  | tm :: l' =>
      match pop_earliest l' with
      | Some (tm', r) =>
          if due tm' <? due tm then Some (tm', tm :: r) else Some (tm, l')
      | None => Some (tm, [])
      end
  end.

Definition pop_due (t : nat) (q : queue) : option (timer * queue) :=
  match pop_earliest (pending q) with
  | Some (tm, r) =>
      if due tm <=? t then Some (tm, Queue (next_id q) r) else None
  | None => None
  end.

(** What a queue holds, whatever the handles. *)
Definition schedule_of (q : queue) : list (nat * C) :=
  (λ tm, (due tm, cb tm)) <$> pending q.

Definition settled (t : nat) (q : queue) : Prop :=
  Forall (λ tm, t < due tm) (pending q).

(** The scheduled callbacks that concern element [n], when [key] gives
    the element a callback works on. *)
Definition concerning (key : C → nat) (n : nat) (q : queue) : list (nat * C) :=
  List.filter (λ p, key p.2 =? n) (schedule_of q).
End Queue.

Arguments timer : clear implicits.
Arguments queue : clear implicits.

Section Loop.
Context {C St : Type}.

Record world := World { now : nat; timers : queue C; st : St }.

(** The body of each callback. *)
Variable fire : C → world → world.

(** Run the timers due up to [t], then let the clock reach [t]. *)
Fixpoint run (fuel t : nat) (w : world) : world :=
  match fuel with
  | 0 => w
  | S fuel' =>
      match pop_due t (timers w) with
      | Some (tm, q') =>
          run fuel' t (fire (cb tm) (World (now w `max` due tm) q' (st w)))
      | None => World (now w `max` t) (timers w) (st w)
      end
  end.
End Loop.

Arguments world : clear implicits.

End Timers.

Import Timers.

(** ** The JavaScript values and built-ins the code relies on *)

Module JS.

(** A JS string is a sequence of UTF-16 code units. *)
Abbreviation jsstring := (list N).

Definition lit (s : string) : jsstring :=
  Ascii.N_of_ascii <$> String.list_ascii_of_string s.
Arguments lit : simpl never.

Inductive exn :=
  | TypeError (msg : string)
  | ReferenceError (name : string)
  | URIError
  | Error (msg : string).

Inductive result (A : Type) :=
  | Ok (a : A)
  | Throw (e : exn).
Arguments Ok {A} a.
Arguments Throw {A} e.

Definition between (lo hi u : N) : bool := ((lo <=? u) && (u <=? hi))%N.

(** [\d] and [\D] of a regular expression without the [u] flag. *)
Definition is_digit (u : N) : bool := between 48 57 u.

(** [s.slice(a, b)] for [0 <= a <= b], and [s.slice(a)]. *)
Definition slice {A} (a b : nat) (s : list A) : list A := take (b - a) (drop a s).
Definition slice_from {A} (a : nat) (s : list A) : list A := drop a s.

(** *** [encodeURIComponent] (ECMA-262, Encode with the unreserved set) *)

(** [A-Z a-z 0-9 - _ . ! ~ * ' ( )] *)
Definition uriUnescaped (u : N) : bool :=
  between 65 90 u || between 97 122 u || between 48 57 u
  || bool_decide (u ∈ [45; 95; 46; 33; 126; 42; 39; 40; 41]%N).

Definition is_lead_surrogate (u : N) : bool := between 0xD800 0xDBFF u.
Definition is_trail_surrogate (u : N) : bool := between 0xDC00 0xDFFF u.

Definition code_point (lead trail : N) : N :=
  ((lead - 0xD800) * 0x400 + (trail - 0xDC00) + 0x10000)%N.

Definition utf8 (cp : N) : list N :=
  if (cp <? 0x80)%N then [cp]
  else if (cp <? 0x800)%N then
    [N.lor 0xC0 (N.shiftr cp 6); N.lor 0x80 (N.land cp 0x3F)]
  else if (cp <? 0x10000)%N then
    [N.lor 0xE0 (N.shiftr cp 12);
     N.lor 0x80 (N.land (N.shiftr cp 6) 0x3F);
     N.lor 0x80 (N.land cp 0x3F)]
  else
    [N.lor 0xF0 (N.shiftr cp 18);
     N.lor 0x80 (N.land (N.shiftr cp 12) 0x3F);
     N.lor 0x80 (N.land (N.shiftr cp 6) 0x3F);
     N.lor 0x80 (N.land cp 0x3F)].

Definition hex_digit (d : N) : N := if (d <? 10)%N then (48 + d)%N else (55 + d)%N.

(** [%XX], upper-case hexadecimal. *)
Definition percent (octet : N) : jsstring :=
  [37%N; hex_digit (N.shiftr octet 4); hex_digit (N.land octet 0xF)].

Definition escape (cp : N) : jsstring := utf8 cp ≫= percent.

Fixpoint encodeURIComponent (s : jsstring) : result jsstring :=
  match s with
  | [] => Ok []
  | c :: s' =>
      if uriUnescaped c then
        match encodeURIComponent s' with
        | Ok r => Ok (c :: r)
        | Throw e => Throw e
        end
      else if is_lead_surrogate c then
        match s' with
        | d :: s'' =>
            if is_trail_surrogate d then
              match encodeURIComponent s'' with
              | Ok r => Ok (escape (code_point c d) ++ r)
              | Throw e => Throw e
              end
            else Throw URIError
        | [] => Throw URIError
        end
      else if is_trail_surrogate c then Throw URIError
      else
        match encodeURIComponent s' with
        | Ok r => Ok (escape c ++ r)
        | Throw e => Throw e
        end
  end.

(** No unpaired surrogate. *)
Fixpoint well_formed (s : jsstring) : bool :=
  match s with
  | [] => true
  | c :: s' =>
      if is_lead_surrogate c then
        match s' with
        | d :: s'' => is_trail_surrogate d && well_formed s''
        | [] => false
        end
      else negb (is_trail_surrogate c) && well_formed s'
  end.

(** [console.log] and [console.error] append to the console. *)
Inductive console_entry :=
  | ConsoleLog (msg : jsstring)
  | ConsoleError (msg : jsstring) (error : option exn).

(** *** Statements that update a state and may throw *)

Definition M (W A : Type) : Type := W → W * result A.

#[export] Instance M_ret {W} : MRet (M W) := λ A a w, (w, Ok a).
#[export] Instance M_bind {W} : MBind (M W) := λ A B f m w,
  match m w with
  | (w', Ok a) => f a w'
  | (w', Throw e) => (w', Throw e)
  end.

Definition throw {W A} (e : exn) : M W A := λ w, (w, Throw e).
Definition modify {W} (f : W → W) : M W () := λ w, (f w, Ok ()).
Definition gets {W A} (f : W → A) : M W A := λ w, (w, Ok (f w)).
Definition when {W} (b : bool) (m : M W ()) : M W () := if b then m else mret ().

(** [try { body } catch (error) { handler(error) }] *)
Definition try_catch {W A} (body : M W A) (handler : exn → M W A) : M W A := λ w,
  match body w with
  | (w', Ok a) => (w', Ok a)
  | (w', Throw e) => handler e w'
  end.

End JS.

Import JS.

(** ** js/utils.js *)

Module Utils.

(** *** [debounce(func, wait = 150)] *)

Section Debounce.
(** What a call passes on to [func]: [this] and [args]. *)
Context {A : Type}.

(** The closure variable [timeout], and the trace of [func]. *)
Record dstate := DState { timeout : option nat; dcalls : list (nat * A) }.

Definition dworld := world A dstate.

(** [wait = 150] when the argument is omitted. *)
Definition default_wait (wait : option nat) : nat := default 150 wait.

(** A fresh wrapper at time [t0]: [let timeout;]. *)
Definition debounce (t0 : nat) : dworld :=
  World t0 (Queue 1 []) (DState None []).

(** [() => { func.apply(this, args); }] *)
Definition dfire (args : A) (w : dworld) : dworld :=
  World (now w) (timers w)
        (DState (timeout (st w)) (dcalls (st w) ++ [(now w, args)])).

Definition executedFunction (wait : nat) (args : A) (w : dworld) : dworld :=
  let q := clearTimeout (timeout (st w)) (timers w) in
  let '(h, q') := setTimeout args wait (now w) q in
  World (now w) q' (DState (Some h) (dcalls (st w))).

(** The timer bodies of this module register no timer, so one round
    per pending timer and a last one to move the clock are enough. *)
Definition dadvance (t : nat) (w : dworld) : dworld :=
  run dfire (S (length (pending (timers w)))) t w.

(** A call of the wrapper at time [t].  The timers due at [t] run before
    the call; at the very instant a timer is due the host may order the
    two either way, and the properties of the wrapper are stated for
    calls that come at no such instant. *)
Definition dcall (wait : nat) (c : nat * A) (w : dworld) : dworld :=
  executedFunction wait c.2 (dadvance c.1 w).

Definition dplay (wait : nat) (cs : list (nat * A)) (w : dworld) : dworld :=
  foldl (λ w c, dcall wait c w) w cs.

(** Each call comes less than [wait] ms after the one before. *)
Fixpoint quiet_less (wait prev : nat) (cs : list (nat * A)) : Prop :=
  match cs with
  | [] => True
  | c :: cs' => prev ≤ c.1 ∧ c.1 < prev + wait ∧ quiet_less wait c.1 cs'
  end.

(** The state between a call [c] and the run of its timer: that timer
    is the only one pending and [func] has not run. *)
Definition armed (wait : nat) (c : nat * A) (w : dworld) : Prop :=
  now w = c.1 ∧ dcalls (st w) = []
  ∧ ∃ h, timeout (st w) = Some h
         ∧ pending (timers w) = [Timer h (c.1 + wait) c.2].

(** All calls lie less than [wait] ms from each other. *)
Definition all_within (wait : nat) (cs : list (nat * A)) : Prop :=
  ∀ c c', c ∈ cs → c' ∈ cs → c.1 < c'.1 + wait.
End Debounce.

Arguments dstate : clear implicits.
Arguments dworld : clear implicits.

(** *** [throttle(func, limit = 150)] *)

Section Throttle.
Context {A : Type}.

(** The closure variable [inThrottle] ([undefined] is falsy), and the
    trace of [func]. *)
Record tstate := TState { inThrottle : bool; tcalls : list (nat * A) }.

(** [() => inThrottle = false] captures nothing but the variable. *)
Inductive tcallback := ResetThrottle.

Definition tworld := world tcallback tstate.

(** [limit = 150] when the argument is omitted. *)
Definition default_limit (limit : option nat) : nat := default 150 limit.

(** A fresh wrapper at time [t0]: [let inThrottle;]. *)
Definition throttle (t0 : nat) : tworld :=
  World t0 (Queue 1 []) (TState false []).

Definition tfire (c : tcallback) (w : tworld) : tworld :=
  match c with
  | ResetThrottle =>
      World (now w) (timers w) (TState false (tcalls (st w)))
  end.

(** What a run of [func] does that the wrapper can see: it returns,
    it throws, or it calls the wrapper itself, with [args], and goes on
    as [rest]; [inner] is the run of [func] which that call starts, if
    it starts one.  When that call throws, [rest] is what [func] does
    with the exception. *)
Inductive behaviour :=
  | Returns
  | Throws (e : exn)
  | Reenters (args : A) (inner rest : behaviour).

(** The wrapper, with [body] for [func.apply(this, args)]: the flag is
    set and the timer registered once [func] has returned. *)
Definition wrapper (limit : nat) (args : A) (body : M tworld ()) : M tworld () := λ w,
  if inThrottle (st w) then (w, Ok ())
  else
    match body (World (now w) (timers w)
                  (TState (inThrottle (st w)) (tcalls (st w) ++ [(now w, args)]))) with
    | (w', Ok _) =>
        (World (now w') (setTimeout ResetThrottle limit (now w') (timers w')).2
           (TState true (tcalls (st w'))),
         Ok ())
    | (w', Throw e) => (w', Throw e)
    end.

Fixpoint func (limit : nat) (b : behaviour) (w : tworld) : tworld * result () :=
  match b with
  | Returns => (w, Ok ())
  | Throws e => (w, Throw e)
  | Reenters args inner rest =>
      func limit rest (wrapper limit args (func limit inner) w).1
  end.

Definition throttled (limit : nat) (args : A) (b : behaviour) : M tworld () :=
  wrapper limit args (func limit b).

Definition tadvance (t : nat) (w : tworld) : tworld :=
  run tfire (S (length (pending (timers w)))) t w.

(** A call of the wrapper at time [t], with what [func] does if it is
    run; what the call throws goes to its caller.  The timers due at [t]
    run before the call: where a call comes at the very instant a timer
    is due the host may order them either way, and a call made in the
    turn that registered the timer comes first, so the properties below
    are stated for calls that come at no such instant. *)
Definition tcall (limit : nat) (c : nat * (A * behaviour)) (w : tworld) : tworld :=
  (throttled limit c.2.1 c.2.2 (tadvance c.1 w)).1.

Definition tplay (limit : nat) (cs : list (nat * (A * behaviour))) (w : tworld) : tworld :=
  foldl (λ w c, tcall limit c w) w cs.

(** A call whose [func] returns and leaves the wrapper alone. *)
Definition plain (c : nat * A) : nat * (A * behaviour) := (c.1, (c.2, Returns)).

(** Inside the window opened by an invocation at [t1], with trace [tr]. *)
Definition throttling (limit t1 : nat) (tr : list (nat * A)) (w : tworld) : Prop :=
  now w ≤ t1 + limit ∧ inThrottle (st w) = true ∧ tcalls (st w) = tr
  ∧ ∃ h, pending (timers w) = [Timer h (t1 + limit) ResetThrottle].

(** No window open. *)
Definition idle (tr : list (nat * A)) (w : tworld) : Prop :=
  inThrottle (st w) = false ∧ tcalls (st w) = tr ∧ pending (timers w) = [].
End Throttle.

Arguments tstate : clear implicits.
Arguments tworld : clear implicits.
Arguments behaviour : clear implicits.

(** *** [formatPhone(phone)] *)

Definition formatPhone (phone : jsstring) : jsstring :=
  let digits := List.filter is_digit phone in
  if length digits =? 12 then
    lit "+" ++ slice 0 3 digits ++ lit " " ++ slice 3 6 digits ++ lit " "
      ++ slice 6 9 digits ++ lit " " ++ slice_from 9 digits
  else phone.

(** The grouping on its own. *)
Definition grouped (digits : jsstring) : jsstring :=
  lit "+" ++ take 3 digits ++ lit " " ++ take 3 (drop 3 digits) ++ lit " "
    ++ take 3 (drop 6 digits) ++ lit " " ++ drop 9 digits.

(** *** [logError(message, error = null)] *)

Definition logError (message : jsstring) (error : option exn)
    (console : list console_entry) : list console_entry :=
  console ++ [ConsoleError (lit "[KELAH Error] " ++ message) error].

End Utils.

(** ** js/config.js *)

Module CONFIG.

Record business_info := Business {
  name : jsstring;
  tagline : jsstring;
  phone : jsstring;
  whatsapp : jsstring;
  email : jsstring;
  address : jsstring
}.

Record breakpoint_info := Breakpoints { mobile : nat; tablet : nat; desktop : nat }.

Record config := Config {
  business : business_info;
  scrollReveal_enabled : bool;
  scrollOffset : nat;
  breakpoints : breakpoint_info;
  lazyLoadImages : bool;
  debounceDelay : nat
}.

Definition CONFIG : config := {|
  business := {|
    name := lit "KELAH Agrovet";
    tagline := lit "Your Trusted Partner in Animal Health & Farm Success";
    phone := lit "+254722784947";
    whatsapp := lit "254722784947";
    email := lit "info@kelah-agrovet.co.ke";
    address := lit "Main Street, Your Town, Kenya"
  |};
  scrollReveal_enabled := true;
  scrollOffset := 100;
  breakpoints := {| mobile := 768; tablet := 1024; desktop := 1440 |};
  lazyLoadImages := true;
  debounceDelay := 150
|}.

Definition defaultMessage : jsstring :=
  lit "Hello KELAH Agrovet, I'd like to inquire about your services.".

(** [message = ''] when the argument is omitted; [message || defaultMessage]
    takes the default for the empty string, the only falsy string. *)
Definition getWhatsAppLink (this : config) (message : option jsstring)
    : result jsstring :=
  let message := default [] message in
  match encodeURIComponent (if bool_decide (message = []) then defaultMessage else message) with
  | Ok text => Ok (lit "https://wa.me/" ++ whatsapp (business this) ++ lit "?text=" ++ text)
  | Throw e => Throw e
  end.

Definition getPhoneLink (this : config) : jsstring :=
  lit "tel:" ++ phone (business this).

Definition isMobile (this : config) (innerWidth : nat) : bool :=
  innerWidth <? mobile (breakpoints this).

End CONFIG.

(** ** The document *)

Module Dom.

Record node := Node {
  tag : jsstring;
  elem_id : jsstring;
  classList : list jsstring;
  parent : option nat;
  style : gmap jsstring jsstring;
  textContent : jsstring;
  href : jsstring
}.

(** [heap] holds the element objects by identity; [tree] lists the
    elements attached below [body], in document order. *)
Record document := Document {
  heap : gmap nat node;
  tree : list nat;
  body_classList : list jsstring;
  body_style : gmap jsstring jsstring
}.

Definition set_heap (f : gmap nat node → gmap nat node) (d : document) : document :=
  Document (f (heap d)) (tree d) (body_classList d) (body_style d).

Definition set_tree (f : list nat → list nat) (d : document) : document :=
  Document (heap d) (f (tree d)) (body_classList d) (body_style d).

Definition with_style (f : gmap jsstring jsstring → gmap jsstring jsstring) (nd : node) : node :=
  Node (tag nd) (elem_id nd) (classList nd) (parent nd) (f (style nd)) (textContent nd) (href nd).

Definition with_classList (f : list jsstring → list jsstring) (nd : node) : node :=
  Node (tag nd) (elem_id nd) (f (classList nd)) (parent nd) (style nd) (textContent nd) (href nd).

Definition with_href (h : jsstring) (nd : node) : node :=
  Node (tag nd) (elem_id nd) (classList nd) (parent nd) (style nd) (textContent nd) h.

(** [el.style[prop] = value] *)
Definition set_style (el : nat) (prop value : jsstring) : document → document :=
  set_heap (alter (with_style <[prop := value]>) el).

Definition get_style (d : document) (el : nat) (prop : jsstring) : option jsstring :=
  heap d !! el ≫= λ nd, style nd !! prop.

(** [classList.toggle], [classList.remove] *)
Definition toggle_token (c : jsstring) (l : list jsstring) : list jsstring :=
  if bool_decide (c ∈ l) then List.filter (λ c', negb (bool_decide (c' = c))) l
  else l ++ [c].

Definition remove_token (c : jsstring) (l : list jsstring) : list jsstring :=
  List.filter (λ c', negb (bool_decide (c' = c))) l.

Definition classList_toggle (el : nat) (c : jsstring) : document → document :=
  set_heap (alter (with_classList (toggle_token c)) el).

(** [document.body.appendChild(el)] puts [el] last in document order;
    [el.remove()] detaches it. *)
Definition appendChild (el : nat) : document → document :=
  set_tree (λ t, List.filter (λ n, negb (n =? el)) t ++ [el]).

Definition remove (el : nat) : document → document :=
  set_tree (List.filter (λ n, negb (n =? el))).

(** The selectors the code uses: [#id], [.class], [tag], [a d]
    (descendant) and [s1, s2]. *)
Inductive selector :=
  | SelId (i : jsstring)
  | SelClass (c : jsstring)
  | SelTag (t : jsstring)
  | SelDescendant (a d : selector)
  | SelOr (s1 s2 : selector).

Fixpoint ancestors (fuel : nat) (h : gmap nat node) (el : nat) : list nat :=
  match fuel with
  | 0 => []
  | S fuel' =>
      match h !! el ≫= parent with
      | Some p => p :: ancestors fuel' h p
      | None => []
      end
  end.

Fixpoint matches (d : document) (s : selector) (el : nat) : bool :=
  match s with
  | SelId i => from_option (λ nd, bool_decide (elem_id nd = i)) false (heap d !! el)
  | SelClass c => from_option (λ nd, bool_decide (c ∈ classList nd)) false (heap d !! el)
  | SelTag t => from_option (λ nd, bool_decide (tag nd = t)) false (heap d !! el)
  | SelDescendant a s' =>
      matches d s' el
      && existsb (matches d a) (ancestors (size (heap d)) (heap d) el)
  | SelOr s1 s2 => matches d s1 el || matches d s2 el
  end.

Definition querySelectorAll (d : document) (s : selector) : list nat :=
  List.filter (matches d s) (tree d).

Definition querySelector (d : document) (s : selector) : option nat :=
  head (querySelectorAll d s).

(** [document.createElement(tag)]: a new, detached element. *)
Definition createElement (t : jsstring) (d : document) : nat * document :=
  let el := fresh (dom (heap d)) in
  (el, set_heap <[el := Node t [] [] None ∅ [] []]> d).

(** [el.closest(s)]: the element itself or its nearest ancestor that matches. *)
Definition closest (d : document) (s : selector) (el : nat) : option nat :=
  head (List.filter (matches d s) (el :: ancestors (size (heap d)) (heap d) el)).

(** [el.querySelector(s)]: the first descendant of [el] that matches. *)
Definition querySelectorIn (d : document) (el : nat) (s : selector) : option nat :=
  head (List.filter
          (λ n, matches d s n
                && bool_decide (el ∈ ancestors (size (heap d)) (heap d) n))
          (tree d)).

(** The tokens of a class attribute: split at ASCII white space. *)
Definition is_space (u : N) : bool := bool_decide (u ∈ [32; 9; 10; 12; 13]%N).

Fixpoint tokens_from (cur s : jsstring) : list jsstring :=
  match s with
  | [] => match cur with [] => [] | _ => [cur] end
  | c :: s' =>
      if is_space c then
        match cur with
        | [] => tokens_from [] s'
        | _ => cur :: tokens_from [] s'
        end
      else tokens_from (cur ++ [c]) s'
  end.

Definition tokens (s : jsstring) : list jsstring := remove_dups (tokens_from [] s).

End Dom.

Import Dom.

(** ** js/animations.js *)

Module Animations.

(** The [setTimeout] closures: the reveal of [entry.target] in
    [initScrollReveal] and the reveal of [card] in [initProductStagger]. *)
Inductive callback :=
  | Reveal (target : nat)
  | Stagger (card : nat).

(** An [IntersectionObserverEntry]. *)
Record entry := Entry { target : nat; isIntersecting : bool }.

#[export] Instance entry_eq_dec : EqDecision entry.
Proof. solve_decision. Defined.

(** The targets of the two observers, and the header whose shadow the
    scroll listener of [initHeaderScroll] updates ([None]: no listener). *)
Record state := State {
  doc : document;
  revealObserver : list nat;
  productObserver : list nat;
  headerScroll : option nat
}.

Definition aworld := world callback state.

Definition set_doc (f : document → document) (w : aworld) : aworld :=
  World (now w) (timers w)
    (State (f (doc (st w))) (revealObserver (st w)) (productObserver (st w))
       (headerScroll (st w))).

Definition set_revealObserver (f : list nat → list nat) (w : aworld) : aworld :=
  World (now w) (timers w)
    (State (doc (st w)) (f (revealObserver (st w))) (productObserver (st w))
       (headerScroll (st w))).

Definition set_productObserver (f : list nat → list nat) (w : aworld) : aworld :=
  World (now w) (timers w)
    (State (doc (st w)) (revealObserver (st w)) (f (productObserver (st w)))
       (headerScroll (st w))).

Definition set_headerScroll (h : option nat) (w : aworld) : aworld :=
  World (now w) (timers w)
    (State (doc (st w)) (revealObserver (st w)) (productObserver (st w)) h).

Definition schedule (c : callback) (delay : nat) (w : aworld) : aworld :=
  World (now w) (setTimeout c delay (now w) (timers w)).2 (st w).

(** [observer.observe(el)], [observer.unobserve(el)] *)
Definition observe (el : nat) (targets : list nat) : list nat :=
  if bool_decide (el ∈ targets) then targets else targets ++ [el].

Definition unobserve (el : nat) (targets : list nat) : list nat :=
  List.filter (λ n, negb (n =? el)) targets.

Definition revealSelector : selector :=
  SelOr (SelClass (lit "service-card"))
    (SelOr (SelClass (lit "product-category"))
       (SelOr (SelClass (lit "testimonial")) (SelClass (lit "contact__card")))).

(** The timer bodies. *)
Definition fire (c : callback) (w : aworld) : aworld :=
  match c with
  | Reveal el =>
      set_doc (λ d, set_style el (lit "transform") (lit "translateY(0)")
                      (set_style el (lit "opacity") (lit "1") d)) w
  | Stagger card =>
      set_doc (λ d, set_style card (lit "transform") (lit "translateY(0) scale(1)")
                      (set_style card (lit "opacity") (lit "1") d)) w
  end.

(** *** [initScrollReveal] *)

Definition hide (el : nat) (d : document) : document :=
  set_style el (lit "transition") (lit "opacity 0.6s ease-out, transform 0.6s ease-out")
    (set_style el (lit "transform") (lit "translateY(30px)")
       (set_style el (lit "opacity") (lit "0") d)).

(** The callback of [revealObserver]: [entries.forEach((entry, index) => ...)]. *)
Fixpoint revealCallback (index : nat) (entries : list entry) (w : aworld) : aworld :=
  match entries with
  | [] => w
  | entry :: entries' =>
      revealCallback (S index) entries'
        (if isIntersecting entry then
           set_revealObserver (unobserve (target entry))
             (schedule (Reveal (target entry)) (index * 100) w)
         else w)
  end.

Definition initScrollReveal (w : aworld) : aworld :=
  let revealElements := querySelectorAll (doc (st w)) revealSelector in
  let w := set_doc (λ d, foldl (λ d el, hide el d) d revealElements) w in
  set_revealObserver (λ _, foldl (λ ts el, observe el ts) [] revealElements) w.

(** *** [initProductStagger] *)

Definition hideCard (card : nat) (d : document) : document :=
  set_style card (lit "transition") (lit "all 0.6s cubic-bezier(0.4, 0, 0.2, 1)")
    (set_style card (lit "transform") (lit "translateY(40px) scale(0.95)")
       (set_style card (lit "opacity") (lit "0") d)).

(** [cards.forEach((card, index) => setTimeout(..., index * 150))] *)
Fixpoint staggerCards (index : nat) (cards : list nat) (w : aworld) : aworld :=
  match cards with
  | [] => w
  | card :: cards' =>
      staggerCards (S index) cards' (schedule (Stagger card) (index * 150) w)
  end.

(** The callback of [productObserver]. *)
Fixpoint productCallback (entries : list entry) (w : aworld) : aworld :=
  match entries with
  | [] => w
  | entry :: entries' =>
      productCallback entries'
        (if isIntersecting entry then
           let cards := querySelectorAll (doc (st w)) (SelClass (lit "product-category")) in
           set_productObserver (λ _, []) (staggerCards 0 cards w)
         else w)
  end.

Definition initProductStagger (w : aworld) : aworld :=
  let productCards := querySelectorAll (doc (st w)) (SelClass (lit "product-category")) in
  let w := set_doc (λ d, foldl (λ d card, hideCard card d) d productCards) w in
  let w := set_productObserver (λ _, []) w in
  match querySelector (doc (st w)) (SelId (lit "products")) with
  | Some productsSection => set_productObserver (observe productsSection) w
  | None => w
  end.

(** *** [initHeaderScroll] *)

Definition initHeaderScroll (w : aworld) : aworld :=
  match querySelector (doc (st w)) (SelId (lit "header")) with
  | None => w
  | Some header => set_headerScroll (Some header) w
  end.

(** The scroll listener (run through [Utils.throttle(..., 100)]). *)
Definition handleScroll (header : nat) (pageYOffset : nat) (w : aworld) : aworld :=
  if 50 <? pageYOffset then
    set_doc (set_style header (lit "boxShadow") (lit "0 2px 10px rgba(0, 0, 0, 0.1)")) w
  else
    set_doc (set_style header (lit "boxShadow") (lit "0 1px 2px rgba(0, 0, 0, 0.05)")) w.

(** *** [init]

    [initSmoothScroll] only registers click listeners on anchor links,
    which touch neither the styles nor the observers; it has no part in
    this state. *)
Definition init (enabled : bool) (w : aworld) : aworld :=
  if negb enabled then w
  else initProductStagger (initHeaderScroll (initScrollReveal w)).

(** The page at load time. *)
Definition load (d : document) (t0 : nat) : aworld :=
  World t0 (Queue 1 []) (State d [] [] None).

(** *** The environment

    The browser hands an observer the entries of those elements, among
    the ones whose intersection changed, that the observer has as
    targets.  [Scroll y] is a run of the scroll listener at position
    [y], if the listener was registered: the wrapper of
    [Utils.throttle(..., 100)] starts one for each scroll event it lets
    through. *)
Inductive event :=
  | RevealChanges (changes : list entry)
  | ProductChanges (changes : list entry)
  | Scroll (pageYOffset : nat)
  | Idle.

Definition delivered (targets : list nat) (changes : list entry) : list entry :=
  List.filter (λ e, bool_decide (target e ∈ targets)) changes.

Definition handle (e : event) (w : aworld) : aworld :=
  match e with
  | RevealChanges changes =>
      revealCallback 0 (delivered (revealObserver (st w)) changes) w
  | ProductChanges changes =>
      productCallback (delivered (productObserver (st w)) changes) w
  | Scroll y =>
      match headerScroll (st w) with
      | Some header => handleScroll header y w
      | None => w
      end
  | Idle => w
  end.

(** No timer body registers a timer. *)
Definition advance (t : nat) (w : aworld) : aworld :=
  run fire (S (length (pending (timers w)))) t w.

Definition step (w : aworld) (te : nat * event) : aworld :=
  handle te.2 (advance te.1 w).

Definition play (evs : list (nat * event)) (w : aworld) : aworld :=
  foldl step w evs.



(** [el] is reported as intersecting by some entry of the batch. *)
Definition reports (el : nat) (changes : list entry) : Prop :=
  Entry el true ∈ changes.



(** What [revealCallback], started at [index], registers. *)
Fixpoint reveal_schedule (now index : nat) (entries : list entry)
    : list (nat * callback) :=
  match entries with
  | [] => []
  | e :: entries' =>
      (if isIntersecting e then [(now + index * 100, Reveal (target e))] else [])
        ++ reveal_schedule now (S index) entries'
  end.

(** What [staggerCards], started at [index], registers. *)
Fixpoint stagger_schedule (now index : nat) (cards : list nat)
    : list (nat * callback) :=
  match cards with
  | [] => []
  | card :: cards' =>
      (now + index * 150, Stagger card) :: stagger_schedule now (S index) cards'
  end.

Definition target_of (c : callback) : nat :=
  match c with
  | Reveal el | Stagger el => el
  end.

(** The timers that concern element [el]. *)
Abbreviation about := (concerning target_of).
Abbreviation only el := (List.filter (λ p : nat * callback, target_of p.2 =? el)).

(** Closed facts about concrete pages are decided by computation. *)
Ltac by_decision :=
  unfold reports; apply (bool_decide_unpack _); vm_compute; exact I.

(** The product cards of the page. *)
Definition cards (d : document) : list nat :=
  querySelectorAll d (SelClass (lit "product-category")).



(** One document is the other with some inline styles changed. *)
Definition restyled (d d' : document) : Prop :=
  tree d' = tree d
  ∧ ∀ n, classList <$> heap d' !! n = classList <$> heap d !! n.

End Animations.

(** ** js/app.js *)

Module KelahApp.

Import CONFIG.

(** [state] *)
Record app_state := AppState {
  mobileMenuOpen : bool;
  currentSection : jsstring
}.

(** [DOM], the cached element references; a reference is [null] when
    the selector matched nothing. *)
Record dom_cache := DomCache {
  header : option nat;
  menuToggle : option nat;
  headerActions : option nat;
  phoneBtns : list nat;
  whatsappBtns : list nat;
  hero : option nat;
  services : option nat;
  products : option nat;
  contact : option nat
}.

(** The functions registered as listeners. *)
Inductive handler :=
  | ToggleMobileMenu
  | HandlePhoneClick
  | HandleWhatsAppClick
  | HeaderLinkClick
  | HandleResize
  | HandleScroll
  | HandleProductClick.

#[export] Instance handler_eq_dec : EqDecision handler.
Proof. solve_decision. Defined.

Inductive event_type := click | resize | scroll.

#[export] Instance event_type_eq_dec : EqDecision event_type.
Proof. solve_decision. Defined.

(** [on = None] is [window]. *)
Record listener := Listener {
  on : option nat;
  type : event_type;
  listener_handler : handler
}.

(** What the handlers read from [window] and from the layout. *)
Record window := Window {
  innerWidth : nat;
  scrollY : nat;
  offsetTop : nat → nat;
  offsetHeight : nat → nat
}.

(** The [setTimeout] closures of [showNotification]. *)
Inductive callback :=
  | NotificationExit (notification : nat)
  | NotificationRemove (notification : nat).

Record app := App {
  doc : document;
  DOM : dom_cache;
  state : app_state;
  console : list console_entry;
  listeners : list listener;
  (** requests made through [window.scrollTo] *)
  scrollTo : list nat;
  (** errors no handler caught, as the browser reports them *)
  uncaught : list exn
}.

Definition kworld := world callback app.

Definition set_app (f : app → app) (w : kworld) : kworld :=
  World (now w) (timers w) (f (st w)).

Definition set_doc (f : document → document) : kworld → kworld :=
  set_app (λ a, App (f (doc a)) (DOM a) (state a) (console a) (listeners a)
                  (scrollTo a) (uncaught a)).

Definition set_DOM (c : dom_cache) : kworld → kworld :=
  set_app (λ a, App (doc a) c (state a) (console a) (listeners a)
                  (scrollTo a) (uncaught a)).

Definition set_state (f : app_state → app_state) : kworld → kworld :=
  set_app (λ a, App (doc a) (DOM a) (f (state a)) (console a) (listeners a)
                  (scrollTo a) (uncaught a)).

Definition set_console (f : list console_entry → list console_entry) : kworld → kworld :=
  set_app (λ a, App (doc a) (DOM a) (state a) (f (console a)) (listeners a)
                  (scrollTo a) (uncaught a)).

Definition addEventListener (l : listener) : kworld → kworld :=
  set_app (λ a, App (doc a) (DOM a) (state a) (console a) (listeners a ++ [l])
                  (scrollTo a) (uncaught a)).

Definition window_scrollTo (top : nat) : kworld → kworld :=
  set_app (λ a, App (doc a) (DOM a) (state a) (console a) (listeners a)
                  (scrollTo a ++ [top]) (uncaught a)).

Definition report (e : exn) : kworld → kworld :=
  set_app (λ a, App (doc a) (DOM a) (state a) (console a) (listeners a)
                  (scrollTo a) (uncaught a ++ [e])).

Definition console_log (msg : jsstring) : kworld → kworld :=
  set_console (λ c, c ++ [ConsoleLog msg]).

(** [let DOM = {}] and the initial [state], at load time. *)
Definition load (d : document) (t0 : nat) : kworld :=
  World t0 (Queue 1 [])
    (App d (DomCache None None None [] [] None None None None)
       (AppState false (lit "hero")) [] [] [] []).

Definition is_open (w : kworld) : bool := mobileMenuOpen (state (st w)).

(** *** [cacheDOMElements] *)

Definition cacheDOMElements : M kworld () := λ w,
  let d := doc (st w) in
  (set_DOM {|
     header := querySelector d (SelId (lit "header"));
     menuToggle := querySelector d (SelId (lit "menuToggle"));
     headerActions := querySelector d (SelId (lit "headerActions"));
     phoneBtns := querySelectorAll d (SelClass (lit "btn--phone"));
     whatsappBtns := querySelectorAll d (SelClass (lit "btn--whatsapp"));
     hero := querySelector d (SelId (lit "hero"));
     services := querySelector d (SelId (lit "services"));
     products := querySelector d (SelId (lit "products"));
     contact := querySelector d (SelId (lit "contact"))
   |} w, Ok ()).

(** *** [initEventListeners] *)

Definition listen_each (els : list nat) (h : handler) (w : kworld) : kworld :=
  foldl (λ w el, addEventListener (Listener (Some el) click h) w) w els.

Definition initEventListeners : M kworld () := λ w,
  let w :=
    match menuToggle (DOM (st w)) with
    | Some el => addEventListener (Listener (Some el) click ToggleMobileMenu) w
    | None => w
    end in
  let w := listen_each (phoneBtns (DOM (st w))) HandlePhoneClick w in
  let w := listen_each (whatsappBtns (DOM (st w))) HandleWhatsAppClick w in
  let headerLinks :=
    querySelectorAll (doc (st w))
      (SelDescendant (SelClass (lit "header__actions")) (SelTag (lit "a"))) in
  let w := listen_each headerLinks HeaderLinkClick w in
  let w := addEventListener (Listener None resize HandleResize) w in
  let w := addEventListener (Listener None scroll HandleScroll) w in
  let productCategories :=
    querySelectorAll (doc (st w)) (SelClass (lit "product-category")) in
  (listen_each productCategories HandleProductClick w, Ok ()).

(** *** [toggleMobileMenu] *)

(** [ref.classList.toggle(c)], where [ref] may be [null]. *)
Definition toggle_class (ref : option nat) (c : jsstring) : M kworld () :=
  match ref with
  | Some el => modify (set_doc (classList_toggle el c))
  | None => throw (TypeError "Cannot read properties of null (reading 'classList')")
  end.

Definition set_overflow (v : jsstring) (d : document) : document :=
  Document (heap d) (tree d) (body_classList d) (<[lit "overflow" := v]> (body_style d)).

Definition toggleMobileMenu : M kworld () :=
  modify (set_state (λ s, AppState (negb (mobileMenuOpen s)) (currentSection s))) ;;
  ha ← gets (λ w, headerActions (DOM (st w))) ;
  toggle_class ha (lit "active") ;;
  mt ← gets (λ w, menuToggle (DOM (st w))) ;
  toggle_class mt (lit "active") ;;
  o ← gets is_open ;
  modify (set_doc (set_overflow (if o : bool then lit "hidden" else lit "auto"))).

(** *** The other handlers *)

Definition handlePhoneClick : M kworld () :=
  modify (console_log ([0xD83D; 0xDCDE]%N ++ lit " Phone call initiated")).

Definition section_of (d : document) (target : nat) : jsstring :=
  match closest d (SelTag (lit "section")) target ≫= λ s, heap d !! s with
  | Some nd => match elem_id nd with [] => lit "unknown" | i => i end
  | None => lit "unknown"
  end.

Definition handleWhatsAppClick (cfg : config) (target : nat) : M kworld () :=
  modify (console_log ([0xD83D; 0xDCAC]%N ++ lit " WhatsApp initiated")) ;;
  section ← gets (λ w, section_of (doc (st w)) target) ;
  let message :=
    lit "Hello KELAH Agrovet, I'm interested in your services. I was viewing: "
      ++ section in
  match getWhatsAppLink cfg (Some message) with
  | Ok link => modify (set_doc (set_heap (alter (with_href link) target)))
  | Throw e => throw e
  end.

(** The listener of each link in the header actions. *)
Definition headerLinkClick : M kworld () :=
  o ← gets is_open ;
  when o toggleMobileMenu.

Definition handleResize (cfg : config) (win : window) : M kworld () :=
  o ← gets is_open ;
  when ((mobile (breakpoints cfg) <=? innerWidth win) && o) toggleMobileMenu.

Definition visit_section (win : window) (section : option nat) (w : kworld) : kworld :=
  match section with
  | None => w
  | Some s =>
      let scrollPosition := scrollY win + 200 in
      if (offsetTop win s <=? scrollPosition)
         && (scrollPosition <? offsetTop win s + offsetHeight win s)
      then set_state (λ st', AppState (mobileMenuOpen st')
                               (from_option elem_id [] (heap (doc (st w)) !! s))) w
      else w
  end.

Definition handleScroll (win : window) : M kworld () := λ w,
  let c := DOM (st w) in
  (foldl (λ w s, visit_section win s w) w [hero c; services c; products c; contact c],
   Ok ()).

(** [Utils.smoothScrollTo(selector, offset)] *)
Definition smoothScrollTo (s : selector) (offset : nat) (win : window) (w : kworld) : kworld :=
  match querySelector (doc (st w)) s with
  | None => w
  | Some element => window_scrollTo (offsetTop win element - offset) w
  end.

Definition handleProductClick (cfg : config) (win : window) (currentTarget : nat)
    : M kworld () := λ w,
  let d := doc (st w) in
  let categoryName :=
    match querySelectorIn d currentTarget (SelClass (lit "product-category__title"))
            ≫= λ t, heap d !! t with
    | Some nd => textContent nd
    | None => lit "undefined"
    end in
  let w := console_log ([0xD83D; 0xDED2]%N ++ lit " Product category clicked: "
                          ++ categoryName) w in
  (smoothScrollTo (SelId (lit "contact")) (scrollOffset cfg) win w, Ok ()).

Definition run_handler (cfg : config) (win : window) (target currentTarget : nat)
    (h : handler) : M kworld () :=
  match h with
  | ToggleMobileMenu => toggleMobileMenu
  | HandlePhoneClick => handlePhoneClick
  | HandleWhatsAppClick => handleWhatsAppClick cfg target
  | HeaderLinkClick => headerLinkClick
  | HandleResize => handleResize cfg win
  | HandleScroll => handleScroll win
  | HandleProductClick => handleProductClick cfg win currentTarget
  end.

(** *** Dispatch

    A click bubbles from its target to the root; the listeners of each
    element on the way run in registration order.  What a listener
    throws is reported and the next listener still runs.  The [resize]
    listener is [Utils.debounce(handleResize, 250)] and the [scroll]
    listener [Utils.throttle(handleScroll, 100)]: the events below stand
    for the runs of [handleResize] and [handleScroll] those wrappers
    start.  The click listeners that [Animations.initSmoothScroll]
    registers on anchor links during the same [init] are not among the
    listeners here: they ask the window to scroll and touch neither the
    menu nor the elements. *)
Definition invoke (cfg : config) (win : window) (target : nat)
    (w : kworld) (l : listener) : kworld :=
  match run_handler cfg win target (default target (on l)) (listener_handler l) w with
  | (w', Ok _) => w'
  | (w', Throw e) => report e w'
  end.

Definition listeners_for (o : option nat) (ty : event_type) (w : kworld) : list listener :=
  List.filter (λ l, bool_decide (on l = o) && bool_decide (type l = ty))
    (listeners (st w)).

Definition dispatch_click (cfg : config) (win : window) (target : nat)
    (w : kworld) : kworld :=
  let d := doc (st w) in
  let path := target :: ancestors (size (heap d)) (heap d) target in
  foldl (invoke cfg win target) w (path ≫= λ el, listeners_for (Some el) click w).

Definition dispatch_window (cfg : config) (win : window) (ty : event_type)
    (w : kworld) : kworld :=
  foldl (invoke cfg win 0) w (listeners_for None ty w).

(** *** [showNotification(message, type = 'info')] *)

Definition background (type : jsstring) : jsstring :=
  if bool_decide (type = lit "success") then lit "#27AE60" else lit "#E74C3C".

(** The declarations of the [cssText] template. *)
Definition cssText (type : jsstring) : list (jsstring * jsstring) :=
  [ (lit "position", lit "fixed");
    (lit "top", lit "20px");
    (lit "right", lit "20px");
    (lit "padding", lit "16px 24px");
    (lit "background", background type);
    (lit "color", lit "white");
    (lit "border-radius", lit "8px");
    (lit "box-shadow", lit "0 4px 12px rgba(0,0,0,0.15)");
    (lit "z-index", lit "1000");
    (lit "animation", lit "slideIn 0.3s ease-out") ].

Definition schedule (c : callback) (delay : nat) (w : kworld) : kworld :=
  World (now w) (setTimeout c delay (now w) (timers w)).2 (st w).

Definition showNotification (message : jsstring) (type : option jsstring)
    (w : kworld) : kworld :=
  let type := default (lit "info") type in
  let '(notification, d) := createElement (lit "div") (doc (st w)) in
  let d :=
    set_heap (alter (λ nd,
      Node (tag nd) (elem_id nd)
        (tokens (lit "notification notification--" ++ type))
        (parent nd) (list_to_map (cssText type)) message (href nd))
      notification) d in
  let w := set_doc (λ _, appendChild notification d) w in
  schedule (NotificationExit notification) 3000 w.

Definition fire (c : callback) (w : kworld) : kworld :=
  match c with
  | NotificationExit notification =>
      schedule (NotificationRemove notification) 300
        (set_doc (set_style notification (lit "animation") (lit "slideOut 0.3s ease-out")) w)
  | NotificationRemove notification =>
      set_doc (remove notification) w
  end.

(** A pending exit registers one more timer, a pending removal none. *)
Definition advance (t : nat) (w : kworld) : kworld :=
  run fire (S (2 * length (pending (timers w)))) t w.

(** *** The environment of the application

    Clicks, the runs of the resize and scroll listeners, and calls of the
    public [showNotification]; each comes with the [window] and layout
    values the handlers read. *)
Inductive event :=
  | ClickOn (target : nat)
  | Resized
  | Scrolled
  | Notify (message : jsstring) (type : option jsstring).

Definition handle (cfg : config) (win : window) (e : event) (w : kworld) : kworld :=
  match e with
  | ClickOn target => dispatch_click cfg win target w
  | Resized => dispatch_window cfg win resize w
  | Scrolled => dispatch_window cfg win scroll w
  | Notify message type => showNotification message type w
  end.

Definition step (cfg : config) (w : kworld) (x : nat * window * event) : kworld :=
  handle cfg (x.1.2) (x.2) (advance (x.1.1) w).

Definition play (cfg : config) (evs : list (nat * window * event)) (w : kworld) : kworld :=
  foldl (step cfg) w evs.

(** *** The life of a notification *)

Definition notification_of (c : callback) : nat :=
  match c with
  | NotificationExit n | NotificationRemove n => n
  end.

(** The timers that concern notification [n]. *)
Abbreviation about := (concerning notification_of).

(** Attached elements and the notifications of pending timers are
    element objects of the document. *)
Definition well_formed_world (w : kworld) : Prop :=
  (∀ n, n ∈ tree (doc (st w)) → n ∈ dom (heap (doc (st w))))
  ∧ (∀ tm, tm ∈ pending (timers w) →
       notification_of (cb tm) ∈ dom (heap (doc (st w)))).

(** The three phases of notification [n], shown at time [E - 3000]:
    displayed, leaving, gone; [attached] says whether it is in the
    document and [ab] lists the timers about it. *)
Definition phase (n E now : nat) (attached : Prop) (ab : list (nat * callback)) : Prop :=
  (now ≤ E ∧ attached ∧ ab = [(E, NotificationExit n)])
  ∨ (now ≤ E + 300 ∧ attached ∧ ab = [(E + 300, NotificationRemove n)])
  ∨ (E + 300 ≤ now ∧ ¬ attached ∧ ab = []).

Definition lifecycle (n E : nat) (w : kworld) : Prop :=
  n ∈ dom (heap (doc (st w)))
  ∧ phase n E (now w) (n ∈ tree (doc (st w))) (about n (timers w)).

(** What no handler changes: the clock, the timers, which elements are
    attached and which element objects exist. *)
Definition same_frame (w w' : kworld) : Prop :=
  now w' = now w ∧ timers w' = timers w
  ∧ tree (doc (st w')) = tree (doc (st w))
  ∧ dom (heap (doc (st w'))) = dom (heap (doc (st w))).

(** The rounds a pending timer can still cause. *)
Definition weight (c : callback) : nat :=
  match c with
  | NotificationExit _ => 2
  | NotificationRemove _ => 1
  end.

Definition rounds (w : kworld) : nat :=
  sum_list_with (λ tm, weight (cb tm)) (pending (timers w)).

(** *** [init]

    Each step of the [try] block is taken as an arbitrary statement that
    may throw, so that what is proved of [init] covers every way a step
    can fail (a missing global, an API the browser lacks). *)
Section Init.
Variables (cacheDOMElements' initEventListeners' Animations_init
           updateContactLinks lazyLoadImages' : M kworld ()).

Definition remove_loading (d : document) : document :=
  Document (heap d) (tree d) (remove_token (lit "loading") (body_classList d))
    (body_style d).

Definition init_body (cfg : config) : M kworld () :=
  cacheDOMElements' ;;
  initEventListeners' ;;
  Animations_init ;;
  updateContactLinks ;;
  when (CONFIG.lazyLoadImages cfg) lazyLoadImages' ;;
  modify (set_doc remove_loading) ;;
  modify (console_log ([0x2705]%N ++ lit " KELAH Agrovet loaded successfully")).

Definition init (cfg : config) : M kworld () :=
  try_catch (init_body cfg)
    (λ error, modify (set_console (Utils.logError (lit "Initialization failed") (Some error)))).
End Init.

(** The state [init] leaves when [error] was thrown in state [w]. *)
Definition logged (error : exn) (w : kworld) : kworld :=
  set_console
    (λ c, c ++ [ConsoleError (lit "[KELAH Error] Initialization failed") (Some error)]) w.

(** The state [init] leaves when no step threw and [w] is the state
    after the last step that can throw. *)
Definition loaded (w : kworld) : kworld :=
  console_log ([0x2705]%N ++ lit " KELAH Agrovet loaded successfully")
    (set_doc remove_loading w).

Definition overflow (w : kworld) : option jsstring :=
  body_style (doc (st w)) !! lit "overflow".

(** Unfolds [init] down to the calls of its steps. *)
Ltac run_init :=
  unfold init, try_catch, init_body, mbind, M_bind, when, modify,
    mret, M_ret, loaded, logged, Utils.logError; simpl.

End KelahApp.

(** ** Example pages *)

Module Pages.

Definition element (t i : string) (classes : list string) (p : option nat) : node :=
  Node (lit t) (lit i) (lit <$> classes) p ∅ [] [].

(** A header with the menu button, the actions block and one link in it. *)
Definition header_page : document :=
  Document
    (list_to_map
       [ (1, element "button" "menuToggle" ["menu-toggle"] None);
         (2, element "nav" "headerActions" ["header__actions"] None);
         (3, element "a" EmptyString ["btn"] (Some 2)) ])
    [1; 2; 3] [] ∅.

(** The menu button without the actions block. *)
Definition button_only_page : document :=
  Document
    (list_to_map [ (1, element "button" "menuToggle" ["menu-toggle"] None) ])
    [1] [] ∅.

(** A products section with two cards, and a service card. *)
Definition products_page : document :=
  Document
    (list_to_map
       [ (1, element "section" "products" [] None);
         (2, element "div" EmptyString ["product-category"] (Some 1));
         (3, element "div" EmptyString ["product-category"] (Some 1));
         (4, element "div" EmptyString ["service-card"] None) ])
    [1; 2; 3; 4] [] ∅.

Definition phone : KelahApp.window :=
  KelahApp.Window 375 0 (λ _, 0) (λ _, 0).

Definition desktop : KelahApp.window :=
  KelahApp.Window 1280 0 (λ _, 0) (λ _, 0).

(** The application once [cacheDOMElements] and [initEventListeners] ran. *)
Definition wired (page : document) : KelahApp.kworld :=
  (KelahApp.initEventListeners (KelahApp.cacheDOMElements (KelahApp.load page 0)).1).1.

End Pages.

(** ** More of js/utils.js and js/config.js *)

Module RateLimits.

Section Calls.
Context {A : Type}.

(** Calls in time order, from [t0] on and up to [t]. *)
Fixpoint in_order (t0 : nat) (cs : list (nat * A)) (t : nat) : Prop :=
  match cs with
  | [] => t0 ≤ t
  | c :: cs' => t0 ≤ c.1 ∧ in_order c.1 cs' t
  end.

(** Nothing comes at the very instant a pending run is due: no call,
    and not the time [t], is exactly [wait] ms after the call before. *)
Fixpoint off_beat (wait : nat) (c : nat * A) (cs : list (nat * A)) (t : nat) : Prop :=
  match cs with
  | [] => t ≠ c.1 + wait
  | c' :: cs' => c'.1 ≠ c.1 + wait ∧ off_beat wait c' cs' t
  end.

Definition untied (wait : nat) (cs : list (nat * A)) (t : nat) : Prop :=
  match cs with
  | [] => True
  | c :: cs' => off_beat wait c cs' t
  end.

(** What a debounced function has run by time [t], in words: each call
    [c] that is followed by more than [wait] ms without a call, run
    [wait] ms after [c] with the arguments of [c]. *)
Fixpoint debounced_from (wait t : nat) (c : nat * A) (cs : list (nat * A))
    : list (nat * A) :=
  match cs with
  | [] => if c.1 + wait <? t then [(c.1 + wait, c.2)] else []
  | c' :: cs' =>
      (if c.1 + wait <? c'.1 then [(c.1 + wait, c.2)] else [])
        ++ debounced_from wait t c' cs'
  end.

Definition debounced (wait t : nat) (cs : list (nat * A)) : list (nat * A) :=
  match cs with
  | [] => []
  | c :: cs' => debounced_from wait t c cs'
  end.

(** Calls in time order from [t0] on, none of them exactly [limit] ms
    after an earlier one: no call comes at the very instant an interval
    ends. *)
Fixpoint timely (limit t0 : nat) (cs : list (nat * A)) : Prop :=
  match cs with
  | [] => True
  | c :: cs' =>
      t0 ≤ c.1 ∧ Forall (λ c', c'.1 ≠ c.1 + limit) cs' ∧ timely limit c.1 cs'
  end.

(** What a throttled function runs, in words: the first call, and then
    each call that comes after the end of the interval which the last
    call run has opened; [window] is the end of the current interval, if
    one is open. *)
Fixpoint passed (limit : nat) (window : option nat) (cs : list (nat * A))
    : list (nat * A) :=
  match cs with
  | [] => []
  | c :: cs' =>
      match window with
      | Some u =>
          if c.1 <? u then passed limit (Some u) cs'
          else c :: passed limit (Some (c.1 + limit)) cs'
      | None => c :: passed limit (Some (c.1 + limit)) cs'
      end
  end.

(** The state after a call [c] of the debounced function, [func] having
    run as [tr] says so far. *)
Definition armed_after (wait : nat) (c : nat * A) (tr : list (nat * A))
    (w : Utils.dworld A) : Prop :=
  now w = c.1 ∧ Utils.dcalls (st w) = tr
  ∧ ∃ h, Utils.timeout (st w) = Some h
         ∧ pending (timers w) = [Timer h (c.1 + wait) c.2].
End Calls.

End RateLimits.

Module Breakpoints.
Import CONFIG.

(** [CONFIG.isTablet] and [CONFIG.isDesktop]; the [tablet] breakpoint
    itself is read by neither. *)
Definition isTablet (this : config) (innerWidth : nat) : bool :=
  (mobile (breakpoints this) <=? innerWidth)
  && (innerWidth <? desktop (breakpoints this)).

Definition isDesktop (this : config) (innerWidth : nat) : bool :=
  desktop (breakpoints this) <=? innerWidth.

End Breakpoints.

(** ** Views of the application state *)

Module Handlers.
Import CONFIG KelahApp.

(** What the page shows of the menu: the [active] class of an element
    and the scroll lock of [body]. *)
Definition shown_open (w : kworld) (el : nat) : bool :=
  matches (doc (st w)) (SelClass (lit "active")) el.

Definition scroll_locked (w : kworld) : bool :=
  bool_decide (overflow w = Some (lit "hidden")).

(** The flag [state.mobileMenuOpen] and what the page shows agree. *)
Definition in_sync (ha mt : nat) (w : kworld) : Prop :=
  headerActions (DOM (st w)) = Some ha
  ∧ menuToggle (DOM (st w)) = Some mt
  ∧ is_Some (heap (doc (st w)) !! ha)
  ∧ is_Some (heap (doc (st w)) !! mt)
  ∧ shown_open w ha = is_open w
  ∧ shown_open w mt = is_open w
  ∧ scroll_locked w = is_open w.

(** The listeners a click on [target] reaches, in the order they run:
    those of the target, then those of its ancestors. *)
Definition reached (target : nat) (w : kworld) : list listener :=
  let d := doc (st w) in
  (target :: ancestors (size (heap d)) (heap d) target)
    ≫= λ el, listeners_for (Some el) click w.

(** What leaves the menu as it is: the cache, the flag, the scroll lock
    and the classes of the elements there are. *)
Definition menu_untouched (w w' : kworld) : Prop :=
  DOM (st w') = DOM (st w)
  ∧ is_open w' = is_open w
  ∧ overflow w' = overflow w
  ∧ ∀ el, is_Some (heap (doc (st w)) !! el) →
      classList <$> heap (doc (st w')) !! el = classList <$> heap (doc (st w)) !! el.

(** What no listener changes: which elements are attached, their ids
    and the registered listeners; scroll requests are only added. *)
Definition keeps_ids (w w' : kworld) : Prop :=
  tree (doc (st w')) = tree (doc (st w))
  ∧ (∀ n, elem_id <$> heap (doc (st w')) !! n = elem_id <$> heap (doc (st w)) !! n)
  ∧ listeners (st w') = listeners (st w)
  ∧ ∃ more, scrollTo (st w') = scrollTo (st w) ++ more.

(** The test of [handleScroll]: the line 200 px below the top of the
    window lies in the section. *)
Definition in_band (win : window) (s : nat) : bool :=
  (offsetTop win s <=? scrollY win + 200)
  && (scrollY win + 200 <? offsetTop win s + offsetHeight win s).

(** The cached sections that are present, in the order [handleScroll]
    visits them. *)
Definition sections (c : dom_cache) : list nat :=
  omap id [hero c; services c; products c; contact c].

End Handlers.

(** ** Views of the animations *)

Module Stagger.
Import Animations.

(** The element is visible: both timer bodies end in this opacity. *)
Definition shown (w : aworld) (el : nat) : Prop :=
  get_style (doc (st w)) el (lit "opacity") = Some (lit "1").

(** Card [c] is shown, or its timer of the stagger, due at [D], is
    still pending. *)
Definition stagger_due (c D : nat) (w : aworld) : Prop :=
  is_Some (heap (doc (st w)) !! c)
  ∧ (shown w c ∨ (D, Stagger c) ∈ schedule_of (timers w)).

(** The starting state [initProductStagger] gives a card. *)
Definition card_hidden (w : aworld) (c : nat) : Prop :=
  get_style (doc (st w)) c (lit "opacity") = Some (lit "0")
  ∧ get_style (doc (st w)) c (lit "transform") = Some (lit "translateY(40px) scale(0.95)")
  ∧ get_style (doc (st w)) c (lit "transition")
    = Some (lit "all 0.6s cubic-bezier(0.4, 0, 0.2, 1)").

End Stagger.

Module HeaderShadow.
Import Animations.

(** The shadow the scroll listener of [initHeaderScroll] gives the header. *)
Definition shadow (pageYOffset : nat) : jsstring :=
  if 50 <? pageYOffset then lit "0 2px 10px rgba(0, 0, 0, 0.1)"
  else lit "0 1px 2px rgba(0, 0, 0, 0.05)".

Definition scroll_of (x : nat * event) : option nat :=
  match x.2 with
  | Scroll y => Some y
  | _ => None
  end.

(** The position of the last run of the listener, if there was one. *)
Definition last_scroll (evs : list (nat * event)) : option nat :=
  last (omap scroll_of evs).

(** A scroll event of the page: its time and position. *)
Definition scroll_at (x : nat * event) : option (nat * nat) :=
  match x.2 with
  | Scroll y => Some (x.1, y)
  | _ => None
  end.

(** From the events of the page to what the animations see.  The
    scroll listener is registered as [Utils.throttle(handler, 100)], and
    the handler returns: a scroll event that the wrapper [tw] lets
    through is a run of the handler, one that it drops only lets the time
    pass. *)
Fixpoint runs (evs : list (nat * event)) (tw : Utils.tworld nat) : list (nat * event) :=
  match evs with
  | [] => []
  | x :: evs' =>
      match x.2 with
      | Scroll y =>
          (x.1, if Utils.inThrottle (st (Utils.tadvance x.1 tw)) then Idle else Scroll y)
            :: runs evs' (Utils.tcall 100 (Utils.plain (x.1, y)) tw)
      | _ => x :: runs evs' tw
      end
  end.

End HeaderShadow.

(** ** [updateContactLinks] of js/app.js *)

Module ContactLinks.
Import CONFIG KelahApp.

(** The tests of the attribute selectors [[href^="p"]] and
    [[href*="p"]]: the value starts with [p], contains [p]. *)
Fixpoint starts_with (p s : jsstring) : bool :=
  match p, s with
  | [], _ => true
  | c :: p', c' :: s' => (c =? c')%N && starts_with p' s'
  | _ :: _, [] => false
  end.

Fixpoint includes (p s : jsstring) : bool :=
  starts_with p s
  || match s with
     | [] => false
     | _ :: s' => includes p s'
     end.

(** [a[href...]], with the test on the value of [href]. *)
Definition link_matches (test : jsstring → bool) (d : document) (el : nat) : bool :=
  from_option (λ nd, bool_decide (tag nd = lit "a") && test (href nd)) false
    (heap d !! el).

(** [Utils.getElements('a[href...]')] *)
Definition getElements (test : jsstring → bool) (d : document) : list nat :=
  List.filter (link_matches test d) (tree d).

(** [link.href = value] *)
Definition set_href (value : jsstring) (link : nat) : kworld → kworld :=
  set_doc (set_heap (alter (with_href value) link)).

(** [els.forEach(f)] *)
Fixpoint for_each (els : list nat) (f : nat → M kworld ()) : M kworld () :=
  match els with
  | [] => mret ()
  | el :: els' => f el ;; for_each els' f
  end.

Definition updateContactLinks (cfg : config) : M kworld () :=
  phoneLinks ← gets (λ w, getElements (starts_with (lit "tel:")) (doc (st w))) ;
  for_each phoneLinks (λ link, modify (set_href (getPhoneLink cfg) link)) ;;
  whatsappLinks ← gets (λ w, getElements (includes (lit "wa.me")) (doc (st w))) ;
  for_each whatsappLinks (λ link,
    match getWhatsAppLink cfg None with
    | Ok value => modify (set_href value link)
    | Throw e => throw e
    end).

(** The document with the [href] of the elements [els] set to [value]. *)
Definition relinked (value : jsstring) (els : list nat) (d : document) : document :=
  set_heap (λ h, foldl (λ h el, alter (with_href value) el h) h els) d.

(** What [updateContactLinks] makes of the document, given the two links. *)
Definition relink (phoneLink whatsappLink : jsstring) (d : document) : document :=
  let d1 := relinked phoneLink (getElements (starts_with (lit "tel:")) d) d in
  relinked whatsappLink (getElements (includes (lit "wa.me")) d1) d1.

(** A page with a phone link, a chat link, another link and a [span]. *)
Definition contact_page : document :=
  Document
    (list_to_map
       [ (1, Node (lit "a") [] [] None ∅ (lit "Call") (lit "tel:0700000000"));
         (2, Node (lit "a") [] [] None ∅ (lit "Chat") (lit "https://wa.me/1?text=hi"));
         (3, Node (lit "a") [] [] None ∅ (lit "Contact") (lit "#contact"));
         (4, Node (lit "span") [] [] None ∅ [] (lit "tel:1")) ])
    [1; 2; 3; 4] [] ∅.

End ContactLinks.

(** ** [Utils.addClassWithDelay], [Utils.removeClassWithDelay] *)

Module ClassDelays.

(** The [setTimeout] closures of [addClassWithDelay] and
    [removeClassWithDelay]. *)
Inductive callback :=
  | AddClass (element : nat) (className : jsstring)
  | RemoveClass (element : nat) (className : jsstring).

(** What [classList.add] and [classList.remove] throw: a [SyntaxError]
    for the empty token, an [InvalidCharacterError] for a token with
    ASCII white space in it. *)
Inductive dom_exception := SyntaxError | InvalidCharacterError.

Definition validate (c : jsstring) : option dom_exception :=
  match c with
  | [] => Some SyntaxError
  | _ => if existsb is_space c then Some InvalidCharacterError else None
  end.

(** The page, and what the timer bodies have thrown. *)
Record cstate := CState { page : document; thrown : list dom_exception }.

Definition cworld := world callback cstate.

(** The class list once a token that [validate] accepts is added. *)
Definition add_token (c : jsstring) (l : list jsstring) : list jsstring :=
  if bool_decide (c ∈ l) then l else l ++ [c].

(** [element.classList.add(className)], [element.classList.remove(className)] *)
Definition classList_update (f : jsstring → list jsstring → list jsstring)
    (element : nat) (className : jsstring) (s : cstate) : cstate :=
  match validate className with
  | Some e => CState (page s) (thrown s ++ [e])
  | None =>
      CState (set_heap (alter (with_classList (f className)) element) (page s))
        (thrown s)
  end.

Definition addClassWithDelay (element : nat) (className : jsstring) (delay : nat)
    (w : cworld) : cworld :=
  World (now w) (setTimeout (AddClass element className) delay (now w) (timers w)).2 (st w).

Definition removeClassWithDelay (element : nat) (className : jsstring) (delay : nat)
    (w : cworld) : cworld :=
  World (now w) (setTimeout (RemoveClass element className) delay (now w) (timers w)).2 (st w).

Definition fire (c : callback) (w : cworld) : cworld :=
  match c with
  | AddClass element className =>
      World (now w) (timers w) (classList_update add_token element className (st w))
  | RemoveClass element className =>
      World (now w) (timers w) (classList_update remove_token element className (st w))
  end.

(** No timer body registers a timer. *)
Definition advance (t : nat) (w : cworld) : cworld :=
  run fire (S (length (pending (timers w)))) t w.

Definition has_class (w : cworld) (el : nat) (c : jsstring) : bool :=
  matches (page (st w)) (SelClass c) el.

(** 1 for the timers that change class [c] of [el]. *)
Definition concerns (el : nat) (c : jsstring) (cb : callback) : nat :=
  match cb with
  | AddClass el' c' | RemoveClass el' c' =>
      if bool_decide (el' = el ∧ c' = c) then 1 else 0
  end.

Abbreviation about el c := (concerning (concerns el c) 1).

(** Whether the class is there once the timer ran. *)
Definition effect (cb : callback) : bool :=
  match cb with
  | AddClass _ _ => true
  | RemoveClass _ _ => false
  end.

(** The order in which timers run: by due time, and in registration
    order among timers due at the same time. *)
Fixpoint insert_timer (x : nat * callback) (l : list (nat * callback))
    : list (nat * callback) :=
  match l with
  | [] => [x]
  | y :: l' => if x.1 <=? y.1 then x :: l else y :: insert_timer x l'
  end.

Fixpoint fire_order (l : list (nat * callback)) : list (nat * callback) :=
  match l with
  | [] => []
  | x :: l' => insert_timer x (fire_order l')
  end.

Definition due_by (t : nat) (l : list (nat * callback)) : list (nat * callback) :=
  List.filter (λ p, p.1 <=? t) l.

(** The class after the timers of [l] ran in that order. *)
Definition replay (h : bool) (l : list (nat * callback)) : bool :=
  foldl (λ _ p, effect p.2) h l.

End ClassDelays.

(** ** [Utils.lazyLoadImages] *)

Module LazyImages.
Import Animations.

(** An [img] element: its [src] and [data-src] attributes, where
    present, and its classes. *)
Record image := Image {
  src : option jsstring;
  data_src : option jsstring;
  image_classList : list jsstring
}.

(** The images by identity, the attached ones in document order, and
    the targets of [imageObserver]. *)
Record state := State {
  images : gmap nat image;
  tree : list nat;
  imageObserver : list nat
}.

(** [Utils.getElements('img[data-src]')] *)
Definition getElements (s : state) : list nat :=
  List.filter (λ el, bool_decide (is_Some (images s !! el ≫= data_src))) (tree s).

Definition lazyLoadImages (s : state) : state :=
  State (images s) (tree s) (foldl (λ ts img, observe img ts) [] (getElements s)).

(** [img.src = img.dataset.src; img.classList.add('loaded')]; a missing
    [data-src] reads as [undefined]. *)
Definition loaded (img : image) : image :=
  Image (Some (default (lit "undefined") (data_src img))) (data_src img)
    (ClassDelays.add_token (lit "loaded") (image_classList img)).

(** The callback of [imageObserver]. *)
Fixpoint callback (entries : list entry) (s : state) : state :=
  match entries with
  | [] => s
  | entry :: entries' =>
      callback entries'
        (if isIntersecting entry then
           State (alter loaded (target entry) (images s)) (tree s)
             (unobserve (target entry) (imageObserver s))
         else s)
  end.

#[export] Instance reports_dec el changes : Decision (reports el changes).
Proof. unfold reports. apply _. Defined.

(** The browser hands the callback the changes of the observed images. *)
Definition handle (changes : list entry) (s : state) : state :=
  callback (delivered (imageObserver s) changes) s.

Definition play (batches : list (list entry)) (s : state) : state :=
  foldl (λ s changes, handle changes s) s batches.

End LazyImages.

(** * Properties *)

(** ** Lists *)

Module ListFacts.

Lemma elem_of_filter_neq (n m : nat) (l : list nat) :
  m ∈ List.filter (λ x, negb (x =? n)) l ↔ m ∈ l ∧ m ≠ n.
Proof.
  rewrite !list_elem_of_In, filter_In, negb_true_iff, Nat.eqb_neq. done.
Qed.

Lemma filter_neq_id (n : nat) (l : list nat) :
  n ∉ l → List.filter (λ x, negb (x =? n)) l = l.
Proof.
  induction l as [|a l IH]; [done |].
  rewrite not_elem_of_cons. intros [Hne Hnin]. simpl.
  destruct (Nat.eqb_spec a n); [congruence |]. simpl. by rewrite IH.
Qed.

Lemma singleton_split {A} (x y : A) (a1 a2 : list A) :
  a1 ++ [y] ++ a2 = [x] → x = y ∧ a1 = [] ∧ a2 = [].
Proof.
  destruct a1 as [|z a1]; simpl; intros H; simplify_eq; [done |].
  by destruct a1.
Qed.


End ListFacts.

(** ** The timer queue *)

Module TimersFacts.

Section Queue.
Context {C : Type}.
Implicit Types (q : queue C) (tm : timer C) (l r : list (timer C)).

Lemma pop_earliest_Some l tm r :
  pop_earliest l = Some (tm, r) →
  ∃ l1 l2, l = l1 ++ tm :: l2 ∧ r = l1 ++ l2
           ∧ Forall (λ x, due tm ≤ due x) l.
Proof.
  revert tm r. induction l as [|a l IH]; intros tm r Hpop; [done |].
  simpl in Hpop. destruct (pop_earliest l) as [[tm' r']|] eqn:Hl.
  - destruct (IH _ _ eq_refl) as (l1 & l2 & -> & -> & Hall).
    destruct (Nat.ltb_spec (due tm') (due a)); simplify_eq.
    + exists (a :: l1), l2. split_and!; [done | done |].
      constructor; [lia | done].
    + exists [], (l1 ++ tm' :: l2). split_and!; [done | done |].
      constructor; [done |]. eapply Forall_impl; [done |]. simpl; intros; lia.
  - destruct l; [| simpl in Hl; repeat case_match; done].
    simplify_eq. exists [], []. split_and!; [done | done |].
    by repeat constructor.
Qed.

Lemma pop_earliest_None l : pop_earliest l = None → l = [].
Proof. destruct l; [done |]. simpl. repeat case_match; done. Qed.

Lemma pop_due_Some t q tm q' :
  pop_due t q = Some (tm, q') →
  due tm ≤ t ∧ next_id q' = next_id q
  ∧ ∃ l1 l2, pending q = l1 ++ tm :: l2 ∧ pending q' = l1 ++ l2
             ∧ Forall (λ x, due tm ≤ due x) (pending q).
Proof.
  unfold pop_due. destruct (pop_earliest (pending q)) as [[tm' r]|] eqn:Hl; [| done].
  destruct (Nat.leb_spec (due tm') t); [| done].
  intros; simplify_eq.
  apply pop_earliest_Some in Hl as (l1 & l2 & ? & ? & ?).
  split_and!; [done | done |]. by exists l1, l2.
Qed.

Lemma pop_due_None t q : pop_due t q = None → settled t q.
Proof.
  unfold pop_due, settled.
  destruct (pop_earliest (pending q)) as [[tm' r]|] eqn:Hl.
  - destruct (Nat.leb_spec (due tm') t); [done |]. intros _.
    apply pop_earliest_Some in Hl as (_ & _ & _ & _ & Hall).
    eapply Forall_impl; [done |]. simpl; intros; lia.
  - apply pop_earliest_None in Hl as ->. by constructor.
Qed.

Lemma pop_due_empty t n : pop_due t (Queue n ([] : list (timer C))) = None.
Proof. reflexivity. Qed.

Lemma pop_due_single_late t n tm :
  t < due tm → pop_due t (Queue n [tm]) = None.
Proof.
  intros Hlt. unfold pop_due; simpl.
  destruct (Nat.leb_spec (due tm) t); [lia | done].
Qed.

Lemma pop_due_single_due t n tm :
  due tm ≤ t → pop_due t (Queue n [tm]) = Some (tm, Queue n []).
Proof.
  intros Hle. unfold pop_due; simpl.
  destruct (Nat.leb_spec (due tm) t); [done | lia].
Qed.
End Queue.

Section Concerning.
Context {C : Type} (key : C → nat).
Implicit Types (q : queue C) (tm : timer C) (l : list (timer C)).

Lemma concerning_app n next next' l1 l2 :
  concerning key n (Queue next (l1 ++ l2))
  = concerning key n (Queue next' l1) ++ concerning key n (Queue next' l2).
Proof. unfold concerning, schedule_of; simpl. by rewrite fmap_app, List.filter_app. Qed.

Lemma concerning_cons n next next' tm l :
  concerning key n (Queue next (tm :: l))
  = (if key (cb tm) =? n then [(due tm, cb tm)] else [])
      ++ concerning key n (Queue next' l).
Proof. unfold concerning, schedule_of; simpl. by case_match. Qed.

Lemma concerning_next n next next' l :
  concerning key n (Queue next l) = concerning key n (Queue next' l).
Proof. done. Qed.

Lemma concerning_elem n q d c :
  (d, c) ∈ concerning key n q →
  key c = n ∧ ∃ tm, tm ∈ pending q ∧ due tm = d ∧ cb tm = c.
Proof.
  unfold concerning, schedule_of.
  intros [Hin Hk]%list_elem_of_In%filter_In. apply list_elem_of_In in Hin.
  apply list_elem_of_fmap in Hin as (tm & Heq & Hin). simplify_eq.
  split; [by apply Nat.eqb_eq in Hk | by exists tm].
Qed.

Lemma concerning_setTimeout n c delay now q :
  concerning key n (setTimeout c delay now q).2
  = concerning key n q ++ (if key c =? n then [(now + delay, c)] else []).
Proof.
  unfold setTimeout; simpl.
  rewrite (concerning_app n _ (next_id q)), (concerning_cons n _ 0); simpl.
  destruct q. by rewrite app_nil_r.
Qed.

(** Taking a timer out of the queue: what it does to the timers that
    concern [n]. *)
Lemma concerning_pop n t q tm q' :
  pop_due t q = Some (tm, q') →
  due tm ≤ t
  ∧ (∀ d c, (d, c) ∈ concerning key n q → due tm ≤ d)
  ∧ ∃ a1 a2,
      concerning key n q' = a1 ++ a2
      ∧ concerning key n q
        = a1 ++ (if key (cb tm) =? n then [(due tm, cb tm)] else []) ++ a2.
Proof.
  intros (Hdue & _ & l1 & l2 & Hq & Hq' & Hall)%pop_due_Some.
  split_and!; [done | |].
  - intros d c (_ & tm' & Hin & <- & _)%concerning_elem.
    rewrite Forall_forall in Hall. by apply Hall.
  - destruct q as [i l], q' as [i' l']; simpl in *; subst.
    exists (concerning key n (Queue 0 l1)), (concerning key n (Queue 0 l2)).
    by rewrite (concerning_app n i' 0), (concerning_app n i 0), (concerning_cons n 0 0).
Qed.

Lemma concerning_settled n t q d c :
  settled t q → (d, c) ∈ concerning key n q → t < d.
Proof.
  intros Hs (_ & tm & Hin & <- & _)%concerning_elem.
  unfold settled in Hs. rewrite Forall_forall in Hs. by apply Hs.
Qed.
End Concerning.

(** The loop keeps an invariant that each timer body and the move of the
    clock keep; with fuel above a measure that each timer body lowers, it
    ends with no timer due and the clock at [t] or later. *)
Section Run.
Context {C St : Type} (fire : C → world C St → world C St).
Variables (t : nat) (I : world C St → Prop) (mu : world C St → nat).

Hypothesis fire_keeps : ∀ w tm q',
  I w → pop_due t (timers w) = Some (tm, q') →
  I (fire (cb tm) (World (now w `max` due tm) q' (st w)))
  ∧ mu (fire (cb tm) (World (now w `max` due tm) q' (st w))) < mu w.

Hypothesis clock_keeps : ∀ w,
  I w → pop_due t (timers w) = None →
  I (World (now w `max` t) (timers w) (st w)).

Lemma run_invariant fuel : ∀ w,
  mu w < fuel → I w →
  I (run fire fuel t w)
  ∧ settled t (timers (run fire fuel t w))
  ∧ t ≤ now (run fire fuel t w).
Proof using fire_keeps clock_keeps.
  induction fuel as [|fuel IH]; intros w Hmu HI; [lia |].
  simpl. destruct (pop_due t (timers w)) as [[tm q']|] eqn:Hpop.
  - destruct (fire_keeps w tm q' HI Hpop) as [HI' Hmu'].
    apply IH; [lia | done].
  - split_and!; simpl; [by apply clock_keeps | by apply pop_due_None | lia].
Qed.
End Run.

End TimersFacts.

(** ** [Utils.debounce] *)

Module DebounceFacts.
Import Utils TimersFacts.

Section Facts.
Context {A : Type}.
Implicit Types (w : dworld A) (c p : nat * A) (cs : list (nat * A)).

Lemma dadvance_fresh t0 t :
  dadvance t (debounce (A:=A) t0) = World (t0 `max` t) (Queue 1 []) (DState None []).
Proof. reflexivity. Qed.

Lemma dcall_fresh wait t0 c :
  t0 ≤ c.1 → armed wait c (dcall wait c (debounce t0)).
Proof.
  intros Hle. unfold dcall. rewrite dadvance_fresh.
  unfold executedFunction, armed; simpl.
  rewrite Nat.max_r by done. eauto.
Qed.

Lemma dadvance_armed_early wait p w t :
  armed wait p w → p.1 ≤ t → t < p.1 + wait →
  dadvance t w = World t (timers w) (st w).
Proof.
  intros (Hnow & _ & h & _ & Hq) Hle Hlt.
  destruct w as [n [i l] s]; simpl in *; subst.
  unfold dadvance; simpl.
  rewrite pop_due_single_late by (simpl; lia).
  by rewrite Nat.max_r.
Qed.

Lemma dadvance_armed_late wait p w t :
  armed wait p w → p.1 + wait ≤ t →
  dadvance t w
  = World t (Queue (next_id (timers w)) [])
      (DState (timeout (st w)) [(p.1 + wait, p.2)]).
Proof.
  intros (Hnow & Hc & h & _ & Hq) Hle.
  destruct w as [n [i l] [o cs]]; simpl in *; subst.
  unfold dadvance; simpl.
  rewrite pop_due_single_due by (simpl; lia). simpl.
  rewrite Nat.max_r by lia. unfold dfire; simpl.
  by rewrite Nat.max_r by lia.
Qed.

Lemma dcall_armed wait p c w :
  armed wait p w → p.1 ≤ c.1 → c.1 < p.1 + wait →
  armed wait c (dcall wait c w).
Proof.
  intros Ha Hle Hlt. unfold dcall.
  rewrite (dadvance_armed_early wait p) by done.
  destruct Ha as (Hnow & Hc & h & Ht & Hq).
  destruct w as [n [i l] [o cs]]; simpl in *; subst.
  unfold executedFunction, armed; simpl.
  rewrite filter_cons, decide_False by (intros H'; by apply H').
  simpl. eauto.
Qed.

Lemma dplay_armed wait cs : ∀ p w,
  armed wait p w → quiet_less wait p.1 cs →
  armed wait (List.last cs p) (dplay wait cs w).
Proof.
  induction cs as [|c cs IH]; intros p w Ha Hq; [done |].
  destruct Hq as (Hle & Hlt & Hq).
  replace (List.last (c :: cs) p) with (List.last cs c)
    by (clear; revert c; induction cs; intros; simpl in *; [done | by destruct cs]).
  apply IH; [| done]. by apply dcall_armed with p.
Qed.

Lemma all_within_quiet_less wait c cs :
  Sorted (λ x y : nat * A, x.1 ≤ y.1) (c :: cs) →
  all_within wait (c :: cs) → quiet_less wait c.1 cs.
Proof.
  revert c. induction cs as [|c' cs IH]; intros c Hs Hw; [done |].
  apply Sorted_inv in Hs as [Hs Hhd]. apply HdRel_inv in Hhd.
  simpl. split_and!; [done | |].
  - apply (Hw c' c); [apply list_elem_of_further |]; apply list_elem_of_here.
  - apply IH; [done |]. intros x y ? ?. by apply Hw; apply list_elem_of_further.
Qed.
End Facts.

(** C1. The wrapper returned by [Utils.debounce(func, wait)], called
    N >= 1 times, each call less than [wait] ms after the one before (as
    is the case when all calls lie within [wait] ms of each other), invokes
    [func] exactly once, [wait] ms after the last call and with the
    arguments of the last call: right after the calls [func] has not run
    and the only pending timer is the one of the last call; it has still
    not run at any time before [wait] ms have passed; from then on its
    trace holds that one invocation and no timer is left. *)
Theorem debounce_burst {A} (wait t0 : nat) (c : nat * A) (cs : list (nat * A)) :
  t0 ≤ c.1 →
  quiet_less wait c.1 cs →
  let l := List.last cs c in
  let w := dplay wait (c :: cs) (debounce t0) in
  dcalls (st w) = []
  ∧ (λ tm, (due tm, cb tm)) <$> pending (timers w) = [(l.1 + wait, l.2)]
  ∧ (∀ t, l.1 ≤ t → t < l.1 + wait → dcalls (st (dadvance t w)) = [])
  ∧ (∀ t, l.1 + wait ≤ t →
       dcalls (st (dadvance t w)) = [(l.1 + wait, l.2)]
       ∧ pending (timers (dadvance t w)) = []).
Proof.
  intros Hle Hq l w.
  assert (armed wait l w) as Ha.
  { apply (dplay_armed wait cs c (dcall wait c (debounce t0))); [| done].
    by apply dcall_fresh. }
  pose proof Ha as (Hnow & Hc & h & Ht & Hp).
  split_and!.
  - done.
  - by rewrite Hp.
  - intros t H1 H2. by rewrite (dadvance_armed_early wait l).
  - intros t H1. by rewrite (dadvance_armed_late wait l).
Qed.

Lemma debounce_burst_witness :
  dcalls (st (dadvance 1000 (dplay 250 [(10, 1); (100, 2); (300, 3)] (debounce 0))))
  = [(550, 3)].
Proof.
  destruct (debounce_burst 250 0 (10, 1) [(100, 2); (300, 3)]) as (_ & _ & _ & H).
  - simpl; lia.
  - simpl; lia.
  - apply (H 1000). simpl; lia.
Defined.

(** The same for calls that all lie within [wait] ms of each other. *)
Corollary debounce_all_within {A} (wait t0 : nat) (c : nat * A) (cs : list (nat * A)) t :
  t0 ≤ c.1 →
  Sorted (λ x y : nat * A, x.1 ≤ y.1) (c :: cs) →
  all_within wait (c :: cs) →
  (List.last cs c).1 + wait ≤ t →
  dcalls (st (dadvance t (dplay wait (c :: cs) (debounce t0))))
  = [((List.last cs c).1 + wait, (List.last cs c).2)].
Proof.
  intros Hle Hs Hw Ht.
  assert (armed wait (List.last cs c) (dplay wait (c :: cs) (debounce t0))) as Ha.
  { apply (dplay_armed wait cs c (dcall wait c (debounce t0)));
      [by apply dcall_fresh | by apply all_within_quiet_less]. }
  by rewrite (dadvance_armed_late wait (List.last cs c)).
Qed.

End DebounceFacts.

(** ** [Utils.throttle] *)

Module ThrottleFacts.
Import Utils TimersFacts.

Section Facts.
Context {A : Type}.
Implicit Types (w : tworld A) (c : nat * A) (tr cs : list (nat * A)).


(** A call outside a window goes through at once and opens a window. *)
Lemma tcall_idle limit tr c w :
  idle tr w → now w ≤ c.1 →
  throttling limit c.1 (tr ++ [c]) (tcall limit (plain c) w).
Proof.
  intros (Hin & Htr & Hp) Hle.
  destruct w as [n [i l] [b cs]], c as [t a]; simpl in *; subst.
  unfold tcall, plain, throttled, wrapper, func, tadvance, throttling; simpl.
  rewrite Nat.max_r by done. split_and!; [lia | done | done | eauto].
Qed.

(** A call inside the window is dropped. *)
Lemma tcall_inside limit t1 tr c w :
  throttling limit t1 tr w → c.1 < t1 + limit →
  throttling limit t1 tr (tcall limit (plain c) w).
Proof.
  intros (Hnow & Hin & Htr & h & Hp) Hlt.
  destruct w as [n [i l] [b cs]], c as [t a]; simpl in *; subst.
  unfold tcall, plain, throttled, wrapper, func, tadvance, throttling; simpl.
  rewrite pop_due_single_late by (simpl; lia). simpl.
  split_and!; [lia | done | done | eauto].
Qed.

(** Once the window has elapsed the next call goes through and opens
    a new one. *)
Lemma tcall_after limit t1 tr c w :
  throttling limit t1 tr w → t1 + limit ≤ c.1 →
  throttling limit c.1 (tr ++ [c]) (tcall limit (plain c) w).
Proof.
  intros (Hnow & Hin & Htr & h & Hp) Hle.
  destruct w as [n [i l] [b cs]], c as [t a]; simpl in *; subst.
  unfold tcall, plain, throttled, wrapper, func, tadvance, throttling; simpl.
  rewrite pop_due_single_due by (simpl; lia). simpl.
  replace ((n `max` (t1 + limit)) `max` t) with t by lia.
  split_and!; [lia | done | done | eauto].
Qed.



End Facts.




End ThrottleFacts.

(** ** [Utils.formatPhone] *)

Module FormatPhoneFacts.
Import Utils.

Example formatPhone_configured :
  formatPhone (CONFIG.phone (CONFIG.business CONFIG.CONFIG)) = lit "+254 722 784 947".
Proof. reflexivity. Qed.

Lemma grouped_shape (ds : jsstring) :
  length ds = 12 →
  ∃ a b c d e f g h i j k l,
    ds = [a; b; c; d; e; f; g; h; i; j; k; l]
    ∧ grouped ds
      = lit "+" ++ [a; b; c] ++ lit " " ++ [d; e; f] ++ lit " " ++ [g; h; i]
          ++ lit " " ++ [j; k; l].
Proof.
  intros Hlen.
  do 12 (destruct ds as [|? ds]; [discriminate Hlen |]).
  destruct ds; [| discriminate Hlen].
  by do 12 eexists.
Qed.

Lemma filter_is_digit_id (ds : jsstring) :
  Forall is_digit ds → List.filter is_digit ds = ds.
Proof.
  induction 1 as [|d ds Hd _ IH]; [done |].
  simpl. destruct (is_digit d); [by rewrite IH | done].
Qed.

Lemma filter_is_digit_digits (phone : jsstring) :
  Forall is_digit (List.filter is_digit phone).
Proof.
  apply Forall_forall. intros d Hd%list_elem_of_In%filter_In. by apply Is_true_true, Hd.
Qed.

Lemma regroup_id {A} (ds : list A) :
  take 3 ds ++ take 3 (drop 3 ds) ++ take 3 (drop 6 ds) ++ drop 9 ds = ds.
Proof. do 9 (destruct ds as [|? ds]; [done |]). done. Qed.

(** The grouping only adds characters that are not digits. *)
Lemma filter_grouped (ds : jsstring) :
  Forall is_digit ds → List.filter is_digit (grouped ds) = ds.
Proof.
  intros Hds. unfold grouped.
  rewrite !List.filter_app.
  change (List.filter is_digit (lit "+")) with ([] : jsstring).
  change (List.filter is_digit (lit " ")) with ([] : jsstring).
  rewrite !filter_is_digit_id
    by eauto using Forall_take, Forall_drop.
  apply regroup_id.
Qed.

Lemma formatPhone_twelve (phone : jsstring) :
  length (List.filter is_digit phone) = 12 →
  formatPhone phone = grouped (List.filter is_digit phone).
Proof.
  intros Hlen. unfold formatPhone, grouped, slice, slice_from.
  by rewrite Hlen.
Qed.

Lemma formatPhone_other (phone : jsstring) :
  length (List.filter is_digit phone) ≠ 12 → formatPhone phone = phone.
Proof.
  intros Hlen. unfold formatPhone.
  by destruct (Nat.eqb_spec (length (List.filter is_digit phone)) 12).
Qed.

(** C10. [Utils.formatPhone] strips every character that is not a digit;
    when exactly 12 digits remain it returns them, with a leading plus, in
    four groups of three separated by a space; for every input whose
    number of digits differs from 12 it returns the input unchanged.  The
    result is such a grouping of 12 digits if and only if the input has
    exactly 12 digits. *)
Theorem formatPhone_spec (phone : jsstring) :
  let digits := List.filter is_digit phone in
  (length digits = 12 →
     ∃ a b c d e f g h i j k l,
       digits = [a; b; c; d; e; f; g; h; i; j; k; l]
       ∧ formatPhone phone
         = lit "+" ++ [a; b; c] ++ lit " " ++ [d; e; f] ++ lit " " ++ [g; h; i]
             ++ lit " " ++ [j; k; l])
  ∧ (length digits ≠ 12 → formatPhone phone = phone)
  ∧ (length digits = 12
     ↔ ∃ ds, length ds = 12 ∧ Forall is_digit ds ∧ formatPhone phone = grouped ds).
Proof.
  intros digits. split_and!.
  - intros Hlen. rewrite formatPhone_twelve by done. by apply grouped_shape.
  - apply formatPhone_other.
  - split.
    + intros Hlen. exists digits. split_and!; [done | |].
      * apply filter_is_digit_digits.
      * by apply formatPhone_twelve.
    + intros (ds & Hlen & Hds & Heq).
      destruct (decide (length digits = 12)) as [|Hne]; [done |].
      rewrite formatPhone_other in Heq by done.
      unfold digits. by rewrite Heq, filter_grouped.
Qed.

Lemma formatPhone_spec_witness :
  formatPhone (lit "+254 (722) 784-947") = lit "+254 722 784 947"
  ∧ formatPhone (lit "0722 784 947") = lit "0722 784 947".
Proof.
  destruct (formatPhone_spec (lit "+254 (722) 784-947")) as (H12 & _ & _).
  destruct (formatPhone_spec (lit "0722 784 947")) as (_ & Hne & _).
  split.
  - destruct H12 as (a & b & c & d & e & f & g & h & i & j & k & l & Hd & ->);
      [reflexivity |].
    vm_compute in Hd. by simplify_eq.
  - apply Hne. vm_compute. lia.
Defined.

End FormatPhoneFacts.

(** ** [CONFIG.getWhatsAppLink] *)

Module ConfigFacts.
Import CONFIG.

Lemma between_spec lo hi u : between lo hi u = true ↔ (lo ≤ u ≤ hi)%N.
Proof. unfold between. rewrite andb_true_iff, !N.leb_le. done. Qed.

Lemma uriUnescaped_not_surrogate u :
  uriUnescaped u = true → is_lead_surrogate u = false ∧ is_trail_surrogate u = false.
Proof.
  unfold uriUnescaped, is_lead_surrogate, is_trail_surrogate.
  rewrite !orb_true_iff, !between_spec, bool_decide_eq_true.
  intros Hu.
  assert (u < 128)%N as Hlt.
  { destruct Hu as [[[?|?]|?]|Hin]; [lia.. |].
    repeat (apply elem_of_cons in Hin as [->|Hin]; [lia |]).
    by apply elem_of_nil in Hin. }
  split; apply not_true_is_false; rewrite between_spec; lia.
Qed.

Example encodeURIComponent_unicode :
  encodeURIComponent ([0xE9; 0x20AC; 0xD83D; 0xDE00]%N ++ lit " a-b_c.d!e~f*g'h(i)j&k=l")
  = Ok (lit "%C3%A9%E2%82%AC%F0%9F%98%80%20a-b_c.d!e~f*g'h(i)j%26k%3Dl").
Proof. reflexivity. Qed.

Example getWhatsAppLink_default :
  getWhatsAppLink CONFIG None
  = Ok (lit "https://wa.me/254722784947?text=Hello%20KELAH%20Agrovet%2C%20I'd%20like%20to%20inquire%20about%20your%20services.").
Proof. reflexivity. Qed.

(** [encodeURIComponent] returns on every string without an unpaired
    surrogate. *)
Lemma encodeURIComponent_well_formed (s : jsstring) :
  (well_formed s = true → ∃ r, encodeURIComponent s = Ok r)
  ∧ (∀ c, well_formed (c :: s) = true → ∃ r, encodeURIComponent (c :: s) = Ok r).
Proof.
  induction s as [|a s [IH1 IH2]].
  - split; [by eexists |]. intros c. simpl.
    destruct (uriUnescaped c) eqn:Hu.
    + apply uriUnescaped_not_surrogate in Hu as [-> ->]. by eexists.
    + destruct (is_lead_surrogate c); [done |].
      destruct (is_trail_surrogate c); [done | by eexists].
  - split; [apply IH2 |]. intros c Hwf.
    change (well_formed (c :: a :: s))
      with (if is_lead_surrogate c then is_trail_surrogate a && well_formed s
            else negb (is_trail_surrogate c) && well_formed (a :: s)) in Hwf.
    change (encodeURIComponent (c :: a :: s))
      with (if uriUnescaped c then
              match encodeURIComponent (a :: s) with
              | Ok r => Ok (c :: r) | Throw e => Throw e end
            else if is_lead_surrogate c then
              if is_trail_surrogate a then
                match encodeURIComponent s with
                | Ok r => Ok (escape (code_point c a) ++ r) | Throw e => Throw e end
              else Throw URIError
            else if is_trail_surrogate c then Throw URIError
            else match encodeURIComponent (a :: s) with
                 | Ok r => Ok (escape c ++ r) | Throw e => Throw e end).
    destruct (uriUnescaped c) eqn:Hu.
    + apply uriUnescaped_not_surrogate in Hu as [Hl Ht]. rewrite Hl, Ht in Hwf.
      destruct (IH2 a) as [r ->]; [done | by eexists].
    + destruct (is_lead_surrogate c).
      * apply andb_true_iff in Hwf as [-> Hwf].
        destruct (IH1 Hwf) as [r ->]. by eexists.
      * apply andb_true_iff in Hwf as [Ht Hwf]. apply negb_true_iff in Ht as ->.
        destruct (IH2 a Hwf) as [r ->]. by eexists.
Qed.

(** C5, as the code has it.  With no message, [getWhatsAppLink] returns
    [https://wa.me/<handle>?text=<encoded default inquiry>] for the handle
    of the configuration it is called on, and so it does for the empty
    message.  For every supplied message that is not empty and has no
    unpaired surrogate, it returns
    [https://wa.me/<handle>?text=<percent-encoding of the message>]. *)
Theorem getWhatsAppLink_spec (cfg : config) (message : jsstring) :
  getWhatsAppLink cfg None
  = Ok (lit "https://wa.me/" ++ whatsapp (business cfg) ++ lit "?text="
        ++ lit "Hello%20KELAH%20Agrovet%2C%20I'd%20like%20to%20inquire%20about%20your%20services.")
  ∧ getWhatsAppLink cfg (Some []) = getWhatsAppLink cfg None
  ∧ (message ≠ [] → well_formed message = true →
     ∃ text, encodeURIComponent message = Ok text
             ∧ getWhatsAppLink cfg (Some message)
               = Ok (lit "https://wa.me/" ++ whatsapp (business cfg) ++ lit "?text=" ++ text)).
Proof.
  split; [reflexivity |]. split; [reflexivity |].
  intros Hne Hwf.
  destruct (proj1 (encodeURIComponent_well_formed message) Hwf) as [text Henc].
  exists text. split; [done |].
  unfold getWhatsAppLink; simpl.
  rewrite bool_decide_eq_false_2 by done. by rewrite Henc.
Qed.

Lemma getWhatsAppLink_spec_witness :
  getWhatsAppLink CONFIG (Some (lit "Do you stock dewormers?"))
  = Ok (lit "https://wa.me/254722784947?text=Do%20you%20stock%20dewormers%3F").
Proof.
  destruct (getWhatsAppLink_spec CONFIG (lit "Do you stock dewormers?"))
    as (_ & _ & H).
  destruct H as (text & Henc & ->); [done | reflexivity |].
  vm_compute in Henc. by simplify_eq.
Defined.

(** The explicitly supplied empty message is replaced by the default
    inquiry: the link is the one of a call without message, not the link
    whose text is the (empty) encoding of the message. *)
Lemma getWhatsAppLink_empty_message :
  getWhatsAppLink CONFIG (Some [])
  = Ok (lit "https://wa.me/254722784947?text=Hello%20KELAH%20Agrovet%2C%20I'd%20like%20to%20inquire%20about%20your%20services.")
  ∧ encodeURIComponent [] = Ok []
  ∧ getWhatsAppLink CONFIG (Some [])
    ≠ Ok (lit "https://wa.me/" ++ whatsapp (business CONFIG) ++ lit "?text=" ++ []).
Proof. split_and!; [reflexivity | reflexivity | by vm_compute]. Qed.

(** A message with an unpaired surrogate makes [encodeURIComponent], and
    so the builder, throw. *)
Lemma getWhatsAppLink_unpaired_surrogate :
  getWhatsAppLink CONFIG (Some (lit "hi" ++ [0xD83D]%N)) = Throw URIError.
Proof. reflexivity. Qed.

End ConfigFacts.

(** ** [KelahApp.showNotification] *)

Module NotificationFacts.
Import CONFIG KelahApp ListFacts TimersFacts.

(** What [showNotification] builds. *)
Lemma showNotification_unfold message type w :
  let ty := default (lit "info") type in
  let n := fresh (dom (heap (doc (st w)))) in
  let a := st w in
  showNotification message type w
  = World (now w)
      (Queue (S (next_id (timers w)))
         (pending (timers w)
            ++ [Timer (next_id (timers w)) (now w + 3000) (NotificationExit n)]))
      (App
         (Document
            (<[n := Node (lit "div") [] (tokens (lit "notification notification--" ++ ty))
                      None (list_to_map (cssText ty)) message []]> (heap (doc a)))
            (List.filter (λ x, negb (x =? n)) (tree (doc a)) ++ [n])
            (body_classList (doc a)) (body_style (doc a)))
         (DOM a) (state a) (console a) (listeners a) (scrollTo a) (uncaught a)).
Proof.
  intros ty n a. unfold showNotification, createElement, schedule, setTimeout,
    set_doc, set_app, appendChild, set_tree, set_heap; simpl.
  fold n. by rewrite alter_insert_eq.
Qed.

(** C9. The background of a notification is the green [#27AE60] if and
    only if its type is ['success'], and the red [#E74C3C] for every other
    type, the default ['info'] and ['error'] and ['warning'] among them,
    which therefore look the same. *)
Theorem showNotification_background message (type : option jsstring) (w : kworld) :
  let ty := default (lit "info") type in
  let n := fresh (dom (heap (doc (st w)))) in
  get_style (doc (st (showNotification message type w))) n (lit "background")
  = Some (background ty)
  ∧ (background ty = lit "#27AE60" ↔ ty = lit "success")
  ∧ (background ty = lit "#E74C3C" ↔ ty ≠ lit "success")
  ∧ background (lit "error") = lit "#E74C3C"
  ∧ background (lit "warning") = lit "#E74C3C"
  ∧ background (lit "info") = lit "#E74C3C".
Proof.
  intros ty n. split_and!; try reflexivity.
  - rewrite showNotification_unfold. unfold get_style; simpl.
    by rewrite lookup_insert_eq.
  - unfold background. case_bool_decide; split; done.
  - unfold background. case_bool_decide; split; done.
Qed.

Lemma rounds_pop t (w : kworld) tm q' :
  pop_due t (timers w) = Some (tm, q') →
  sum_list_with (λ tm, weight (cb tm)) (pending q') + weight (cb tm) = rounds w.
Proof.
  intros (_ & _ & l1 & l2 & Hq & Hq' & _)%pop_due_Some.
  unfold rounds. rewrite Hq, Hq', !sum_list_with_app; simpl. lia.
Qed.

Lemma rounds_bound (w : kworld) : rounds w < S (2 * length (pending (timers w))).
Proof.
  unfold rounds. induction (pending (timers w)) as [|tm l IH]; simpl; [lia |].
  destruct (cb tm); simpl; lia.
Qed.

Lemma about_schedule n c delay (w : kworld) :
  about n (timers (schedule c delay w))
  = about n (timers w)
      ++ (if notification_of c =? n then [(now w + delay, c)] else []).
Proof. apply concerning_setTimeout. Qed.

Lemma phase_exit n E nw d (P : Prop) a1 a2 :
  phase n E nw P (a1 ++ [(d, NotificationExit n)] ++ a2) →
  phase n E (nw `max` d) P ((a1 ++ a2) ++ [(nw `max` d + 300, NotificationRemove n)]).
Proof.
  intros [(Hnow & HP & Hab)|[(Hnow & HP & Hab)|(Hnow & HP & Hab)]].
  - apply singleton_split in Hab as (? & -> & ->); simplify_eq.
    right; left. split_and!; [lia | done |]. simpl. do 2 f_equal. lia.
  - apply singleton_split in Hab as (? & _); simplify_eq.
  - by destruct a1.
Qed.

Lemma phase_remove n E nw d (P P' : Prop) a1 a2 :
  ¬ P' →
  phase n E nw P (a1 ++ [(d, NotificationRemove n)] ++ a2) →
  phase n E (nw `max` d) P' (a1 ++ a2).
Proof.
  intros HP' [(Hnow & HP & Hab)|[(Hnow & HP & Hab)|(Hnow & HP & Hab)]].
  - apply singleton_split in Hab as (? & _); simplify_eq.
  - apply singleton_split in Hab as (? & -> & ->); simplify_eq.
    right; right. split_and!; [lia | done | done].
  - by destruct a1.
Qed.

Lemma phase_other n E nw d (P P' : Prop) ab :
  (P ↔ P') → (∀ d' c, (d', c) ∈ ab → d ≤ d') →
  phase n E nw P ab → phase n E (nw `max` d) P' ab.
Proof.
  intros HP Hmin [(Hnow & HP1 & ->)|[(Hnow & HP1 & ->)|(Hnow & HP1 & ->)]].
  - left. split_and!; [| tauto | done].
    specialize (Hmin _ _ (list_elem_of_here _ _)). lia.
  - right; left. split_and!; [| tauto | done].
    specialize (Hmin _ _ (list_elem_of_here _ _)). lia.
  - right; right. split_and!; [lia | tauto | done].
Qed.

(** A timer body keeps the phase of [n] or moves it to the next one. *)
Lemma lifecycle_fire n E t (w : kworld) tm q' :
  lifecycle n E w → pop_due t (timers w) = Some (tm, q') →
  lifecycle n E (fire (cb tm) (World (now w `max` due tm) q' (st w))).
Proof.
  intros [Hdom Hph] Hpop.
  destruct (concerning_pop notification_of n t _ tm q' Hpop)
    as (Hdue & Hmin & a1 & a2 & Hq' & Hq).
  rewrite Hq in Hph.
  split.
  { destruct (cb tm); simpl; [| done].
    unfold set_style, set_heap; simpl. by rewrite dom_alter_L. }
  destruct (cb tm) as [m|m] eqn:Hcb; simpl in Hph, Hq; unfold fire.
  - rewrite about_schedule; simpl. rewrite Hq'.
    destruct (Nat.eqb_spec m n) as [->|Hne].
    + by apply phase_exit.
    + rewrite app_nil_r. apply phase_other with (P := n ∈ tree (doc (st w))); [done | |done].
      intros d' c Hin. apply (Hmin d' c). by rewrite Hq.
  - simpl. rewrite Hq'. unfold remove, set_tree; simpl.
    destruct (Nat.eqb_spec m n) as [->|Hne].
    + eapply phase_remove; [| done]. rewrite elem_of_filter_neq. by intros [_ ?].
    + apply phase_other with (P := n ∈ tree (doc (st w))); [| | done].
      * rewrite elem_of_filter_neq. split; [by intros ? | by intros [? _]].
      * intros d' c Hin. apply (Hmin d' c). by rewrite Hq.
Qed.

Lemma lifecycle_clock n E t (w : kworld) :
  lifecycle n E w → settled t (timers w) →
  lifecycle n E (World (now w `max` t) (timers w) (st w)).
Proof.
  intros [Hdom Hph] Hs. split; [done |]. simpl.
  apply phase_other with (P := n ∈ tree (doc (st w))); [done | | done].
  intros d' c Hin. pose proof (concerning_settled _ _ _ _ _ _ Hs Hin). lia.
Qed.

Lemma rounds_fire t (w : kworld) tm q' :
  pop_due t (timers w) = Some (tm, q') →
  rounds (fire (cb tm) (World (now w `max` due tm) q' (st w))) < rounds w.
Proof.
  intros Hpop. rewrite <- (rounds_pop t w tm q' Hpop).
  unfold rounds. destruct (cb tm); simpl; [| lia].
  rewrite sum_list_with_app; simpl. lia.
Qed.

(** Running the loop keeps the phases, and leaves no timer due. *)
Lemma lifecycle_advance n E t (w : kworld) :
  lifecycle n E w →
  lifecycle n E (advance t w) ∧ settled t (timers (advance t w)).
Proof.
  intros Hl.
  destruct (run_invariant fire t (lifecycle n E) rounds) with
    (fuel := S (2 * length (pending (timers w)))) (w := w) as (H1 & H2 & _).
  - intros w' tm q' HI Hpop. split; [by eapply lifecycle_fire | by apply (rounds_fire t)].
  - intros w' HI Hpop. apply lifecycle_clock; [done | by apply pop_due_None].
  - apply rounds_bound.
  - done.
  - done.
Qed.

Lemma lifecycle_gone n E t (w : kworld) :
  lifecycle n E w → settled t (timers w) → E + 300 ≤ t →
  n ∉ tree (doc (st w)).
Proof.
  intros [_ [(_ & _ & Hab)|[(_ & _ & Hab)|(_ & Hout & _)]]] Hs Ht; [| | done].
  all: assert ((λ p, p ∈ about n (timers w)) (E, NotificationExit n)
               ∨ (λ p, p ∈ about n (timers w)) (E + 300, NotificationRemove n)) as [Hin|Hin]
         by (rewrite Hab; simpl; eauto using list_elem_of_here).
  all: pose proof (concerning_settled _ _ _ _ _ _ Hs Hin); lia.
Qed.

Lemma lifecycle_shown n E (w : kworld) :
  lifecycle n E w → now w < E + 300 → n ∈ tree (doc (st w)).
Proof.
  intros [_ [(_ & Hin & _)|[(_ & Hin & _)|(Hnow & _ & _)]]] Hlt; [done | done | lia].
Qed.

Lemma same_frame_refl (w : kworld) : same_frame w w.
Proof. done. Qed.

Lemma same_frame_trans (w1 w2 w3 : kworld) :
  same_frame w1 w2 → same_frame w2 w3 → same_frame w1 w3.
Proof. unfold same_frame. intros (-> & -> & -> & ->) (-> & -> & -> & ->). done. Qed.

Lemma toggleMobileMenu_frame (w : kworld) : same_frame w (toggleMobileMenu w).1.
Proof.
  unfold toggleMobileMenu, toggle_class, mbind, M_bind, modify, gets, throw; simpl.
  destruct (headerActions (DOM (st w))); simpl; [| done].
  destruct (menuToggle (DOM (st w))); simpl.
  all: unfold same_frame, classList_toggle, set_heap; simpl; by rewrite ?dom_alter_L.
Qed.

Lemma visit_section_frame win s (w : kworld) : same_frame w (visit_section win s w).
Proof. unfold visit_section. by repeat case_match. Qed.

Lemma run_handler_frame cfg win target currentTarget h (w : kworld) :
  same_frame w (run_handler cfg win target currentTarget h w).1.
Proof.
  destruct h; simpl.
  - apply toggleMobileMenu_frame.
  - done.
  - unfold handleWhatsAppClick, mbind, M_bind, modify, gets, throw; simpl.
    destruct (getWhatsAppLink _ _); simpl; [| done].
    unfold same_frame, set_heap; simpl. by rewrite dom_alter_L.
  - unfold headerLinkClick, mbind, M_bind, gets, when; simpl.
    destruct (is_open w); [apply toggleMobileMenu_frame | done].
  - unfold handleResize, mbind, M_bind, gets, when; simpl.
    destruct (_ && _); [apply toggleMobileMenu_frame | done].
  - unfold handleScroll; simpl.
    repeat (eapply same_frame_trans; [| apply visit_section_frame]). done.
  - unfold handleProductClick, smoothScrollTo; simpl. by case_match.
Qed.

Lemma invoke_frame cfg win target (w : kworld) l :
  same_frame w (invoke cfg win target w l).
Proof.
  unfold invoke.
  pose proof (run_handler_frame cfg win target (default target (on l))
                (listener_handler l) w) as H.
  by destruct (run_handler _ _ _ _ _ w) as [w' []].
Qed.

Lemma foldl_invoke_frame cfg win target ls : ∀ w : kworld,
  same_frame w (foldl (invoke cfg win target) w ls).
Proof.
  induction ls as [|l ls IH]; intros w; [done |]. simpl.
  eapply same_frame_trans; [apply invoke_frame | apply IH].
Qed.

Lemma lifecycle_frame n E (w w' : kworld) :
  same_frame w w' → lifecycle n E w → lifecycle n E w'.
Proof. unfold lifecycle. by intros (-> & -> & -> & ->). Qed.

(** Another notification leaves the phase of [n] alone. *)
Lemma lifecycle_showNotification n E message type (w : kworld) :
  lifecycle n E w → lifecycle n E (showNotification message type w).
Proof.
  intros [Hdom Hph]. rewrite showNotification_unfold.
  set (m := fresh (dom (heap (doc (st w))))).
  assert (m ≠ n) as Hne.
  { intros Heq. apply (is_fresh (dom (heap (doc (st w))))). fold m. by rewrite Heq. }
  split; simpl.
  - rewrite dom_insert_L. set_solver.
  - rewrite (concerning_app _ n _ (next_id (timers w))), (concerning_cons _ n _ 0); simpl.
    destruct (Nat.eqb_spec m n); [done |]. simpl.
    replace (about n (Queue (next_id (timers w)) (pending (timers w))))
      with (about n (timers w)) by by destruct (timers w).
    rewrite app_nil_r.
    replace (now w) with (now w `max` 0) by lia.
    apply phase_other with (P := n ∈ tree (doc (st w))); [| intros; lia | done].
    rewrite elem_of_app, elem_of_filter_neq, list_elem_of_singleton.
    split; [by left | intros [[? _]|?]; [done | congruence]].
Qed.

Lemma lifecycle_handle n E cfg win e (w : kworld) :
  lifecycle n E w → lifecycle n E (handle cfg win e w).
Proof.
  destruct e; simpl; try (apply lifecycle_frame, foldl_invoke_frame).
  apply lifecycle_showNotification.
Qed.

Lemma lifecycle_play n E cfg evs : ∀ w : kworld,
  lifecycle n E w → lifecycle n E (play cfg evs w).
Proof.
  induction evs as [|x evs IH]; intros w Hl; [done |].
  apply IH. unfold step. by apply lifecycle_handle, lifecycle_advance.
Qed.

(** A call of [showNotification] starts the life of a new element. *)
Lemma showNotification_starts message type (w : kworld) :
  well_formed_world w →
  lifecycle (fresh (dom (heap (doc (st w))))) (now w + 3000)
    (showNotification message type w).
Proof.
  intros [Htree Htimers]. rewrite showNotification_unfold.
  set (n := fresh (dom (heap (doc (st w))))).
  assert (n ∉ dom (heap (doc (st w)))) as Hfresh by apply is_fresh.
  split; simpl.
  - rewrite dom_insert_L. set_solver.
  - left. split_and!; [lia | |].
    + rewrite elem_of_app, list_elem_of_singleton. by right.
    + rewrite (concerning_app _ n _ 0), (concerning_cons _ n _ 0); simpl.
      rewrite Nat.eqb_refl.
      replace (about n (Queue 0 (pending (timers w)))) with ([] : list (nat * callback)); [done |].
      symmetry. unfold concerning, schedule_of; simpl.
      induction (pending (timers w)) as [|tm l IH]; [done |]. simpl.
      destruct (Nat.eqb_spec (notification_of (cb tm)) n) as [Heq|_].
      * exfalso. apply Hfresh. rewrite <- Heq. apply Htimers, list_elem_of_here.
      * apply IH. intros tm' Hin. by apply Htimers, list_elem_of_further.
Qed.

(** *** Well-formed worlds

    The hypothesis of the life-cycle theorem holds when a page is loaded
    and is kept by everything that happens afterwards. *)

Lemma well_formed_load (d : document) t0 :
  (∀ n, n ∈ tree d → n ∈ dom (heap d)) → well_formed_world (load d t0).
Proof. intros Hd. split; [done |]. by intros tm ?%elem_of_nil. Qed.

Lemma well_formed_frame (w w' : kworld) :
  same_frame w w' → well_formed_world w → well_formed_world w'.
Proof. unfold well_formed_world. by intros (_ & -> & -> & ->). Qed.

Lemma well_formed_showNotification message type (w : kworld) :
  well_formed_world w → well_formed_world (showNotification message type w).
Proof.
  intros [Htree Htimers]. rewrite showNotification_unfold.
  split; simpl; intros x; rewrite dom_insert_L, elem_of_app.
  - rewrite elem_of_filter_neq, list_elem_of_singleton.
    intros [[? _]| ->]; [| set_solver]. apply elem_of_union_r. by apply Htree.
  - rewrite list_elem_of_singleton. intros [?| ->]; [| set_solver].
    apply elem_of_union_r. by apply Htimers.
Qed.

Lemma well_formed_fire t (w : kworld) tm q' :
  well_formed_world w → pop_due t (timers w) = Some (tm, q') →
  well_formed_world (fire (cb tm) (World (now w `max` due tm) q' (st w))).
Proof.
  intros [Htree Htimers] (_ & _ & l1 & l2 & Hq & Hq' & _)%pop_due_Some.
  assert (∀ x, x ∈ pending q' → x ∈ pending (timers w)) as Hsub.
  { intros x. rewrite Hq, Hq', !elem_of_app, elem_of_cons. tauto. }
  assert (tm ∈ pending (timers w)) as Htm.
  { rewrite Hq, elem_of_app, elem_of_cons. tauto. }
  destruct (cb tm) as [m|m] eqn:Hcb; unfold fire.
  - split; simpl; unfold set_style, set_heap; simpl; intros x; rewrite dom_alter_L.
    + apply Htree.
    + rewrite elem_of_app, list_elem_of_singleton. intros [?| ->]; [auto |].
      simpl. specialize (Htimers _ Htm). by rewrite Hcb in Htimers.
  - split; simpl; intros x.
    + rewrite elem_of_filter_neq. intros [? _]. by apply Htree.
    + auto.
Qed.

Lemma well_formed_advance t (w : kworld) :
  well_formed_world w → well_formed_world (advance t w).
Proof.
  intros Hw.
  destruct (run_invariant fire t well_formed_world rounds) with
    (fuel := S (2 * length (pending (timers w)))) (w := w) as (H1 & _).
  - intros w' tm q' HI Hpop. split; [by eapply well_formed_fire | by apply (rounds_fire t)].
  - by intros w' HI _.
  - apply rounds_bound.
  - done.
  - done.
Qed.

Lemma well_formed_play cfg evs : ∀ w : kworld,
  well_formed_world w → well_formed_world (play cfg evs w).
Proof.
  induction evs as [|[[t win] e] evs IH]; intros w Hw; [done |].
  apply IH. unfold step; simpl. apply well_formed_advance with (t := t) in Hw.
  destruct e; simpl;
    try (eapply well_formed_frame; [apply foldl_invoke_frame | done]).
  by apply well_formed_showNotification.
Qed.

(** C7. Every call of [showNotification(message, type)] puts exactly one
    new element into the document, as the last child of [body], whose
    text is [message] and whose background is the fixed green [#27AE60]
    when the type is ['success'].  Whatever happens next (clicks, resize
    and scroll handling, further notifications), the element is in the
    document at every time before 3000 + 300 ms have passed since the call,
    and in no document reached at or after that time.  (The hypothesis is
    the invariant [well_formed_world] of every state the application
    reaches.) *)
Theorem showNotification_lifecycle cfg message type (w : kworld) evs :
  well_formed_world w →
  let n := fresh (dom (heap (doc (st w)))) in
  let w1 := showNotification message type w in
  (n ∉ tree (doc (st w)))
  ∧ tree (doc (st w1)) = tree (doc (st w)) ++ [n]
  ∧ textContent <$> heap (doc (st w1)) !! n = Some message
  ∧ (type = Some (lit "success") →
     get_style (doc (st w1)) n (lit "background") = Some (lit "#27AE60"))
  ∧ (∀ t, now (advance t (play cfg evs w1)) < now w + 3300 →
          n ∈ tree (doc (st (advance t (play cfg evs w1)))))
  ∧ (∀ t, now w + 3300 ≤ t →
          n ∉ tree (doc (st (advance t (play cfg evs w1))))).
Proof.
  intros Hwf n w1.
  assert (n ∉ tree (doc (st w))) as Hnew.
  { intros Hin. apply (is_fresh (dom (heap (doc (st w))))). by apply Hwf. }
  assert (∀ t, lifecycle n (now w + 3000) (advance t (play cfg evs w1))
               ∧ settled t (timers (advance t (play cfg evs w1)))) as Hlife.
  { intros t. apply lifecycle_advance, lifecycle_play.
    by apply showNotification_starts. }
  split_and!.
  - done.
  - unfold w1. rewrite showNotification_unfold; simpl. by rewrite filter_neq_id.
  - unfold w1. rewrite showNotification_unfold; simpl. by rewrite lookup_insert_eq.
  - intros ->. unfold w1. rewrite showNotification_unfold. unfold get_style; simpl.
    by rewrite lookup_insert_eq.
  - intros t Ht. destruct (Hlife t) as [Hl _].
    apply (lifecycle_shown n (now w + 3000)); [done | lia].
  - intros t Ht. destruct (Hlife t) as [Hl Hs].
    apply (lifecycle_gone n (now w + 3000) t); [done | done | lia].
Qed.

Lemma showNotification_lifecycle_witness :
  let w := load (Document ∅ [] [] ∅) 0 in
  let n := fresh (dom (heap (doc (st w)))) in
  let w1 := showNotification (lit "Order received") (Some (lit "success")) w in
  tree (doc (st w1)) = [n]
  ∧ get_style (doc (st w1)) n (lit "background") = Some (lit "#27AE60")
  ∧ n ∈ tree (doc (st (advance 3299 w1)))
  ∧ n ∉ tree (doc (st (advance 3300 w1))).
Proof.
  intros w n w1.
  destruct (showNotification_lifecycle CONFIG (lit "Order received")
              (Some (lit "success")) w []) as (_ & H1 & _ & H2 & H3 & H4).
  { apply well_formed_load. by intros x ?%elem_of_nil. }
  split_and!.
  - exact H1.
  - by apply H2.
  - apply (H3 3299). vm_compute. lia.
  - apply (H4 3300). vm_compute. lia.
Defined.

End NotificationFacts.

(** ** [KelahApp.init] *)

Module InitFacts.
Import CONFIG KelahApp.

(** C8. Whatever a step of the [try] block of [init] throws, [init]
    itself returns normally: the exception is caught by the one
    [catch], logged as ["[KELAH Error] Initialization failed"] together
    with the exception, and the steps after the throwing one do not run,
    the state being the one at the throw plus the log entry.  When no
    step throws, the loading class is removed and success is logged. *)
Theorem init_catches
    (cacheDOMElements' initEventListeners' Animations_init
     updateContactLinks lazyLoadImages' : M kworld ())
    (cfg : config) (w : kworld) :
  let result :=
    init cacheDOMElements' initEventListeners' Animations_init
      updateContactLinks lazyLoadImages' cfg w in
  result.2 = Ok ()
  ∧ (∀ e w1,
       cacheDOMElements' w = (w1, Throw e) →
       result = (logged e w1, Ok ()))
  ∧ (∀ e w1 w2,
       cacheDOMElements' w = (w1, Ok ()) →
       initEventListeners' w1 = (w2, Throw e) →
       result = (logged e w2, Ok ()))
  ∧ (∀ e w1 w2 w3,
       cacheDOMElements' w = (w1, Ok ()) →
       initEventListeners' w1 = (w2, Ok ()) →
       Animations_init w2 = (w3, Throw e) →
       result = (logged e w3, Ok ()))
  ∧ (∀ e w1 w2 w3 w4,
       cacheDOMElements' w = (w1, Ok ()) →
       initEventListeners' w1 = (w2, Ok ()) →
       Animations_init w2 = (w3, Ok ()) →
       updateContactLinks w3 = (w4, Throw e) →
       result = (logged e w4, Ok ()))
  ∧ (∀ e w1 w2 w3 w4 w5,
       cacheDOMElements' w = (w1, Ok ()) →
       initEventListeners' w1 = (w2, Ok ()) →
       Animations_init w2 = (w3, Ok ()) →
       updateContactLinks w3 = (w4, Ok ()) →
       lazyLoadImages cfg = true →
       lazyLoadImages' w4 = (w5, Throw e) →
       result = (logged e w5, Ok ()))
  ∧ (∀ w1 w2 w3 w4 w5,
       cacheDOMElements' w = (w1, Ok ()) →
       initEventListeners' w1 = (w2, Ok ()) →
       Animations_init w2 = (w3, Ok ()) →
       updateContactLinks w3 = (w4, Ok ()) →
       (if lazyLoadImages cfg then lazyLoadImages' w4 else (w4, Ok ())) = (w5, Ok ()) →
       result = (loaded w5, Ok ())).
Proof.
  intros result. unfold result. split_and!.
  - run_init.
    destruct (cacheDOMElements' w) as [w1 [[]|e]]; [| done].
    destruct (initEventListeners' w1) as [w2 [[]|e]]; [| done].
    destruct (Animations_init w2) as [w3 [[]|e]]; [| done].
    destruct (updateContactLinks w3) as [w4 [[]|e]]; [| done].
    destruct (lazyLoadImages cfg); [| done].
    by destruct (lazyLoadImages' w4) as [w5 [[]|e]].
  - intros e w1 H1. run_init. by rewrite H1.
  - intros e w1 w2 H1 H2. run_init. by rewrite H1, H2.
  - intros e w1 w2 w3 H1 H2 H3. run_init. by rewrite H1, H2, H3.
  - intros e w1 w2 w3 w4 H1 H2 H3 H4. run_init. by rewrite H1, H2, H3, H4.
  - intros e w1 w2 w3 w4 w5 H1 H2 H3 H4 Hl H5. run_init.
    by rewrite H1, H2, H3, H4, Hl, H5.
  - intros w1 w2 w3 w4 w5 H1 H2 H3 H4 H5. run_init.
    rewrite H1, H2, H3, H4.
    destruct (lazyLoadImages cfg); [by rewrite H5 | by simplify_eq].
Qed.

(** A page whose browser has no [IntersectionObserver]: the animation
    setup throws, the rest of the block is skipped, the page keeps its
    loading class and the error is in the console. *)
Lemma init_catches_witness :
  let page := Document ∅ [] [lit "loading"] ∅ in
  let unsupported : M kworld () := throw (ReferenceError "IntersectionObserver") in
  let r := init cacheDOMElements initEventListeners unsupported (mret ()) (mret ())
             CONFIG (load page 0) in
  r.2 = Ok ()
  ∧ console (st r.1)
    = [ConsoleError (lit "[KELAH Error] Initialization failed")
         (Some (ReferenceError "IntersectionObserver"))]
  ∧ body_classList (doc (st r.1)) = [lit "loading"].
Proof.
  intros page unsupported r.
  destruct (init_catches cacheDOMElements initEventListeners unsupported
              (mret ()) (mret ()) CONFIG (load page 0)) as (H1 & _ & _ & H4 & _).
  split; [exact H1 |].
  unfold r. erewrite H4; [| reflexivity | reflexivity | reflexivity].
  split; reflexivity.
Defined.

End InitFacts.

(** ** The mobile menu *)

Module MenuFacts.
Import CONFIG KelahApp Pages.

Lemma toggleMobileMenu_ok (w : kworld) ha mt :
  headerActions (DOM (st w)) = Some ha →
  menuToggle (DOM (st w)) = Some mt →
  toggleMobileMenu w
  = (set_doc (set_overflow (if negb (is_open w) then lit "hidden" else lit "auto"))
       (set_doc (classList_toggle mt (lit "active"))
          (set_doc (classList_toggle ha (lit "active"))
             (set_state (λ s, AppState (negb (mobileMenuOpen s)) (currentSection s)) w))),
     Ok ()).
Proof.
  intros Hha Hmt.
  unfold toggleMobileMenu, toggle_class, mbind, M_bind, modify, gets; simpl.
  rewrite Hha; simpl. rewrite Hmt; simpl. done.
Qed.

(** The flag is flipped first, whatever happens next. *)
Lemma toggleMobileMenu_flips (w : kworld) :
  is_open (toggleMobileMenu w).1 = negb (is_open w).
Proof.
  unfold toggleMobileMenu, toggle_class, mbind, M_bind, modify, gets, throw; simpl.
  destruct (headerActions (DOM (st w))); simpl; [| done].
  destruct (menuToggle (DOM (st w))); simpl; done.
Qed.

Lemma visit_section_is_open win s (w : kworld) :
  is_open (visit_section win s w) = is_open w.
Proof. unfold visit_section. by repeat case_match. Qed.

(** Which runs of a handler change the flag. *)
Lemma run_handler_is_open cfg win target currentTarget h (w : kworld) :
  is_open (run_handler cfg win target currentTarget h w).1 ≠ is_open w →
  h = ToggleMobileMenu
  ∨ (h = HandleResize ∧ mobile (breakpoints cfg) ≤ innerWidth win ∧ is_open w = true)
  ∨ (h = HeaderLinkClick ∧ is_open w = true).
Proof.
  destruct h; simpl; intros Hch.
  - by left.
  - done.
  - exfalso. apply Hch.
    unfold handleWhatsAppClick, mbind, M_bind, modify, gets, throw; simpl.
    by destruct (getWhatsAppLink _ _).
  - right; right. split; [done |].
    destruct (is_open w) eqn:Ho; [done |]. exfalso. apply Hch.
    unfold headerLinkClick, mbind, M_bind, gets, when. by rewrite Ho.
  - right; left. split; [done |].
    destruct (Nat.leb_spec (mobile (breakpoints cfg)) (innerWidth win)) as [Hw|Hw];
      [destruct (is_open w) eqn:Ho; [done |] |]; exfalso; apply Hch;
      unfold handleResize, mbind, M_bind, gets, when.
    + by rewrite Ho, andb_false_r.
    + apply Nat.leb_gt in Hw. by rewrite Hw.
  - exfalso. apply Hch. unfold handleScroll; simpl.
    by rewrite !visit_section_is_open.
  - exfalso. apply Hch. unfold handleProductClick, smoothScrollTo; cbn [fst].
    by destruct (querySelector _ _).
Qed.

Lemma listen_each_spec els h : ∀ w : kworld,
  listeners (st (listen_each els h w))
  = listeners (st w) ++ ((λ el, Listener (Some el) click h) <$> els)
  ∧ doc (st (listen_each els h w)) = doc (st w)
  ∧ DOM (st (listen_each els h w)) = DOM (st w)
  ∧ scrollTo (st (listen_each els h w)) = scrollTo (st w).
Proof.
  unfold listen_each. induction els as [|el els IH]; intros w.
  - by rewrite app_nil_r.
  - cbn [foldl]. destruct (IH (addEventListener (Listener (Some el) click h) w))
      as (-> & -> & -> & ->).
    split_and!; [| done | done | done]. cbn. by rewrite <- app_assoc.
Qed.

(** Each link in an element of class [header__actions] gets the
    listener that closes the menu. *)
Lemma wired_header_links (d : document) (t0 link : nat) :
  link ∈ querySelectorAll d
           (SelDescendant (SelClass (lit "header__actions")) (SelTag (lit "a"))) →
  Listener (Some link) click HeaderLinkClick
  ∈ listeners (st (initEventListeners (cacheDOMElements (load d t0)).1).1).
Proof.
  intros Hlink. unfold initEventListeners. cbv zeta. cbn [fst].
  set (w0 := (cacheDOMElements (load d t0)).1).
  set (w1 := match menuToggle (DOM (st w0)) with
             | Some el => addEventListener (Listener (Some el) click ToggleMobileMenu) w0
             | None => w0
             end).
  assert (doc (st w1) = d) as Hd1 by (unfold w1; by destruct (menuToggle (DOM (st w0)))).
  set (w2 := listen_each (phoneBtns (DOM (st w1))) HandlePhoneClick w1).
  destruct (listen_each_spec (phoneBtns (DOM (st w1))) HandlePhoneClick w1)
    as (_ & Hd2 & _). fold w2 in Hd2.
  set (w3 := listen_each (whatsappBtns (DOM (st w2))) HandleWhatsAppClick w2).
  destruct (listen_each_spec (whatsappBtns (DOM (st w2))) HandleWhatsAppClick w2)
    as (_ & Hd3 & _). fold w3 in Hd3.
  set (links := querySelectorAll (doc (st w3)) _).
  assert (link ∈ links) as Hin by (unfold links; by rewrite Hd3, Hd2, Hd1).
  set (w4 := listen_each links HeaderLinkClick w3).
  destruct (listen_each_spec links HeaderLinkClick w3) as (Hl4 & _). fold w4 in Hl4.
  set (w5 := addEventListener (Listener None scroll HandleScroll)
               (addEventListener (Listener None resize HandleResize) w4)).
  destruct (listen_each_spec
              (querySelectorAll (doc (st w5)) (SelClass (lit "product-category")))
              HandleProductClick w5) as (-> & _).
  apply elem_of_app. left. cbn. rewrite Hl4.
  rewrite !elem_of_app. left; left; right.
  apply list_elem_of_fmap. by exists link.
Qed.

(** What the click listeners do to the flag. *)
Lemma invoke_is_open cfg win target (w : kworld) l :
  is_open (invoke cfg win target w l)
  = is_open (run_handler cfg win target (default target (on l)) (listener_handler l) w).1.
Proof. unfold invoke. by destruct (run_handler _ _ _ _ _ w) as [w' []]. Qed.

Lemma invoke_stays_closed cfg win target (w : kworld) l :
  listener_handler l ≠ ToggleMobileMenu →
  is_open w = false → is_open (invoke cfg win target w l) = false.
Proof.
  intros Hh Hclosed. rewrite invoke_is_open.
  destruct (decide (is_open (run_handler cfg win target (default target (on l))
                               (listener_handler l) w).1 = is_open w)) as [->|Hch];
    [done |].
  apply run_handler_is_open in Hch as [?|[(_ & _ & ?)|[_ ?]]]; congruence.
Qed.

Lemma headerLinkClick_closes (w : kworld) : is_open (headerLinkClick w).1 = false.
Proof.
  unfold headerLinkClick, mbind, M_bind, gets, when. cbn [fst snd].
  destruct (is_open w) eqn:Ho; [| done].
  by rewrite toggleMobileMenu_flips, Ho.
Qed.

Lemma foldl_invoke_closes cfg win target ls : ∀ w : kworld,
  Forall (λ l, listener_handler l ≠ ToggleMobileMenu) ls →
  is_open w = false ∨ (∃ l, l ∈ ls ∧ listener_handler l = HeaderLinkClick) →
  is_open (foldl (invoke cfg win target) w ls) = false.
Proof.
  induction ls as [|l ls IH]; intros w Hno Hor.
  - destruct Hor as [?|(l & Hin & _)]; [done | by apply elem_of_nil in Hin].
  - apply Forall_cons in Hno as [Hl Hno]. cbn [foldl].
    apply IH; [done |].
    destruct Hor as [Hclosed|(l0 & Hin & Hh)].
    + left. by apply invoke_stays_closed.
    + apply elem_of_cons in Hin as [->|Hin]; [| right; by exists l0].
      left. rewrite invoke_is_open, Hh. apply headerLinkClick_closes.
Qed.

(** C4, as the code has it.  With the two elements of the menu present
    and the menu closed: one toggle opens it and locks the scroll of
    [body]; a second toggle closes it and unlocks the scroll; while it is
    open, the resize handler at a width at or above the mobile breakpoint
    closes it, and so does the click listener which [initEventListeners]
    registers on every link matched by [.header__actions a]: a click on
    such a link leaves the menu closed unless it also reaches a listener
    that toggles, that of the menu button.  No other run of a handler, no
    timer and no notification changes whether the menu is open. *)
Theorem mobile_menu_machine cfg (w : kworld) ha mt :
  headerActions (DOM (st w)) = Some ha →
  menuToggle (DOM (st w)) = Some mt →
  is_open w = false →
  let w1 := (toggleMobileMenu w).1 in
  let w2 := (toggleMobileMenu w1).1 in
  ((toggleMobileMenu w).2 = Ok ()
   ∧ is_open w1 = true ∧ overflow w1 = Some (lit "hidden"))
  ∧ ((toggleMobileMenu w1).2 = Ok ()
     ∧ is_open w2 = false ∧ overflow w2 = Some (lit "auto"))
  ∧ (∀ win, mobile (breakpoints cfg) ≤ innerWidth win →
       (handleResize cfg win w1).2 = Ok ()
       ∧ is_open (handleResize cfg win w1).1 = false
       ∧ overflow (handleResize cfg win w1).1 = Some (lit "auto"))
  ∧ ((headerLinkClick w1).2 = Ok ()
     ∧ is_open (headerLinkClick w1).1 = false
     ∧ overflow (headerLinkClick w1).1 = Some (lit "auto"))
  ∧ (∀ win target currentTarget h (w' : kworld),
       is_open (run_handler cfg win target currentTarget h w').1 ≠ is_open w' →
       h = ToggleMobileMenu
       ∨ (h = HandleResize ∧ mobile (breakpoints cfg) ≤ innerWidth win
          ∧ is_open w' = true)
       ∨ (h = HeaderLinkClick ∧ is_open w' = true))
  ∧ (∀ c (w' : kworld), is_open (fire c w') = is_open w')
  ∧ (∀ message type (w' : kworld),
       is_open (showNotification message type w') = is_open w')
  ∧ (∀ (d : document) t0 link,
       link ∈ querySelectorAll d
                (SelDescendant (SelClass (lit "header__actions")) (SelTag (lit "a"))) →
       Listener (Some link) click HeaderLinkClick
       ∈ listeners (st (initEventListeners (cacheDOMElements (load d t0)).1).1))
  ∧ (∀ win link (w' : kworld),
       Listener (Some link) click HeaderLinkClick ∈ listeners (st w') →
       Forall (λ l, listener_handler l ≠ ToggleMobileMenu) (Handlers.reached link w') →
       is_open (dispatch_click cfg win link w') = false).
Proof.
  intros Hha Hmt Hclosed w1 w2.
  assert (headerActions (DOM (st w1)) = Some ha ∧ menuToggle (DOM (st w1)) = Some mt
          ∧ is_open w1 = true ∧ (toggleMobileMenu w).2 = Ok ()
          ∧ overflow w1 = Some (lit "hidden")) as (Hha1 & Hmt1 & Hopen1 & Hok1 & Hov1).
  { unfold w1. rewrite (toggleMobileMenu_ok w ha mt) by done.
    unfold is_open in *; simpl. rewrite Hclosed. split_and!; try done.
    unfold overflow; simpl. by rewrite lookup_insert_eq. }
  assert ((toggleMobileMenu w1).2 = Ok () ∧ is_open w2 = false
          ∧ overflow w2 = Some (lit "auto")) as Hsecond.
  { unfold w2. rewrite (toggleMobileMenu_ok w1 ha mt) by done.
    unfold is_open in *; simpl. rewrite Hopen1. split_and!; try done.
    unfold overflow; simpl. by rewrite lookup_insert_eq. }
  split; [done |]. split; [exact Hsecond |].
  split; [| split; [| split; [| split; [| split; [| split]]]]].
  - intros win Hwide.
    unfold handleResize, mbind, M_bind, gets, when.
    rewrite Hopen1. apply Nat.leb_le in Hwide. rewrite Hwide. exact Hsecond.
  - unfold headerLinkClick, mbind, M_bind, gets, when.
    rewrite Hopen1. exact Hsecond.
  - intros win target currentTarget h w'. apply run_handler_is_open.
  - by intros [].
  - done.
  - intros d t0 link. apply wired_header_links.
  - intros win link w' Hreg Hno.
    change (dispatch_click cfg win link w')
      with (foldl (invoke cfg win link) w' (Handlers.reached link w')).
    apply foldl_invoke_closes; [done |]. right.
    exists (Listener (Some link) click HeaderLinkClick). split; [| done].
    unfold Handlers.reached. cbn [mbind list_bind]. apply elem_of_app. left.
    unfold listeners_for. apply list_elem_of_In, filter_In.
    split; [by apply list_elem_of_In |]. cbn.
    by rewrite !bool_decide_eq_true_2.
Qed.

Lemma mobile_menu_machine_witness :
  let w := (cacheDOMElements (load header_page 0)).1 in
  is_open (toggleMobileMenu w).1 = true
  ∧ overflow (toggleMobileMenu w).1 = Some (lit "hidden")
  ∧ is_open (handleResize CONFIG desktop (toggleMobileMenu w).1).1 = false
  ∧ is_open (dispatch_click CONFIG phone 3
               (dispatch_click CONFIG phone 1 (wired header_page))) = false.
Proof.
  intros w.
  destruct (mobile_menu_machine CONFIG w 2 1)
    as ((_ & H1 & H2) & _ & H3 & _ & _ & _ & _ & Hreg & Hclick);
    [reflexivity | reflexivity | reflexivity |].
  split_and!; [exact H1 | exact H2 | |].
  - apply (H3 desktop). simpl. lia.
  - apply Hclick.
    + apply (Hreg header_page 0 3). apply (bool_decide_unpack _). vm_compute. exact I.
    + apply (bool_decide_unpack _). vm_compute. exact I.
Defined.

(** On a page whose header has a link, the menu opened by the button is
    closed by a click on that link: a click that reaches no listener of
    the menu button, and no resize.  So the toggle and the resize are not
    the only transitions. *)
Lemma header_link_closes_menu :
  let w1 := dispatch_click CONFIG phone 1 (wired header_page) in
  let w2 := dispatch_click CONFIG phone 3 w1 in
  is_open (wired header_page) = false
  ∧ is_open w1 = true
  ∧ listener_handler <$> listeners_for (Some 3) click w1 = [HeaderLinkClick]
  ∧ listeners_for (Some 2) click w1 = []
  ∧ is_open w2 = false
  ∧ uncaught (st w2) = []
  ∧ ¬ (∀ cfg win target currentTarget h (w : kworld),
         is_open (run_handler cfg win target currentTarget h w).1 ≠ is_open w →
         h = ToggleMobileMenu
         ∨ (h = HandleResize ∧ mobile (breakpoints cfg) ≤ innerWidth win
            ∧ is_open w = true)).
Proof.
  split_and!; [by vm_compute.. |].
  intros H.
  destruct (H CONFIG phone 3 3 HeaderLinkClick
              (dispatch_click CONFIG phone 1 (wired header_page)))
    as [?|[? _]]; [by vm_compute | done | done].
Qed.

(** C6 at its failing input: a page with the menu button but without the
    actions block.  The button gets its click listener; the click
    flips the flag and then throws on the missing element, before the
    scroll lock is set; the resize handler then throws as well. *)
Lemma toggle_throws_without_headerActions :
  let w1 := wired button_only_page in
  let w2 := dispatch_click CONFIG phone 1 w1 in
  let w3 := dispatch_window CONFIG desktop resize w2 in
  menuToggle (DOM (st w1)) = Some 1
  ∧ headerActions (DOM (st w1)) = None
  ∧ listeners_for (Some 1) click w1 = [Listener (Some 1) click ToggleMobileMenu]
  ∧ uncaught (st w2)
    = [TypeError "Cannot read properties of null (reading 'classList')"]
  ∧ is_open w2 = true
  ∧ overflow w2 = None
  ∧ uncaught (st w3)
    = [TypeError "Cannot read properties of null (reading 'classList')";
       TypeError "Cannot read properties of null (reading 'classList')"].
Proof. split_and!; by vm_compute. Qed.

(** The guard that is there: without the menu button no toggle listener
    is registered, and the resize and scroll handlers run without error. *)
Lemma no_menu_button_no_toggle :
  let w := wired (Document ∅ [] [] ∅) in
  listener_handler <$> listeners (st w) = [HandleResize; HandleScroll]
  ∧ uncaught (st (dispatch_window CONFIG desktop resize w)) = []
  ∧ uncaught (st (dispatch_window CONFIG desktop scroll w)) = []
  ∧ is_open (dispatch_window CONFIG desktop resize w) = false.
Proof. split_and!; by vm_compute. Qed.

(** In general: without the actions block every toggle throws. *)
Lemma toggleMobileMenu_null (w : kworld) :
  headerActions (DOM (st w)) = None →
  (toggleMobileMenu w).2
  = Throw (TypeError "Cannot read properties of null (reading 'classList')").
Proof.
  intros Hn. unfold toggleMobileMenu, toggle_class, mbind, M_bind, modify, gets, throw.
  simpl. by rewrite Hn.
Qed.

End MenuFacts.

(** ** Styles and class queries *)

Module DomFacts.

Lemma get_style_set_style_eq (d : document) el prop value :
  is_Some (heap d !! el) →
  get_style (set_style el prop value d) el prop = Some value.
Proof.
  intros [nd Hnd]. unfold get_style, set_style, set_heap; simpl.
  rewrite lookup_alter_eq, Hnd; simpl. by rewrite lookup_insert_eq.
Qed.

Lemma get_style_set_style_ne (d : document) el prop value el' prop' :
  el' ≠ el ∨ prop' ≠ prop →
  get_style (set_style el prop value d) el' prop' = get_style d el' prop'.
Proof.
  intros Hne. unfold get_style, set_style, set_heap; simpl.
  destruct (decide (el' = el)) as [->|Hel].
  - rewrite lookup_alter_eq. destruct (heap d !! el) as [nd|]; simpl; [| done].
    rewrite lookup_insert_ne; [done |]. by destruct Hne.
  - by rewrite lookup_alter_ne.
Qed.

Lemma get_style_is_Some (d : document) el prop value :
  get_style d el prop = Some value → is_Some (heap d !! el).
Proof. unfold get_style. destruct (heap d !! el); [by eexists | done]. Qed.

Lemma heap_set_style_is_Some (d : document) el prop value n :
  is_Some (heap (set_style el prop value d) !! n) ↔ is_Some (heap d !! n).
Proof.
  unfold set_style, set_heap; simpl.
  destruct (decide (n = el)) as [->|Hne].
  - rewrite lookup_alter_eq. by rewrite fmap_is_Some.
  - by rewrite lookup_alter_ne.
Qed.

Import Animations.

Lemma restyled_refl d : restyled d d.
Proof. done. Qed.

Lemma restyled_trans d1 d2 d3 : restyled d1 d2 → restyled d2 d3 → restyled d1 d3.
Proof.
  intros [Ht1 Hc1] [Ht2 Hc2]. split; [congruence |].
  intros n. by rewrite Hc2, Hc1.
Qed.

Lemma restyled_set_style (d : document) el prop value :
  restyled d (set_style el prop value d).
Proof.
  split; [done |]. intros n. unfold set_style, set_heap; simpl.
  destruct (decide (n = el)) as [->|Hne].
  - rewrite lookup_alter_eq. by destruct (heap d !! el).
  - by rewrite lookup_alter_ne.
Qed.

Lemma restyled_foldl {A} (f : document → A → document) (l : list A) :
  (∀ d x, restyled d (f d x)) → ∀ d, restyled d (foldl f d l).
Proof.
  intros Hf. induction l as [|x l IH]; intros d; [done |]. simpl.
  eapply restyled_trans; [apply Hf | apply IH].
Qed.

(** Class selectors do not see the styles. *)
Lemma restyled_cards d d' : restyled d d' → cards d' = cards d.
Proof.
  intros [Ht Hc]. unfold cards, querySelectorAll. rewrite Ht.
  apply filter_ext. intros n. simpl.
  specialize (Hc n).
  destruct (heap d' !! n) as [nd'|], (heap d !! n) as [nd|]; simpl in *; try done.
  injection Hc as Hc. by rewrite Hc.
Qed.

End DomFacts.

(** ** The scroll reveal *)

Module RevealFacts.
Import Animations ListFacts TimersFacts DomFacts.

Lemma opacity_ne_transform : lit "opacity" ≠ lit "transform".
Proof. intros H. by vm_compute in H. Qed.




(** *** The timer bodies *)

Lemma fire_frame c (w : aworld) :
  now (fire c w) = now w ∧ timers (fire c w) = timers w
  ∧ revealObserver (st (fire c w)) = revealObserver (st w)
  ∧ restyled (doc (st w)) (doc (st (fire c w))).
Proof.
  destruct c; simpl; split_and!; try done.
  all: eapply restyled_trans; apply restyled_set_style.
Qed.

Lemma fire_style_other c (w : aworld) el prop :
  target_of c ≠ el →
  get_style (doc (st (fire c w))) el prop = get_style (doc (st w)) el prop.
Proof.
  intros Hne. destruct c; simpl in *; by rewrite !get_style_set_style_ne by auto.
Qed.



Lemma pop_due_shorter {C} t (q : queue C) tm q' :
  pop_due t q = Some (tm, q') → length (pending q') < length (pending q).
Proof.
  intros (_ & _ & l1 & l2 & -> & -> & _)%pop_due_Some.
  rewrite !length_app; simpl. lia.
Qed.







(** *** The observer callbacks *)

Lemma reports_cons el e es :
  reports el (e :: es) ↔ (target e = el ∧ isIntersecting e = true) ∨ reports el es.
Proof.
  unfold reports. rewrite elem_of_cons. destruct e as [tg b]; simpl.
  split; (intros [H|H]; [left | by right]); [by simplify_eq | by destruct H; subst].
Qed.

Lemma reports_delivered el targets changes :
  reports el (delivered targets changes) ↔ el ∈ targets ∧ reports el changes.
Proof.
  unfold reports, delivered.
  rewrite list_elem_of_In, filter_In, <- list_elem_of_In; simpl.
  rewrite bool_decide_eq_true. tauto.
Qed.



Lemma schedule_spec c delay (w : aworld) :
  now (schedule c delay w) = now w ∧ st (schedule c delay w) = st w
  ∧ schedule_of (timers (schedule c delay w))
    = schedule_of (timers w) ++ [(now w + delay, c)].
Proof. unfold schedule, setTimeout, schedule_of; simpl. by rewrite fmap_app. Qed.

Lemma revealCallback_spec es : ∀ i (w : aworld),
  now (revealCallback i es w) = now w
  ∧ doc (st (revealCallback i es w)) = doc (st w)
  ∧ schedule_of (timers (revealCallback i es w))
    = schedule_of (timers w) ++ reveal_schedule (now w) i es
  ∧ (∀ n, n ∈ revealObserver (st (revealCallback i es w))
          ↔ n ∈ revealObserver (st w) ∧ ¬ reports n es).
Proof.
  induction es as [|[tg b] es IH]; intros i w.
  - simpl. split_and!; [done | done | by rewrite app_nil_r |].
    intros n. unfold reports. rewrite elem_of_nil. tauto.
  - destruct b; simpl.
    + destruct (IH (S i) (set_revealObserver (unobserve tg)
                            (schedule (Reveal tg) (i * 100) w)))
        as (H1 & H2 & H3 & H4).
      destruct (schedule_spec (Reveal tg) (i * 100) w) as (S1 & S2 & S3).
      split_and!; [done | done | |].
      * rewrite H3; simpl. unfold schedule in S3 |- *; simpl in *.
        by rewrite S3, <- app_assoc.
      * intros n. rewrite H4, reports_cons; simpl. unfold unobserve.
        rewrite elem_of_filter_neq. split.
        -- intros [[? ?] ?]. split; [done |]. intros [[? _]|?]; [congruence | done].
        -- intros [? Hn]. split_and!; [done | | tauto].
           intros ->. apply Hn. by left.
    + destruct (IH (S i) w) as (H1 & H2 & H3 & H4).
      split_and!; [done | done | done |].
      intros n. rewrite H4, reports_cons; simpl. split.
      * intros [? ?]. split; [done |]. by intros [[_ ?]|?].
      * intros [? Hn]. split; [done |]. intros ?. apply Hn. by right.
Qed.




Lemma staggerCards_spec cs : ∀ i (w : aworld),
  now (staggerCards i cs w) = now w
  ∧ st (staggerCards i cs w) = st w
  ∧ schedule_of (timers (staggerCards i cs w))
    = schedule_of (timers w) ++ stagger_schedule (now w) i cs.
Proof.
  induction cs as [|c cs IH]; intros i w; simpl.
  - by rewrite app_nil_r.
  - destruct (IH (S i) (schedule (Stagger c) (i * 150) w)) as (H1 & H2 & H3).
    destruct (schedule_spec (Stagger c) (i * 150) w) as (S1 & S2 & S3).
    split_and!; [congruence | congruence |].
    rewrite H3, S3, S1, <- app_assoc. done.
Qed.





(** *** The events *)

Lemma boxShadow_ne prop :
  prop = lit "opacity" ∨ prop = lit "transform" → prop ≠ lit "boxShadow".
Proof. intros [->| ->] H; by vm_compute in H. Qed.

Lemma handleScroll_frame header y (w : aworld) :
  now (handleScroll header y w) = now w
  ∧ timers (handleScroll header y w) = timers w
  ∧ revealObserver (st (handleScroll header y w)) = revealObserver (st w)
  ∧ cards (doc (st (handleScroll header y w))) = cards (doc (st w))
  ∧ ∀ el prop, prop = lit "opacity" ∨ prop = lit "transform" →
      get_style (doc (st (handleScroll header y w))) el prop
      = get_style (doc (st w)) el prop.
Proof.
  unfold handleScroll. destruct (50 <? y); simpl.
  all: split_and!; [done | done | done | apply restyled_cards, restyled_set_style |].
  all: intros el prop Hp; apply get_style_set_style_ne; right; by apply boxShadow_ne.
Qed.






(** *** After [init] *)


Lemma transition_ne prop :
  prop = lit "opacity" ∨ prop = lit "transform" → prop ≠ lit "transition".
Proof. intros [->| ->] H; by vm_compute in H. Qed.






Lemma foldl_observe (el : nat) els : ∀ ts,
  el ∈ ts ∨ el ∈ els → el ∈ foldl (λ ts x, observe x ts) ts els.
Proof.
  induction els as [|x els IH]; intros ts H.
  - destruct H as [?|?%elem_of_nil]; done.
  - cbn [foldl]. apply IH. unfold observe.
    destruct H as [?|[->|?]%elem_of_cons]; [| | by right].
    + left. case_bool_decide; [done |]. apply elem_of_app. by left.
    + left. case_bool_decide; [done |]. apply elem_of_app. right. apply list_elem_of_here.
Qed.

Lemma restyled_hide (d : document) x : restyled d (hide x d).
Proof. unfold hide. repeat (eapply restyled_trans; [| apply restyled_set_style]). done. Qed.

Lemma restyled_hideCard (d : document) x : restyled d (hideCard x d).
Proof. unfold hideCard. repeat (eapply restyled_trans; [| apply restyled_set_style]). done. Qed.


(** On a page without any of the elements the animations look for,
    [init] registers nothing and every event leaves the page as it is. *)
Lemma animations_without_elements :
  let w := init true (load (Document ∅ [] [] ∅) 0) in
  w = load (Document ∅ [] [] ∅) 0
  ∧ ∀ e, handle e w = w.
Proof.
  split; [reflexivity |]. intros [changes|changes|y|]; try reflexivity.
  - cbn. by induction changes.
  - cbn. by induction changes.
Qed.




End RevealFacts.

(** * More properties *)

(** ** The rate limiters on arbitrary call sequences *)

Module RateLimitFacts.
Import Utils RateLimits TimersFacts.

Lemma leb_ltb_off a b : b ≠ a → (a <=? b) = (a <? b).
Proof.
  intros Hne. destruct (Nat.leb_spec a b), (Nat.ltb_spec a b); done || lia.
Qed.

Section Debounce.
Context {A : Type}.
Implicit Types (w : dworld A) (c : nat * A) (tr cs : list (nat * A)).

Lemma armed_after_fresh wait t0 c :
  t0 ≤ c.1 → armed_after wait c [] (dcall wait c (debounce t0)).
Proof.
  intros Hle. unfold dcall, dadvance, executedFunction, armed_after; simpl.
  rewrite Nat.max_r by done. eauto.
Qed.

(** The next call either comes in time to cancel the pending run or
    finds that it has happened. *)
Lemma armed_after_call wait c c' tr w :
  armed_after wait c tr w → c.1 ≤ c'.1 →
  armed_after wait c'
    (tr ++ (if c.1 + wait <=? c'.1 then [(c.1 + wait, c.2)] else []))
    (dcall wait c' w).
Proof.
  intros (Hnow & Htr & h & Ht & Hq) Hle.
  destruct w as [n [i l] [o cs]], c as [t a], c' as [t' a']; simpl in *; subst.
  unfold dcall, dadvance, executedFunction, armed_after; simpl.
  destruct (Nat.leb_spec (t + wait) t').
  - rewrite pop_due_single_due by (simpl; lia). simpl.
    replace ((t `max` (t + wait)) `max` t') with t' by lia.
    replace (t `max` (t + wait)) with (t + wait) by lia. eauto.
  - rewrite pop_due_single_late by (simpl; lia). simpl.
    rewrite filter_cons, decide_False by (intros H'; by apply H'). simpl.
    rewrite app_nil_r. replace (t `max` t') with t' by lia. eauto.
Qed.

Lemma armed_after_wait wait c tr w t :
  armed_after wait c tr w → c.1 ≤ t →
  dcalls (st (dadvance t w))
  = tr ++ (if c.1 + wait <=? t then [(c.1 + wait, c.2)] else []).
Proof.
  intros (Hnow & Htr & h & Ht & Hq) Hle.
  destruct w as [n [i l] [o cs]], c as [t1 a]; simpl in *; subst.
  unfold dadvance; simpl.
  destruct (Nat.leb_spec (t1 + wait) t).
  - rewrite pop_due_single_due by (simpl; lia). simpl.
    by replace (t1 `max` (t1 + wait)) with (t1 + wait) by lia.
  - rewrite pop_due_single_late by (simpl; lia). simpl. by rewrite app_nil_r.
Qed.

Lemma dplay_debounced wait t cs : ∀ c tr w,
  armed_after wait c tr w → in_order c.1 cs t → off_beat wait c cs t →
  dcalls (st (dadvance t (dplay wait cs w))) = tr ++ debounced_from wait t c cs.
Proof.
  induction cs as [|c' cs IH]; intros c tr w Ha Ho Hoff.
  - cbn [debounced_from off_beat] in *. rewrite <- leb_ltb_off by done.
    by apply armed_after_wait.
  - destruct Ho as [Hle Ho]. destruct Hoff as [Hne Hoff].
    cbn [dplay foldl debounced_from].
    rewrite app_assoc, <- leb_ltb_off by done.
    apply (IH c'); [| done | done]. by apply armed_after_call.
Qed.
End Debounce.

Section Throttle.
Context {A : Type}.
Implicit Types (w : tworld A) (c : nat * A) (tr cs : list (nat * A)).

Lemma tplay_throttling limit cs : ∀ t1 tr w,
  throttling limit t1 tr w →
  tcalls (st (tplay limit (plain <$> cs) w))
  = tr ++ passed limit (Some (t1 + limit)) cs.
Proof.
  induction cs as [|c cs IH]; intros t1 tr w Hw.
  - destruct Hw as (_ & _ & Htr & _). cbn. by rewrite app_nil_r.
  - change (tplay limit (plain <$> c :: cs) w)
      with (tplay limit (plain <$> cs) (tcall limit (plain c) w)).
    cbn [passed]. destruct (Nat.ltb_spec c.1 (t1 + limit)).
    + apply (IH t1). by apply ThrottleFacts.tcall_inside.
    + rewrite (IH c.1 (tr ++ [c])); [by rewrite <- app_assoc |].
      by apply (ThrottleFacts.tcall_after limit t1).
Qed.

Lemma tplay_passed limit t0 cs :
  Forall (λ c, t0 ≤ c.1) cs →
  tcalls (st (tplay limit (plain <$> cs) (throttle t0))) = passed limit None cs.
Proof.
  destruct cs as [|c cs]; [done |]. intros [Hle _]%Forall_cons.
  change (tplay limit (plain <$> c :: cs) (throttle t0))
    with (tplay limit (plain <$> cs) (tcall limit (plain c) (throttle t0))).
  cbn [passed].
  apply (tplay_throttling limit cs c.1 [c]).
  by apply (ThrottleFacts.tcall_idle limit [] c (throttle t0)).
Qed.

Lemma timely_from limit cs : ∀ t0, timely limit t0 cs → Forall (λ c, t0 ≤ c.1) cs.
Proof.
  induction cs as [|c cs IH]; intros t0; [done |].
  intros (Hle & _ & Ht). constructor; [done |].
  eapply Forall_impl; [by apply IH |]. cbn; intros; lia.
Qed.

Lemma passed_spaced limit cs : ∀ u,
  Forall (λ x : nat * A, u ≤ x.1) (passed limit (Some u) cs)
  ∧ Sorted (λ x y : nat * A, x.1 + limit ≤ y.1) (passed limit (Some u) cs).
Proof.
  induction cs as [|c cs IH]; intros u; [by split; constructor |].
  cbn [passed]. destruct (Nat.ltb_spec c.1 u); [apply IH |].
  destruct (IH (c.1 + limit)) as [Hall Hs]. split.
  - constructor; [done |]. eapply Forall_impl; [done |]. simpl; intros; lia.
  - constructor; [done |]. destruct Hall; by constructor.
Qed.

Lemma passed_sublist limit cs : ∀ u, passed limit u cs `sublist_of` cs.
Proof.
  induction cs as [|c cs IH]; intros u; [done |]. cbn [passed].
  destruct u as [u|]; [destruct (c.1 <? u) |].
  - by apply sublist_cons.
  - by apply sublist_skip.
  - by apply sublist_skip.
Qed.
End Throttle.

(** X1. Whatever the calls of a debounced function that does not call
    the wrapper itself, in time order and with no call, nor the time [t],
    exactly [wait] ms after the call before: by time [t] the function has
    run once for each call that was followed by more than [wait] ms
    without another call, [wait] ms after that call and with its
    arguments, and has run for no other call. *)
Theorem debounce_runs_after_silence {A} (wait t0 t : nat) (cs : list (nat * A)) :
  in_order t0 cs t →
  untied wait cs t →
  dcalls (st (dadvance t (dplay wait cs (debounce t0)))) = debounced wait t cs.
Proof.
  destruct cs as [|c cs]; [done |]. intros [Hle Ho] Hoff.
  apply (dplay_debounced wait t cs c [] (dcall wait c (debounce t0)));
    [by apply armed_after_fresh | done | done].
Qed.

Lemma debounce_runs_after_silence_witness :
  dcalls (st (dadvance 2000
    (dplay 250 [(10, 1); (100, 2); (400, 3); (651, 4); (1900, 5)] (debounce 0))))
  = [(350, 2); (650, 3); (901, 4)].
Proof.
  rewrite (debounce_runs_after_silence 250 0 2000); [reflexivity | |].
  - simpl; lia.
  - simpl; lia.
Defined.



(** X3. A throttled function that returns and does not call the wrapper
    while it runs is run at most once per interval: whatever the calls, in
    time order and none exactly [limit] ms after an earlier one, two
    successive runs are at least [limit] ms apart, and the runs are calls
    that were made, in their order. *)
Theorem throttle_at_most_once_per_interval {A} (limit t0 : nat) (cs : list (nat * A)) :
  timely limit t0 cs →
  Sorted (λ x y : nat * A, x.1 + limit ≤ y.1)
    (tcalls (st (tplay limit (plain <$> cs) (throttle t0))))
  ∧ tcalls (st (tplay limit (plain <$> cs) (throttle t0))) `sublist_of` cs.
Proof.
  intros Hcs%timely_from. rewrite tplay_passed by done. split; [| apply passed_sublist].
  destruct cs as [|c cs]; [constructor |]. cbn [passed].
  destruct (passed_spaced limit cs (c.1 + limit)) as [Hall Hs].
  constructor; [done |]. destruct Hall; by constructor.
Qed.

Lemma throttle_at_most_once_per_interval_witness :
  Sorted (λ x y : nat * nat, x.1 + 100 ≤ y.1)
    (tcalls (st (tplay 100 (plain <$> [(5, 1); (40, 2); (106, 3)]) (throttle 0)))).
Proof.
  apply (throttle_at_most_once_per_interval 100 0 [(5, 1); (40, 2); (106, 3)]).
  cbn [timely fst]. repeat split; repeat constructor; cbn; lia.
Defined.

End RateLimitFacts.

(** ** More on [Utils.formatPhone] and the breakpoints *)

Module FormatFacts.
Import Utils FormatPhoneFacts.

(** X4. Formatting a phone number keeps its digits, and formatting the
    result again changes nothing. *)
Theorem formatPhone_idempotent (phone : jsstring) :
  List.filter is_digit (formatPhone phone) = List.filter is_digit phone
  ∧ formatPhone (formatPhone phone) = formatPhone phone.
Proof.
  destruct (decide (length (List.filter is_digit phone) = 12)) as [Hlen|Hlen].
  - assert (List.filter is_digit (formatPhone phone) = List.filter is_digit phone) as Hd.
    { rewrite formatPhone_twelve by done.
      apply filter_grouped, filter_is_digit_digits. }
    split; [done |].
    rewrite (formatPhone_twelve (formatPhone phone)) by by rewrite Hd.
    by rewrite Hd, <- formatPhone_twelve.
  - by rewrite !formatPhone_other.
Qed.

End FormatFacts.

Module BreakpointFacts.
Import CONFIG Breakpoints.

(** X5. When the mobile breakpoint is not above the desktop one, every
    window width is of exactly one kind: mobile below the mobile
    breakpoint, desktop from the desktop breakpoint on, tablet in between. *)
Theorem device_kinds_partition (cfg : config) (innerWidth : nat) :
  mobile (breakpoints cfg) ≤ desktop (breakpoints cfg) →
  (isMobile cfg innerWidth = true ∧ isTablet cfg innerWidth = false
   ∧ isDesktop cfg innerWidth = false ∧ innerWidth < mobile (breakpoints cfg))
  ∨ (isMobile cfg innerWidth = false ∧ isTablet cfg innerWidth = true
     ∧ isDesktop cfg innerWidth = false
     ∧ mobile (breakpoints cfg) ≤ innerWidth < desktop (breakpoints cfg))
  ∨ (isMobile cfg innerWidth = false ∧ isTablet cfg innerWidth = false
     ∧ isDesktop cfg innerWidth = true ∧ desktop (breakpoints cfg) ≤ innerWidth).
Proof.
  intros Hle. unfold isMobile, isTablet, isDesktop.
  destruct (Nat.ltb_spec innerWidth (mobile (breakpoints cfg)));
    destruct (Nat.leb_spec (mobile (breakpoints cfg)) innerWidth);
    destruct (Nat.ltb_spec innerWidth (desktop (breakpoints cfg)));
    destruct (Nat.leb_spec (desktop (breakpoints cfg)) innerWidth);
    simpl; try lia; auto 10.
Qed.

Lemma device_kinds_partition_witness :
  isMobile CONFIG 1100 = false ∧ isTablet CONFIG 1100 = true
  ∧ isDesktop CONFIG 1100 = false.
Proof.
  destruct (device_kinds_partition CONFIG 1100) as [(H & _)|[(H1 & H2 & H3 & _)|(_ & H & _)]].
  - simpl; lia.
  - discriminate H.
  - done.
  - discriminate H.
Defined.

End BreakpointFacts.

(** ** More on the WhatsApp link *)

Module LinkFacts.
Import CONFIG ConfigFacts.

Lemma encodeURIComponent_cons c s :
  encodeURIComponent (c :: s)
  = if uriUnescaped c then
      match encodeURIComponent s with
      | Ok r => Ok (c :: r) | Throw e => Throw e end
    else if is_lead_surrogate c then
      match s with
      | d :: s' =>
          if is_trail_surrogate d then
            match encodeURIComponent s' with
            | Ok r => Ok (escape (code_point c d) ++ r) | Throw e => Throw e end
          else Throw URIError
      | [] => Throw URIError
      end
    else if is_trail_surrogate c then Throw URIError
    else match encodeURIComponent s with
         | Ok r => Ok (escape c ++ r) | Throw e => Throw e end.
Proof. by destruct s. Qed.

Lemma well_formed_cons c s :
  well_formed (c :: s)
  = if is_lead_surrogate c then
      match s with
      | d :: s' => is_trail_surrogate d && well_formed s'
      | [] => false
      end
    else negb (is_trail_surrogate c) && well_formed s.
Proof. by destruct s. Qed.

(** A proof about [s] and every [c :: s] at once follows the two ways
    the encoder steps through a string. *)
Lemma two_step_ind (P : jsstring → Prop) :
  P [] → (∀ c, P [c]) →
  (∀ c d s, P s → P (d :: s) → P (c :: d :: s)) →
  ∀ s, P s.
Proof.
  intros H0 H1 H2 s.
  assert (P s ∧ ∀ c, P (c :: s)) as [? _]; [| done].
  induction s as [|d s [IH1 IH2]]; [by split |].
  split; [apply IH2 |]. intros c. by apply H2.
Qed.

(** The only error is [URIError], and it is thrown exactly for an
    unpaired surrogate. *)
Lemma encodeURIComponent_throws s :
  well_formed s = false → encodeURIComponent s = Throw URIError.
Proof.
  induction s as [| c | c d s IH1 IH2] using two_step_ind.
  - done.
  - rewrite well_formed_cons, encodeURIComponent_cons.
    destruct (uriUnescaped c) eqn:Hu.
    { apply uriUnescaped_not_surrogate in Hu as [-> ->]. done. }
    destruct (is_lead_surrogate c); [done |].
    by destruct (is_trail_surrogate c).
  - rewrite well_formed_cons, encodeURIComponent_cons.
    destruct (uriUnescaped c) eqn:Hu.
    { apply uriUnescaped_not_surrogate in Hu as [-> ->]. cbn [negb andb].
      intros Hwf. by rewrite IH2. }
    destruct (is_lead_surrogate c).
    + destruct (is_trail_surrogate d); [| done]. cbn [andb].
      intros Hwf. by rewrite IH1.
    + destruct (is_trail_surrogate c); [done |]. cbn [negb andb].
      intros Hwf. by rewrite IH2.
Qed.

Lemma encodeURIComponent_Ok s r :
  encodeURIComponent s = Ok r → well_formed s = true.
Proof.
  intros Hok. destruct (well_formed s) eqn:Hwf; [done |].
  apply encodeURIComponent_throws in Hwf. congruence.
Qed.

(** X6. The link builder fails in one way only: it throws [URIError]
    exactly when it is given a non-empty message with an unpaired
    surrogate; without a message it always returns a link. *)
Theorem getWhatsAppLink_throws (cfg : config) (message : jsstring) (e : exn) :
  (getWhatsAppLink cfg (Some message) = Throw e
   ↔ e = URIError ∧ message ≠ [] ∧ well_formed message = false)
  ∧ ∃ link, getWhatsAppLink cfg None = Ok link.
Proof.
  split; [| by eexists]. unfold getWhatsAppLink; simpl.
  case_bool_decide as Hm.
  - split; [| by intros (_ & ? & _)].
    by destruct (encodeURIComponent defaultMessage) eqn:Hd; [| vm_compute in Hd].
  - split.
    + destruct (encodeURIComponent message) as [text|e'] eqn:Henc; [done |].
      intros [= <-]. destruct (well_formed message) eqn:Hwf.
      * destruct (proj1 (encodeURIComponent_well_formed message) Hwf). congruence.
      * apply encodeURIComponent_throws in Hwf. split; [congruence | done].
    + intros (-> & _ & Hwf). by rewrite encodeURIComponent_throws.
Qed.

(** *** The characters of the encoded text *)

Lemma N_lor_lt a b n : (a < 2 ^ n → b < 2 ^ n → N.lor a b < 2 ^ n)%N.
Proof.
  intros Ha Hb.
  destruct (decide (a = 0%N)) as [->|Ha0]; [by rewrite N.lor_0_l |].
  destruct (decide (b = 0%N)) as [->|Hb0]; [by rewrite N.lor_0_r |].
  apply N.log2_lt_pow2.
  - destruct (N.lor a b) eqn:Hl; [| lia].
    apply N.lor_eq_0_iff in Hl as [? _]. done.
  - rewrite N.log2_lor. apply N.max_lub_lt; apply N.log2_lt_pow2; lia.
Qed.

Lemma N_land_63 a : (N.land a 0x3F < 64)%N.
Proof.
  change 0x3F%N with (N.ones 6). rewrite N.land_ones.
  apply N.mod_lt. done.
Qed.

Lemma N_shiftr_lt a k b : (a < b * 2 ^ k → N.shiftr a k < b)%N.
Proof.
  intros H. rewrite N.shiftr_div_pow2.
  apply N.Div0.div_lt_upper_bound. lia.
Qed.

Lemma continuation_byte x : (x < 64 → N.lor 0x80 x < 256)%N.
Proof. intros H. apply (N_lor_lt _ _ 8); simpl; lia. Qed.

Lemma utf8_octets cp : (cp < 0x110000)%N → Forall (λ o, (o < 256)%N) (utf8 cp).
Proof.
  intros Hcp. unfold utf8.
  destruct (N.ltb_spec cp 0x80); [repeat constructor; lia |].
  destruct (N.ltb_spec cp 0x800).
  { repeat constructor; [| apply continuation_byte, N_land_63].
    apply (N_lor_lt _ _ 8); [simpl; lia |].
    apply N.lt_trans with 32%N; [| simpl; lia]. apply N_shiftr_lt. simpl; lia. }
  destruct (N.ltb_spec cp 0x10000).
  { repeat constructor; try apply continuation_byte, N_land_63.
    apply (N_lor_lt _ _ 8); [simpl; lia |].
    apply N.lt_trans with 16%N; [| simpl; lia]. apply N_shiftr_lt. simpl; lia. }
  repeat constructor; try apply continuation_byte, N_land_63.
  apply (N_lor_lt _ _ 8); [simpl; lia |].
  apply N.lt_trans with 8%N; [| simpl; lia]. apply N_shiftr_lt. simpl; lia.
Qed.

Lemma hex_digit_unreserved d : (d < 16)%N → uriUnescaped (hex_digit d) = true.
Proof.
  intros Hd. unfold hex_digit, uriUnescaped.
  destruct (N.ltb_spec d 10).
  - assert (between 48 57 (48 + d) = true) as -> by (apply between_spec; lia).
    by rewrite orb_true_r.
  - assert (between 65 90 (55 + d) = true) as -> by (apply between_spec; lia).
    done.
Qed.

Lemma percent_safe o :
  (o < 256)%N → Forall (λ u, uriUnescaped u = true ∨ u = 37%N) (percent o).
Proof.
  intros Ho. unfold percent.
  repeat apply Forall_cons_2; [| | | apply Forall_nil_2].
  - by right.
  - left. apply hex_digit_unreserved. apply N_shiftr_lt. simpl; lia.
  - left. apply hex_digit_unreserved.
    change 0xF%N with (N.ones 4). rewrite N.land_ones. by apply N.mod_lt.
Qed.

Lemma escape_safe cp :
  (cp < 0x110000)%N → Forall (λ u, uriUnescaped u = true ∨ u = 37%N) (escape cp).
Proof.
  intros Hcp. unfold escape. apply Forall_bind.
  eapply Forall_impl; [by apply utf8_octets |]. apply percent_safe.
Qed.

Lemma code_point_bound c d :
  is_lead_surrogate c = true → is_trail_surrogate d = true →
  (code_point c d < 0x110000)%N.
Proof.
  unfold is_lead_surrogate, is_trail_surrogate, code_point.
  rewrite !between_spec. lia.
Qed.

Lemma encodeURIComponent_safe s : ∀ r,
  Forall (λ u, (u < 65536)%N) s →
  encodeURIComponent s = Ok r →
  Forall (λ u, uriUnescaped u = true ∨ u = 37%N) r.
Proof.
  induction s as [| c | c d s IH1 IH2] using two_step_ind; intros r Hs.
  - intros [= <-]. apply Forall_nil_2.
  - apply Forall_cons in Hs as [Hc _].
    rewrite encodeURIComponent_cons. cbn [encodeURIComponent].
    destruct (uriUnescaped c) eqn:Hu.
    { intros [= <-]. apply Forall_cons_2; [by left | apply Forall_nil_2]. }
    destruct (is_lead_surrogate c); [done |].
    destruct (is_trail_surrogate c); [done |].
    intros [= <-]. rewrite app_nil_r. apply escape_safe. lia.
  - pose proof Hs as Hs'. apply Forall_cons in Hs as [Hc Hs].
    pose proof Hs as Hds. apply Forall_cons in Hds as [Hd Hss].
    rewrite encodeURIComponent_cons.
    destruct (uriUnescaped c) eqn:Hu.
    { destruct (encodeURIComponent (d :: s)) as [r'|] eqn:Hr; [| done].
      intros [= <-]. apply Forall_cons. split; [by left | by apply IH2]. }
    destruct (is_lead_surrogate c) eqn:Hl.
    + destruct (is_trail_surrogate d) eqn:Ht; [| done].
      destruct (encodeURIComponent s) as [r'|] eqn:Hr; [| done].
      intros [= <-]. apply Forall_app. split; [| by apply IH1].
      by apply escape_safe, code_point_bound.
    + destruct (is_trail_surrogate c); [done |].
      destruct (encodeURIComponent (d :: s)) as [r'|] eqn:Hr; [| done].
      intros [= <-]. apply Forall_app. split; [| by apply IH2].
      apply escape_safe. lia.
Qed.

(** X7. For a message made of 16-bit code units, the text that the
    link builder puts after [?text=] holds nothing but unreserved
    characters ([A-Z a-z 0-9 - _ . ! ~ * ' ( )]) and [%]: in particular no
    [&], [=], [#], [?], [/], [+] and no space. *)
Theorem getWhatsAppLink_text_safe (cfg : config) (message link : jsstring) :
  Forall (λ u, (u < 65536)%N) message →
  getWhatsAppLink cfg (Some message) = Ok link →
  ∃ text,
    link = lit "https://wa.me/" ++ whatsapp (business cfg) ++ lit "?text=" ++ text
    ∧ Forall (λ u, uriUnescaped u = true ∨ u = 37%N) text
    ∧ Forall (λ u, u ∉ [38; 61; 35; 63; 47; 43; 32]%N) text.
Proof.
  intros Hm. unfold getWhatsAppLink; simpl.
  destruct (encodeURIComponent _) as [text|] eqn:Henc; [| done].
  intros [= <-]. exists text. split; [done |].
  assert (Forall (λ u, uriUnescaped u = true ∨ u = 37%N) text) as Hsafe.
  { eapply encodeURIComponent_safe; [| exact Henc].
    case_bool_decide; [| done].
    apply Forall_forall. intros u Hu.
    assert (u ∈ defaultMessage → (u < 128)%N) as Hb; [| specialize (Hb Hu); lia].
    clear. vm_compute. intros H.
    repeat (apply elem_of_cons in H as [->|H]; [done |]). by apply elem_of_nil in H. }
  split; [done |].
  eapply Forall_impl; [exact Hsafe |]. intros u [Hu| ->] Hin.
  - repeat (apply elem_of_cons in Hin as [->|Hin]; [by vm_compute in Hu |]).
    by apply elem_of_nil in Hin.
  - repeat (apply elem_of_cons in Hin as [?|Hin]; [done |]).
    by apply elem_of_nil in Hin.
Qed.

Lemma getWhatsAppLink_text_safe_witness :
  ∃ text,
    getWhatsAppLink CONFIG (Some (lit "price & stock? 50/50 + more #1"))
    = Ok (lit "https://wa.me/" ++ whatsapp (business CONFIG) ++ lit "?text=" ++ text)
    ∧ Forall (λ u, u ∉ [38; 61; 35; 63; 47; 43; 32]%N) text.
Proof.
  destruct (getWhatsAppLink_text_safe CONFIG (lit "price & stock? 50/50 + more #1")
              (lit "https://wa.me/254722784947?text=price%20%26%20stock%3F%2050%2F50%20%2B%20more%20%231"))
    as (text & Heq & _ & Hsafe).
  - apply Forall_forall. intros u Hu.
    assert (u < 128)%N; [| lia]. revert Hu. vm_compute. intros H.
    repeat (apply elem_of_cons in H as [->|H]; [done |]). by apply elem_of_nil in H.
  - reflexivity.
  - exists text. split; [| done]. rewrite <- Heq. reflexivity.
Defined.

End LinkFacts.

(** ** More on the handlers of js/app.js *)

Module HandlerFacts.
Import CONFIG KelahApp Handlers LinkFacts.

Lemma encodeURIComponent_app a : ∀ ra b,
  encodeURIComponent a = Ok ra →
  encodeURIComponent (a ++ b)
  = match encodeURIComponent b with
    | Ok rb => Ok (ra ++ rb)
    | Throw e => Throw e
    end.
Proof.
  induction a as [| c | c d s IH1 IH2] using two_step_ind; intros ra b.
  - intros [= <-]. cbn [List.app]. by destruct (encodeURIComponent b).
  - change ([c] ++ b) with (c :: b).
    rewrite (encodeURIComponent_cons c b), (encodeURIComponent_cons c []).
    cbn [encodeURIComponent].
    destruct (uriUnescaped c).
    { intros [= <-]. by destruct (encodeURIComponent b). }
    destruct (is_lead_surrogate c); [done |].
    destruct (is_trail_surrogate c); [done |].
    intros [= <-]. rewrite app_nil_r. by destruct (encodeURIComponent b).
  - change ((c :: d :: s) ++ b) with (c :: d :: (s ++ b)).
    rewrite (encodeURIComponent_cons c (d :: s)),
      (encodeURIComponent_cons c (d :: s ++ b)).
    change (d :: s ++ b) with ((d :: s) ++ b).
    destruct (uriUnescaped c).
    { destruct (encodeURIComponent (d :: s)) as [r|] eqn:Hr; [| done].
      intros [= <-]. rewrite (IH2 r b) by done.
      by destruct (encodeURIComponent b). }
    destruct (is_lead_surrogate c).
    + destruct (is_trail_surrogate d); [| done].
      destruct (encodeURIComponent s) as [r|] eqn:Hr; [| done].
      intros [= <-]. rewrite (IH1 r b) by done.
      destruct (encodeURIComponent b); [| done]. by rewrite app_assoc.
    + destruct (is_trail_surrogate c); [done |].
      destruct (encodeURIComponent (d :: s)) as [r|] eqn:Hr; [| done].
      intros [= <-]. rewrite (IH2 r b) by done.
      destruct (encodeURIComponent b); [| done]. by rewrite app_assoc.
Qed.

(** X8. A click on a WhatsApp button whose element exists, when the id of
    the section around it can be encoded: the handler returns normally
    and sets the [href] of the clicked element, and of no other, to the
    chat link whose text is the fixed greeting followed by the encoded
    section id. *)
Theorem handleWhatsAppClick_href cfg target (w : kworld) nd text :
  heap (doc (st w)) !! target = Some nd →
  encodeURIComponent (section_of (doc (st w)) target) = Ok text →
  let r := handleWhatsAppClick cfg target w in
  r.2 = Ok ()
  ∧ heap (doc (st r.1)) !! target
    = Some (with_href
              (lit "https://wa.me/" ++ whatsapp (business cfg) ++ lit "?text="
               ++ lit "Hello%20KELAH%20Agrovet%2C%20I'm%20interested%20in%20your%20services.%20I%20was%20viewing%3A%20"
               ++ text) nd)
  ∧ (∀ el, el ≠ target → heap (doc (st r.1)) !! el = heap (doc (st w)) !! el)
  ∧ tree (doc (st r.1)) = tree (doc (st w))
  ∧ state (st r.1) = state (st w)
  ∧ uncaught (st r.1) = uncaught (st w).
Proof.
  intros Hnd Henc r. unfold r.
  unfold handleWhatsAppClick, mbind, M_bind, modify, gets, throw. cbn [fst snd].
  change (doc (st (console_log _ w))) with (doc (st w)).
  unfold getWhatsAppLink, default. cbn [from_option id].
  rewrite bool_decide_eq_false_2 by done.
  rewrite (encodeURIComponent_app _
             (lit "Hello%20KELAH%20Agrovet%2C%20I'm%20interested%20in%20your%20services.%20I%20was%20viewing%3A%20"))
    by by vm_compute.
  rewrite Henc. cbn [fst snd]. unfold set_doc, set_app, set_heap; cbn.
  split_and!; try done.
  - by rewrite lookup_alter_eq, Hnd.
  - intros el Hne. by rewrite lookup_alter_ne.
Qed.

Lemma handleWhatsAppClick_href_witness :
  let w := Pages.wired Pages.header_page in
  heap (doc (st (handleWhatsAppClick CONFIG 3 w).1)) !! 3
  = Some (with_href
            (lit "https://wa.me/254722784947?text=Hello%20KELAH%20Agrovet%2C%20I'm%20interested%20in%20your%20services.%20I%20was%20viewing%3A%20unknown")
            (Pages.element "a" EmptyString ["btn"] (Some 2))).
Proof.
  intros w.
  destruct (handleWhatsAppClick_href CONFIG 3 w
              (Pages.element "a" EmptyString ["btn"] (Some 2)) (lit "unknown"))
    as (_ & H & _).
  - reflexivity.
  - reflexivity.
  - rewrite H. reflexivity.
Defined.

(** *** [handleScroll] *)

Lemma set_state_id (w : kworld) :
  set_state (λ s, AppState (mobileMenuOpen s) (currentSection (state (st w)))) w = w.
Proof. by destruct w as [? ? [? ? [] ? ? ? ?]]. Qed.

Lemma visit_sections win (l : list (option nat)) : ∀ w : kworld,
  foldl (λ w s, visit_section win s w) w l
  = set_state (λ s, AppState (mobileMenuOpen s)
       match last (List.filter (in_band win) (omap id l)) with
       | Some s => from_option elem_id [] (heap (doc (st w)) !! s)
       | None => currentSection (state (st w))
       end) w.
Proof.
  induction l as [|o l IH]; intros w.
  - simpl. by rewrite set_state_id.
  - cbn [foldl]. rewrite IH. destruct o as [x|]; [| reflexivity].
    change (omap id (Some x :: l)) with (x :: omap id l).
    cbn [List.filter]. unfold visit_section. fold (in_band win x).
    destruct (in_band win x); [| done].
    rewrite last_cons. cbn.
    by destruct (last (List.filter (in_band win) (omap id l))).
Qed.

(** X9. [handleScroll] changes nothing but [state.currentSection].  Of
    the cached sections hero, services, products, contact that are
    present and contain the line 200 px below the top of the window, the
    last one in that order gives its id; if there is none, the current
    section stays as it was. *)
Theorem handleScroll_last_section win (w : kworld) :
  handleScroll win w
  = (set_state (λ s, AppState (mobileMenuOpen s)
        match last (List.filter (in_band win) (sections (DOM (st w)))) with
        | Some s => from_option elem_id [] (heap (doc (st w)) !! s)
        | None => currentSection (state (st w))
        end) w,
     Ok ()).
Proof. unfold handleScroll, sections. by rewrite visit_sections. Qed.

End HandlerFacts.

(** ** The menu flag and the page *)

Module MenuSyncFacts.
Import CONFIG KelahApp Handlers MenuFacts LinkFacts.

Lemma toggle_token_flips (c : jsstring) (l : list jsstring) :
  bool_decide (c ∈ toggle_token c l) = negb (bool_decide (c ∈ l)).
Proof.
  unfold toggle_token. destruct (decide (c ∈ l)) as [Hin|Hin].
  - rewrite !(bool_decide_eq_true_2 (c ∈ l)) by done. cbn [negb].
    apply bool_decide_eq_false_2.
    intros [_ Hf]%list_elem_of_In%filter_In.
    by rewrite bool_decide_eq_true_2 in Hf.
  - rewrite !(bool_decide_eq_false_2 (c ∈ l)) by done. cbn [negb].
    apply bool_decide_eq_true_2, elem_of_app. right. apply list_elem_of_here.
Qed.

Lemma classList_alter (f : node → node) (h : gmap nat node) t el :
  (∀ nd, classList (f nd) = classList nd) →
  classList <$> alter f t h !! el = classList <$> h !! el.
Proof.
  intros Hf. destruct (decide (el = t)) as [->|Hne].
  - rewrite lookup_alter_eq. destruct (h !! t) as [nd|]; [| done].
    cbn. by rewrite Hf.
  - by rewrite lookup_alter_ne.
Qed.

Lemma classList_is_Some (h h' : gmap nat node) el :
  classList <$> h' !! el = classList <$> h !! el →
  is_Some (h !! el) → is_Some (h' !! el).
Proof.
  intros Heq [nd Hnd]. rewrite Hnd in Heq.
  destruct (h' !! el); [by eexists | done].
Qed.

Lemma shown_open_classList (w w' : kworld) el :
  classList <$> heap (doc (st w')) !! el = classList <$> heap (doc (st w)) !! el →
  shown_open w' el = shown_open w el.
Proof.
  unfold shown_open, matches. intros Heq.
  destruct (heap (doc (st w')) !! el) as [nd'|], (heap (doc (st w)) !! el) as [nd|];
    cbn in Heq; try done.
  injection Heq as Heq. cbn [from_option]. by rewrite Heq.
Qed.

Lemma menu_untouched_refl (w : kworld) : menu_untouched w w.
Proof. done. Qed.

Lemma in_sync_untouched ha mt (w w' : kworld) :
  in_sync ha mt w → menu_untouched w w' → in_sync ha mt w'.
Proof.
  intros (Hha & Hmt & Sha & Smt & Aha & Amt & Hlock) (HD & Ho & Hov & Hcl).
  pose proof (Hcl ha Sha) as Cha. pose proof (Hcl mt Smt) as Cmt.
  unfold in_sync. rewrite HD, Ho.
  split; [done |]. split; [done |].
  split; [by eapply classList_is_Some |].
  split; [by eapply classList_is_Some |].
  split; [by rewrite (shown_open_classList w w') |].
  split; [by rewrite (shown_open_classList w w') |].
  unfold scroll_locked. by rewrite Hov.
Qed.

(** The toggle keeps the flag and the page together. *)
Lemma toggleMobileMenu_sync ha mt (w : kworld) :
  ha ≠ mt → in_sync ha mt w →
  (toggleMobileMenu w).2 = Ok ()
  ∧ in_sync ha mt (toggleMobileMenu w).1
  ∧ uncaught (st (toggleMobileMenu w).1) = uncaught (st w).
Proof.
  intros Hne (Hha & Hmt & [na Hna] & [nm Hnm] & Aha & Amt & Hlock).
  rewrite (toggleMobileMenu_ok w ha mt) by done. cbn [fst snd].
  split; [done |]. split; [| done].
  unfold in_sync, shown_open, scroll_locked, overflow, is_open, matches in *.
  unfold set_doc, set_app, set_state, classList_toggle, set_heap, set_overflow; cbn.
  rewrite Hna in Aha. rewrite Hnm in Amt. cbn [from_option] in Aha, Amt.
  rewrite lookup_alter_ne, !lookup_alter_eq, lookup_alter_ne, Hna, Hnm by done.
  cbn [fmap option_fmap option_map from_option with_classList classList].
  rewrite !toggle_token_flips, Aha, Amt, lookup_insert_eq.
  split; [done |]. split; [done |]. split; [by eexists |]. split; [by eexists |].
  split; [done |]. split; [done |].
  by destruct (mobileMenuOpen (state (st w))).
Qed.

Lemma getWhatsAppLink_URIError cfg message e :
  getWhatsAppLink cfg message = Throw e → e = URIError.
Proof.
  unfold getWhatsAppLink.
  set (m := if bool_decide _ then _ else _).
  destruct (encodeURIComponent m) eqn:Henc; [done |]. intros [= <-].
  destruct (well_formed m) eqn:Hwf.
  - apply ConfigFacts.encodeURIComponent_well_formed in Hwf as [? ?]. congruence.
  - apply encodeURIComponent_throws in Hwf. congruence.
Qed.

Lemma visit_section_untouched win s (w : kworld) :
  menu_untouched w (visit_section win s w).
Proof. unfold visit_section. by repeat case_match. Qed.

Lemma run_handler_sync cfg win target currentTarget h ha mt (w : kworld) :
  ha ≠ mt → in_sync ha mt w →
  in_sync ha mt (run_handler cfg win target currentTarget h w).1
  ∧ uncaught (st (run_handler cfg win target currentTarget h w).1) = uncaught (st w)
  ∧ ∀ e, (run_handler cfg win target currentTarget h w).2 = Throw e → e = URIError.
Proof.
  intros Hne Hsync.
  destruct (toggleMobileMenu_sync ha mt w Hne Hsync) as (Hok & Hs & Hu).
  assert (∀ b : bool,
            in_sync ha mt (when b toggleMobileMenu w).1
            ∧ uncaught (st (when b toggleMobileMenu w).1) = uncaught (st w)
            ∧ ∀ e, (when b toggleMobileMenu w).2 = Throw e → e = URIError) as Hwhen.
  { intros [|]; unfold when; [| done]. rewrite Hok. by split_and!. }
  destruct h; cbn [run_handler].
  - rewrite Hok. by split_and!.
  - split_and!; [| done | done].
    by apply (in_sync_untouched ha mt w).
  - unfold handleWhatsAppClick, mbind, M_bind, modify, gets, throw. cbn [fst snd].
    destruct (getWhatsAppLink _ _) as [link|e] eqn:Hlink; cbn [fst snd].
    + split_and!; [| done | done].
      apply (in_sync_untouched ha mt w); [done |].
      split_and!; [done | done | done |]. intros el _.
      unfold set_doc, set_app, set_heap; cbn. by apply classList_alter.
    + split_and!; [by apply (in_sync_untouched ha mt w) | done |].
      intros e' [= <-]. by apply getWhatsAppLink_URIError in Hlink.
  - unfold headerLinkClick, mbind, M_bind, gets. cbn [fst snd]. apply Hwhen.
  - unfold handleResize, mbind, M_bind, gets. cbn [fst snd]. apply Hwhen.
  - unfold handleScroll. cbn [fst snd]. rewrite HandlerFacts.visit_sections.
    split_and!; [| done | done]. by apply (in_sync_untouched ha mt w).
  - unfold handleProductClick, smoothScrollTo. cbn [fst snd].
    split_and!; [| by case_match | done].
    apply (in_sync_untouched ha mt w); [done |]. by case_match.
Qed.

Lemma foldl_invoke_sync cfg win target ha mt ls : ∀ w : kworld,
  ha ≠ mt → in_sync ha mt w →
  in_sync ha mt (foldl (invoke cfg win target) w ls)
  ∧ ∃ more, uncaught (st (foldl (invoke cfg win target) w ls)) = uncaught (st w) ++ more
            ∧ Forall (λ e, e = URIError) more.
Proof.
  induction ls as [|l ls IH]; intros w Hne Hsync.
  - split; [done |]. exists []. by rewrite app_nil_r.
  - cbn [foldl].
    destruct (run_handler_sync cfg win target (default target (on l))
                (listener_handler l) ha mt w Hne Hsync) as (Hs & Hu & He).
    unfold invoke at 2 4.
    destruct (run_handler _ _ _ _ _ w) as [w1 [[]|e]]; cbn [fst snd] in *.
    + destruct (IH w1 Hne Hs) as (Hs' & more & Hm & Hall).
      split; [done |]. exists more. by rewrite Hm, Hu.
    + destruct (IH (report e w1) Hne) as (Hs' & more & Hm & Hall).
      { by apply (in_sync_untouched ha mt w1). }
      split; [done |]. exists (e :: more). split.
      * rewrite Hm. cbn. rewrite Hu. by rewrite <- app_assoc.
      * constructor; [by apply He | done].
Qed.

Lemma showNotification_untouched message type (w : kworld) :
  menu_untouched w (showNotification message type w).
Proof.
  rewrite NotificationFacts.showNotification_unfold.
  split_and!; [done | done | done |]. intros el Hel. cbn.
  rewrite lookup_insert_ne; [done |].
  intros <-. apply elem_of_dom in Hel. by apply is_fresh in Hel.
Qed.

Lemma fire_untouched c (w : kworld) : menu_untouched w (fire c w).
Proof.
  destruct c; cbn [fire]; (split_and!; [done | done | done |]); intros el _.
  - unfold schedule, set_doc, set_app, set_style, set_heap; cbn.
    by apply classList_alter.
  - done.
Qed.

Lemma run_sync ha mt fuel t : ∀ w : kworld,
  in_sync ha mt w →
  in_sync ha mt (run fire fuel t w)
  ∧ uncaught (st (run fire fuel t w)) = uncaught (st w).
Proof.
  induction fuel as [|fuel IH]; intros w Hsync; [done |].
  cbn [run]. destruct (pop_due t (timers w)) as [[tm q']|]; [| done].
  set (w1 := World (now w `max` due tm) q' (st w)).
  destruct (IH (fire (cb tm) w1)) as [Hs Hu].
  { apply (in_sync_untouched ha mt w1); [done | apply fire_untouched]. }
  split; [done |]. rewrite Hu. by destruct (cb tm).
Qed.

Lemma step_sync cfg ha mt x (w : kworld) :
  ha ≠ mt → in_sync ha mt w →
  in_sync ha mt (step cfg w x)
  ∧ ∃ more, uncaught (st (step cfg w x)) = uncaught (st w) ++ more
            ∧ Forall (λ e, e = URIError) more.
Proof.
  intros Hne Hsync. unfold step.
  destruct (run_sync ha mt (S (2 * length (pending (timers w)))) x.1.1 w Hsync)
    as [Hs Hu].
  fold (advance x.1.1 w) in Hs, Hu. rewrite <- Hu.
  destruct x.2 as [target| | |message type]; cbn [handle].
  - by apply foldl_invoke_sync.
  - by apply foldl_invoke_sync.
  - by apply foldl_invoke_sync.
  - split.
    + eapply in_sync_untouched; [done | apply showNotification_untouched].
    + exists []. rewrite app_nil_r.
      by rewrite NotificationFacts.showNotification_unfold.
Qed.

Lemma play_sync cfg ha mt evs : ∀ w : kworld,
  ha ≠ mt → in_sync ha mt w →
  in_sync ha mt (play cfg evs w)
  ∧ ∃ more, uncaught (st (play cfg evs w)) = uncaught (st w) ++ more
            ∧ Forall (λ e, e = URIError) more.
Proof.
  induction evs as [|x evs IH]; intros w Hne Hsync.
  - split; [done |]. exists []. by rewrite app_nil_r.
  - change (play cfg (x :: evs) w) with (play cfg evs (step cfg w x)).
    destruct (step_sync cfg ha mt x w Hne Hsync) as (Hs & m1 & Hm1 & Ha1).
    destruct (IH _ Hne Hs) as (Hs' & m2 & Hm2 & Ha2).
    split; [done |]. exists (m1 ++ m2). split.
    + by rewrite Hm2, Hm1, app_assoc.
    + by apply Forall_app.
Qed.

(** X10. When the menu button and the actions block are two elements of
    the page and the flag agrees with the page (both carry the [active]
    class and the scroll of [body] is locked exactly when the flag says
    open), they agree after every sequence of clicks, resizes, scrolls,
    notifications and timers; and what the listeners throw on the way is
    only [URIError] (no toggle fails). *)
Theorem menu_stays_in_sync cfg ha mt evs t (w : kworld) :
  ha ≠ mt → in_sync ha mt w →
  in_sync ha mt (advance t (play cfg evs w))
  ∧ ∃ more, uncaught (st (advance t (play cfg evs w))) = uncaught (st w) ++ more
            ∧ Forall (λ e, e = URIError) more.
Proof.
  intros Hne Hsync.
  destruct (play_sync cfg ha mt evs w Hne Hsync) as (Hs & more & Hm & Hall).
  destruct (run_sync ha mt (S (2 * length (pending (timers (play cfg evs w))))) t
              (play cfg evs w) Hs) as [Hs' Hu].
  split; [exact Hs' |]. exists more. split; [| done].
  unfold advance. by rewrite Hu.
Qed.

Lemma menu_stays_in_sync_witness :
  let evs := [ (10, Pages.phone, ClickOn 1);
               (20, Pages.phone, Notify (lit "Hello") None);
               (30, Pages.phone, Scrolled);
               (40, Pages.phone, ClickOn 3) ] in
  in_sync 2 1 (advance 5000 (play CONFIG evs (Pages.wired Pages.header_page)))
  ∧ in_sync 2 1 (advance 35 (play CONFIG (take 3 evs) (Pages.wired Pages.header_page)))
  ∧ is_open (play CONFIG (take 3 evs) (Pages.wired Pages.header_page)) = true.
Proof.
  intros evs.
  assert (in_sync 2 1 (Pages.wired Pages.header_page)) as Hsync.
  { split; [reflexivity |]. split; [reflexivity |].
    split; [by eexists |]. split; [by eexists |].
    split; [reflexivity |]. split; reflexivity. }
  split; [| split].
  - apply (menu_stays_in_sync CONFIG 2 1 evs 5000); [lia | exact Hsync].
  - apply (menu_stays_in_sync CONFIG 2 1 (take 3 evs) 35); [lia | exact Hsync].
  - reflexivity.
Defined.

End MenuSyncFacts.

(** ** The product stagger *)

Module StaggerFacts.
Import Animations Stagger TimersFacts DomFacts RevealFacts.

Lemma restyled_is_Some d d' n :
  restyled d d' → is_Some (heap d' !! n) ↔ is_Some (heap d !! n).
Proof.
  intros [_ H]. specialize (H n).
  rewrite <- !(fmap_is_Some classList). by rewrite H.
Qed.

Lemma fire_shows c (w : aworld) :
  is_Some (heap (doc (st w)) !! target_of c) → shown (fire c w) (target_of c).
Proof.
  intros Hel. unfold shown.
  destruct c as [el|el]; unfold fire, set_doc; cbn [doc st target_of] in *.
  - rewrite get_style_set_style_ne by (right; apply opacity_ne_transform).
    by apply get_style_set_style_eq.
  - rewrite get_style_set_style_ne by (right; apply opacity_ne_transform).
    by apply get_style_set_style_eq.
Qed.

(** No timer body hides an element. *)
Lemma fire_shown c (w : aworld) el : shown w el → shown (fire c w) el.
Proof.
  intros Hs. destruct (decide (target_of c = el)) as [<-|Hne].
  - apply fire_shows. by eapply get_style_is_Some.
  - unfold shown. by rewrite fire_style_other.
Qed.

Lemma fire_productObserver c (w : aworld) :
  productObserver (st (fire c w)) = productObserver (st w).
Proof. by destruct c. Qed.

Lemma revealCallback_productObserver es : ∀ i (w : aworld),
  productObserver (st (revealCallback i es w)) = productObserver (st w).
Proof.
  induction es as [|e es IH]; intros i w; [done |].
  cbn [revealCallback]. rewrite IH. by destruct (isIntersecting e).
Qed.

Lemma stagger_schedule_lookup now cs : ∀ k i c,
  cs !! i = Some c →
  (now + (k + i) * 150, Stagger c) ∈ stagger_schedule now k cs.
Proof.
  induction cs as [|x cs IH]; intros k i c Hi; [done |].
  cbn [stagger_schedule]. destruct i as [|i].
  - injection Hi as ->. rewrite Nat.add_0_r. apply list_elem_of_here.
  - apply list_elem_of_further.
    replace (k + S i) with (S k + i) by lia. by apply IH.
Qed.

(** What a batch handed to the callback of [productObserver] does: it
    only registers timers; with an intersecting entry it disconnects the
    observer and registers, first of all, the stagger of the cards. *)
Lemma productCallback_grows es : ∀ w : aworld,
  now (productCallback es w) = now w
  ∧ doc (st (productCallback es w)) = doc (st w)
  ∧ productObserver (st (productCallback es w))
    = (if existsb isIntersecting es then [] else productObserver (st w))
  ∧ ∃ extra,
      schedule_of (timers (productCallback es w)) = schedule_of (timers w) ++ extra
      ∧ (existsb isIntersecting es = true →
         ∃ rest, extra = stagger_schedule (now w) 0 (cards (doc (st w))) ++ rest).
Proof.
  induction es as [|e es IH]; intros w.
  - split_and!; [done.. |]. exists []. by rewrite app_nil_r.
  - cbn [productCallback existsb]. destruct (isIntersecting e) eqn:He.
    + fold (cards (doc (st w))).
      destruct (staggerCards_spec (cards (doc (st w))) 0 w) as (Hn0 & Hst0 & Hs0).
      set (w1 := set_productObserver _ _).
      assert (now w1 = now w) as Hn1 by done.
      assert (doc (st w1) = doc (st w)) as Hd1 by (unfold w1; cbn; by rewrite Hst0).
      assert (schedule_of (timers w1)
              = schedule_of (timers w) ++ stagger_schedule (now w) 0 (cards (doc (st w))))
        as Hs1 by done.
      destruct (IH w1) as (Hn & Hd & Ho & extra & Hs & _).
      split_and!; [congruence | congruence | |].
      * rewrite Ho. cbn [orb]. by destruct (existsb isIntersecting es).
      * exists (stagger_schedule (now w) 0 (cards (doc (st w))) ++ extra).
        split; [by rewrite Hs, Hs1, app_assoc |]. intros _. by exists extra.
    + cbn [orb]. apply IH.
Qed.

Lemma delivered_reports el targets changes :
  el ∈ targets → reports el changes →
  existsb isIntersecting (delivered targets changes) = true.
Proof.
  intros Hel Hrep. apply existsb_exists. exists (Entry el true).
  split; [| done]. apply list_elem_of_In.
  by apply (reports_delivered el targets changes).
Qed.

Lemma delivered_nil changes : delivered [] changes = [].
Proof.
  unfold delivered. induction changes as [|e changes IH]; [done |].
  cbn [List.filter]. rewrite bool_decide_eq_false_2; [done |]. apply not_elem_of_nil.
Qed.

(** What every handler leaves: the opacities, the element objects, and
    the timers there are. *)
Lemma handle_keeps e (w : aworld) :
  (∀ el, get_style (doc (st (handle e w))) el (lit "opacity")
         = get_style (doc (st w)) el (lit "opacity"))
  ∧ restyled (doc (st w)) (doc (st (handle e w)))
  ∧ ∃ extra, schedule_of (timers (handle e w)) = schedule_of (timers w) ++ extra.
Proof.
  destruct e as [changes|changes|y|]; cbn [handle].
  - destruct (revealCallback_spec (delivered (revealObserver (st w)) changes) 0 w)
      as (_ & Hd & Hs & _).
    rewrite Hd. split_and!; [done | done |]. by eexists.
  - destruct (productCallback_grows (delivered (productObserver (st w)) changes) w)
      as (_ & Hd & _ & extra & Hs & _).
    rewrite Hd. split_and!; [done | done |]. by eexists.
  - destruct (headerScroll (st w)) as [header|].
    + destruct (handleScroll_frame header y w) as (_ & Ht & _ & _ & Hst).
      split_and!.
      * intros el. apply Hst. by left.
      * unfold handleScroll. destruct (50 <? y); apply restyled_set_style.
      * exists []. by rewrite Ht, app_nil_r.
    + split_and!; [done | done |]. exists []. by rewrite app_nil_r.
  - split_and!; [done | done |]. exists []. by rewrite app_nil_r.
Qed.

Lemma run_shown el fuel t : ∀ w : aworld,
  shown w el → shown (run fire fuel t w) el.
Proof.
  induction fuel as [|fuel IH]; intros w Hs; [done |].
  cbn [run]. destruct (pop_due t (timers w)) as [[tm q']|]; [| done].
  apply IH. by apply (fire_shown (cb tm) (World (now w `max` due tm) q' (st w))).
Qed.

Lemma play_shown el evs : ∀ w : aworld, shown w el → shown (play evs w) el.
Proof.
  induction evs as [|x evs IH]; intros w Hs; [done |].
  change (play (x :: evs) w) with (play evs (step w x)). apply IH.
  unfold step, shown.
  destruct (handle_keeps x.2 (advance x.1 w)) as (-> & _). by apply run_shown.
Qed.

(** X11. Once an element is visible (opacity 1, where both the reveal and
    the stagger end) it stays visible: no observer callback, scroll
    listener or timer of the animations hides an element again. *)
Theorem shown_stays_shown el evs t (w : aworld) :
  shown w el → shown (advance t (play evs w)) el.
Proof. intros Hs. by apply run_shown, play_shown. Qed.

Lemma shown_stays_shown_witness :
  let w0 := init true (load Pages.products_page 0) in
  let w1 := advance 400 (play [(100, ProductChanges [Entry 1 true])] w0) in
  shown (advance 5000 (play [(500, RevealChanges [Entry 2 false; Entry 3 true]);
                             (600, Scroll 80);
                             (700, ProductChanges [Entry 1 true])] w1)) 2.
Proof.
  intros w0 w1. apply shown_stays_shown. reflexivity.
Defined.

(** *** The timeline of the stagger *)

Lemma stagger_due_fire c D t (w : aworld) tm q' :
  stagger_due c D w → pop_due t (timers w) = Some (tm, q') →
  stagger_due c D (fire (cb tm) (World (now w `max` due tm) q' (st w))).
Proof.
  intros [Hel Hph] Hpop.
  set (w1 := World (now w `max` due tm) q' (st w)).
  pose proof (fire_frame (cb tm) w1) as (_ & Ht & _ & Hr).
  split; [by apply (restyled_is_Some _ _ c) in Hr; apply Hr |].
  destruct (decide (target_of (cb tm) = c)) as [<-|Hne].
  { left. by apply fire_shows. }
  destruct Hph as [Hs|Hin].
  - left. by apply (fire_shown (cb tm) w1).
  - right. rewrite Ht. cbn [timers w1].
    apply pop_due_Some in Hpop as (_ & _ & l1 & l2 & Hq & Hq' & _).
    unfold schedule_of in *. rewrite Hq in Hin. rewrite Hq'.
    apply list_elem_of_fmap in Hin as (tm' & Heq & Hin).
    apply list_elem_of_fmap. exists tm'. split; [done |].
    rewrite elem_of_app, elem_of_cons in Hin. rewrite elem_of_app.
    destruct Hin as [?|[->|?]]; [by left | | by right].
    injection Heq as _ Hcb. rewrite <- Hcb in Hne. done.
Qed.

Lemma stagger_due_advance c D t (w : aworld) :
  stagger_due c D w →
  stagger_due c D (advance t w) ∧ settled t (timers (advance t w)).
Proof.
  intros Hw.
  destruct (run_invariant fire t (stagger_due c D) (λ w, length (pending (timers w))))
    with (fuel := S (length (pending (timers w)))) (w := w) as (H1 & H2 & _).
  - intros w' tm q' HI Hpop. split; [by eapply stagger_due_fire |].
    destruct (fire_frame (cb tm) (World (now w' `max` due tm) q' (st w')))
      as (_ & -> & _). by eapply pop_due_shorter.
  - intros w' HI Hpop. exact HI.
  - lia.
  - done.
  - done.
Qed.

Lemma stagger_due_handle c D e (w : aworld) :
  stagger_due c D w → stagger_due c D (handle e w).
Proof.
  intros [Hel Hph]. destruct (handle_keeps e w) as (Hop & Hr & extra & Hs).
  split; [by apply (restyled_is_Some _ _ c) in Hr; apply Hr |].
  destruct Hph as [Hsh|Hin].
  - left. unfold shown. by rewrite Hop.
  - right. rewrite Hs. apply elem_of_app. by left.
Qed.

Lemma stagger_due_play c D evs : ∀ w : aworld,
  stagger_due c D w → stagger_due c D (play evs w).
Proof.
  induction evs as [|x evs IH]; intros w Hw; [done |].
  change (play (x :: evs) w) with (play evs (step w x)). apply IH.
  unfold step. by apply stagger_due_handle, stagger_due_advance.
Qed.

Lemma cards_is_Some (d : document) c : c ∈ cards d → is_Some (heap d !! c).
Proof.
  unfold cards, querySelectorAll.
  intros [_ Hm]%list_elem_of_In%filter_In. cbn [matches] in Hm.
  destruct (heap d !! c); [by eexists | done].
Qed.

(** X12. When the observed products section is reported as intersecting
    in state [w], the product cards become visible one after the other:
    the card at position [i] in document order is visible at every time
    from 150·i ms after the report on, whatever else happens in between
    and afterwards. *)
Theorem product_cards_staggered (w : aworld) p changes i c evs t :
  p ∈ productObserver (st w) →
  reports p changes →
  cards (doc (st w)) !! i = Some c →
  now w + i * 150 ≤ t →
  shown (advance t (play evs (handle (ProductChanges changes) w))) c.
Proof.
  intros Hp Hrep Hi Ht.
  assert (stagger_due c (now w + i * 150) (handle (ProductChanges changes) w)) as Hdue.
  { cbn [handle].
    destruct (productCallback_grows (delivered (productObserver (st w)) changes) w)
      as (_ & Hd & _ & extra & Hs & Hex).
    destruct Hex as [rest ->]; [by eapply delivered_reports |].
    split.
    - rewrite Hd. apply cards_is_Some. by eapply list_elem_of_lookup_2.
    - right. rewrite Hs, !elem_of_app. right; left.
      by apply (stagger_schedule_lookup (now w) _ 0 i c). }
  apply (stagger_due_play c _ evs) in Hdue.
  apply (stagger_due_advance c _ t) in Hdue as [[_ [Hs|Hin]] Hset]; [done |].
  exfalso. unfold settled in Hset. rewrite Forall_forall in Hset.
  apply list_elem_of_fmap in Hin as (tm & Heq & Hin).
  specialize (Hset tm Hin). injection Heq as Heq _. lia.
Qed.

Lemma product_cards_staggered_witness :
  let w := advance 100 (init true (load Pages.products_page 0)) in
  cards (doc (st w)) = [2; 3]
  ∧ ¬ shown (advance 249 (handle (ProductChanges [Entry 1 true]) w)) 3
  ∧ shown (advance 250
             (play [(120, RevealChanges [Entry 3 false])]
                (handle (ProductChanges [Entry 1 true]) w))) 3.
Proof.
  intros w. split; [reflexivity |]. split; [by vm_compute |].
  apply (product_cards_staggered w 1 [Entry 1 true] 1 3).
  - by_decision.
  - by_decision.
  - reflexivity.
  - vm_compute. lia.
Defined.

(** *** The stagger runs once *)

Lemma run_productObserver fuel t : ∀ w : aworld,
  productObserver (st (run fire fuel t w)) = productObserver (st w).
Proof.
  induction fuel as [|fuel IH]; intros w; [done |].
  cbn [run]. destruct (pop_due t (timers w)) as [[tm q']|]; [| done].
  by rewrite IH, fire_productObserver.
Qed.

Lemma handle_disconnected e (w : aworld) :
  productObserver (st w) = [] → productObserver (st (handle e w)) = [].
Proof.
  intros Hno. destruct e as [changes|changes|y|]; cbn [handle].
  - by rewrite revealCallback_productObserver.
  - by rewrite Hno, delivered_nil.
  - destruct (headerScroll (st w)); [| done].
    unfold handleScroll. by destruct (50 <? y).
  - done.
Qed.

Lemma play_disconnected evs : ∀ w : aworld,
  productObserver (st w) = [] → productObserver (st (play evs w)) = [].
Proof.
  induction evs as [|x evs IH]; intros w Hno; [done |].
  change (play (x :: evs) w) with (play evs (step w x)). apply IH.
  unfold step. apply handle_disconnected. unfold advance.
  by rewrite run_productObserver.
Qed.

(** X13. The stagger runs once: the report of the products section as
    intersecting disconnects the observer for good, so that every later
    batch of changes for it leaves the page, the observers and the timers
    as they are. *)
Theorem product_stagger_once (w : aworld) p changes evs later :
  p ∈ productObserver (st w) →
  reports p changes →
  let w' := play evs (handle (ProductChanges changes) w) in
  productObserver (st w') = []
  ∧ handle (ProductChanges later) w' = w'.
Proof.
  intros Hp Hrep w'.
  assert (productObserver (st w') = []) as Hno.
  { apply play_disconnected. cbn [handle].
    destruct (productCallback_grows (delivered (productObserver (st w)) changes) w)
      as (_ & _ & -> & _).
    by rewrite (delivered_reports p). }
  split; [done |]. cbn [handle]. by rewrite Hno, delivered_nil.
Qed.

Lemma product_stagger_once_witness :
  let w := advance 100 (init true (load Pages.products_page 0)) in
  let w' := play [(300, Scroll 10)] (handle (ProductChanges [Entry 1 true]) w) in
  productObserver (st w) = [1]
  ∧ productObserver (st w') = []
  ∧ handle (ProductChanges [Entry 1 false; Entry 1 true]) w' = w'.
Proof.
  intros w w'. split; [reflexivity |].
  apply (product_stagger_once w 1 [Entry 1 true]); by_decision.
Defined.

(** *** The cards at load time *)

Lemma hideCard_hidden (d : document) c :
  is_Some (heap d !! c) →
  get_style (hideCard c d) c (lit "opacity") = Some (lit "0")
  ∧ get_style (hideCard c d) c (lit "transform")
    = Some (lit "translateY(40px) scale(0.95)")
  ∧ get_style (hideCard c d) c (lit "transition")
    = Some (lit "all 0.6s cubic-bezier(0.4, 0, 0.2, 1)").
Proof.
  intros Hel. unfold hideCard. split_and!.
  - rewrite get_style_set_style_ne by (right; apply transition_ne; auto).
    rewrite get_style_set_style_ne by (right; apply opacity_ne_transform).
    by apply get_style_set_style_eq.
  - rewrite get_style_set_style_ne by (right; apply transition_ne; auto).
    apply get_style_set_style_eq. by apply heap_set_style_is_Some.
  - apply get_style_set_style_eq. by rewrite !heap_set_style_is_Some.
Qed.

Lemma hideCard_is_Some (d : document) x el :
  is_Some (heap (hideCard x d) !! el) ↔ is_Some (heap d !! el).
Proof. unfold hideCard. by rewrite !heap_set_style_is_Some. Qed.

Lemma foldl_hideCard_in (c : nat) cs : ∀ d : document,
  is_Some (heap d !! c) →
  c ∈ cs
  ∨ (get_style d c (lit "opacity") = Some (lit "0")
     ∧ get_style d c (lit "transform") = Some (lit "translateY(40px) scale(0.95)")
     ∧ get_style d c (lit "transition")
       = Some (lit "all 0.6s cubic-bezier(0.4, 0, 0.2, 1)")) →
  let d' := foldl (λ d card, hideCard card d) d cs in
  get_style d' c (lit "opacity") = Some (lit "0")
  ∧ get_style d' c (lit "transform") = Some (lit "translateY(40px) scale(0.95)")
  ∧ get_style d' c (lit "transition")
    = Some (lit "all 0.6s cubic-bezier(0.4, 0, 0.2, 1)").
Proof.
  induction cs as [|x cs IH]; intros d Hel H.
  - destruct H as [?%elem_of_nil|H]; done.
  - cbn [foldl]. apply IH; [by apply hideCard_is_Some |].
    destruct (decide (x = c)) as [->|Hne].
    + right. by apply hideCard_hidden.
    + destruct H as [[?|?]%elem_of_cons|H]; [congruence | by left |].
      right. unfold hideCard. by rewrite !get_style_set_style_ne by auto.
Qed.

Lemma cards_watched (d : document) c :
  c ∈ cards d → c ∈ querySelectorAll d revealSelector.
Proof.
  unfold cards, querySelectorAll.
  intros [Hin Hm]%list_elem_of_In%filter_In.
  apply list_elem_of_In, filter_In. split; [done |].
  unfold revealSelector. cbn [matches] in *. rewrite Hm.
  by rewrite orb_true_l, orb_true_r.
Qed.

(** X14. At load time every product card gets the starting state of the
    stagger, not that of the scroll reveal (which [init] applies first):
    opacity 0, moved down 40 px and scaled to 0.95; it is watched by the
    reveal observer all the same, and no timer is pending for it. *)
Theorem init_hides_cards (d : document) (t0 c : nat) :
  c ∈ cards d →
  let w := init true (load d t0) in
  card_hidden w c
  ∧ c ∈ revealObserver (st w)
  ∧ timers w = Queue 1 [].
Proof.
  intros Hc w.
  assert (is_Some (heap d !! c)) as Hsome by by apply cards_is_Some.
  set (dA := foldl (λ d x, hide x d) d (querySelectorAll d revealSelector)).
  set (dC := foldl (λ d card, hideCard card d) dA (cards dA)).
  assert (restyled d dA) as HrA by apply (restyled_foldl _ _ (λ d x, restyled_hide d x)).
  assert (cards dA = cards d) as HcA by by apply restyled_cards.
  assert (doc (st w) = dC
          ∧ revealObserver (st w)
            = foldl (λ ts x, observe x ts) [] (querySelectorAll d revealSelector)
          ∧ timers w = Queue 1 []) as (Hdoc & Hobs & Htm).
  { unfold w, init, initProductStagger, initHeaderScroll, initScrollReveal, load.
    cbn [negb]. cbv beta iota zeta.
    destruct (querySelector _ (SelId (lit "header"))); simpl;
      destruct (querySelector _ (SelId (lit "products"))); simpl; done. }
  unfold card_hidden. rewrite Hdoc, Hobs, Htm.
  split; [| split; [| done]].
  - apply foldl_hideCard_in.
    + by apply (restyled_is_Some _ _ c) in HrA; apply HrA.
    + left. by rewrite HcA.
  - apply foldl_observe. right. by apply cards_watched.
Qed.

Lemma init_hides_cards_witness :
  card_hidden (init true (load Pages.products_page 0)) 3.
Proof.
  apply (init_hides_cards Pages.products_page 0 3). by_decision.
Defined.

End StaggerFacts.

(** ** The shadow of the header *)

Module HeaderShadowFacts.
Import Animations HeaderShadow TimersFacts DomFacts RevealFacts StaggerFacts.

Lemma boxShadow_other prop :
  prop = lit "opacity" ∨ prop = lit "transform" ∨ prop = lit "transition" →
  lit "boxShadow" ≠ prop.
Proof. intros [->|[->| ->]] H; by vm_compute in H. Qed.

Lemma fire_boxShadow c (w : aworld) el :
  get_style (doc (st (fire c w))) el (lit "boxShadow")
  = get_style (doc (st w)) el (lit "boxShadow").
Proof.
  destruct c; unfold fire, set_doc; cbn [doc st];
    by rewrite !get_style_set_style_ne by (right; apply boxShadow_other; auto).
Qed.

Lemma fire_headerScroll c (w : aworld) :
  headerScroll (st (fire c w)) = headerScroll (st w).
Proof. by destruct c. Qed.

Lemma run_header h fuel t : ∀ w : aworld,
  headerScroll (st (run fire fuel t w)) = headerScroll (st w)
  ∧ get_style (doc (st (run fire fuel t w))) h (lit "boxShadow")
    = get_style (doc (st w)) h (lit "boxShadow")
  ∧ (is_Some (heap (doc (st (run fire fuel t w))) !! h)
     ↔ is_Some (heap (doc (st w)) !! h)).
Proof.
  induction fuel as [|fuel IH]; intros w; [done |].
  cbn [run]. destruct (pop_due t (timers w)) as [[tm q']|]; [| done].
  set (w1 := World (now w `max` due tm) q' (st w)).
  destruct (IH (fire (cb tm) w1)) as (-> & -> & ->).
  rewrite fire_headerScroll, fire_boxShadow.
  split_and!; [done | done |].
  apply restyled_is_Some. apply (fire_frame (cb tm) w1).
Qed.

Lemma revealCallback_headerScroll es : ∀ i (w : aworld),
  headerScroll (st (revealCallback i es w)) = headerScroll (st w).
Proof.
  induction es as [|e es IH]; intros i w; [done |].
  cbn [revealCallback]. rewrite IH. by destruct (isIntersecting e).
Qed.

Lemma staggerCards_headerScroll cs : ∀ i (w : aworld),
  headerScroll (st (staggerCards i cs w)) = headerScroll (st w).
Proof.
  induction cs as [|c cs IH]; intros i w; [done |].
  cbn [staggerCards]. by rewrite IH.
Qed.

Lemma productCallback_headerScroll es : ∀ w : aworld,
  headerScroll (st (productCallback es w)) = headerScroll (st w).
Proof.
  induction es as [|e es IH]; intros w; [done |].
  cbn [productCallback]. rewrite IH. destruct (isIntersecting e); [| done].
  cbn. by rewrite staggerCards_headerScroll.
Qed.

Lemma handle_header h e (w : aworld) :
  headerScroll (st w) = Some h →
  is_Some (heap (doc (st w)) !! h) →
  headerScroll (st (handle e w)) = Some h
  ∧ is_Some (heap (doc (st (handle e w))) !! h)
  ∧ get_style (doc (st (handle e w))) h (lit "boxShadow")
    = match scroll_of (0, e) with
      | Some y => Some (shadow y)
      | None => get_style (doc (st w)) h (lit "boxShadow")
      end.
Proof.
  intros Hh Hel.
  split; [| split].
  - destruct e as [changes|changes|y|]; cbn [handle].
    + by rewrite revealCallback_headerScroll.
    + by rewrite productCallback_headerScroll.
    + rewrite Hh. unfold handleScroll. by destruct (50 <? y).
    + done.
  - destruct (handle_keeps e w) as (_ & Hr & _).
    by apply (restyled_is_Some _ _ h) in Hr; apply Hr.
  - destruct e as [changes|changes|y|]; cbn [handle scroll_of snd].
    + by destruct (revealCallback_spec (delivered (revealObserver (st w)) changes) 0 w)
        as (_ & -> & _).
    + by destruct (productCallback_grows (delivered (productObserver (st w)) changes) w)
        as (_ & -> & _).
    + rewrite Hh. unfold handleScroll, shadow.
      destruct (50 <? y); unfold set_doc; cbn [doc st];
        by apply get_style_set_style_eq.
    + done.
Qed.

Lemma play_header h evs : ∀ w : aworld,
  headerScroll (st w) = Some h →
  is_Some (heap (doc (st w)) !! h) →
  headerScroll (st (play evs w)) = Some h
  ∧ is_Some (heap (doc (st (play evs w))) !! h)
  ∧ get_style (doc (st (play evs w))) h (lit "boxShadow")
    = match last_scroll evs with
      | Some y => Some (shadow y)
      | None => get_style (doc (st w)) h (lit "boxShadow")
      end.
Proof.
  induction evs as [|x evs IH]; intros w Hh Hel; [done |].
  change (play (x :: evs) w) with (play evs (step w x)).
  destruct (run_header h (S (length (pending (timers w)))) x.1 w) as (Hh1 & Hb1 & Hs1).
  fold (advance x.1 w) in Hh1, Hb1, Hs1.
  destruct (handle_header h x.2 (advance x.1 w)) as (Hh2 & Hs2 & Hb2);
    [congruence | by apply Hs1 |].
  destruct (IH (step w x) Hh2 Hs2) as (Hh3 & Hs3 & Hb3).
  split; [done |]. split; [done |]. rewrite Hb3.
  unfold last_scroll. cbn [omap list_omap]. unfold step. rewrite Hb2, Hb1.
  change (scroll_of (0, x.2)) with (scroll_of x).
  destruct (scroll_of x) as [y|]; [| done].
  rewrite last_cons. by destruct (last (omap scroll_of evs)).
Qed.

Lemma hide_matches_id (d : document) x i n :
  matches (hide x d) (SelId i) n = matches d (SelId i) n.
Proof.
  unfold hide, set_style, set_heap, matches; cbn [heap].
  destruct (decide (n = x)) as [->|Hne].
  - rewrite !lookup_alter_eq. by destruct (heap d !! x).
  - by rewrite !lookup_alter_ne.
Qed.

Lemma foldl_hide_header els i : ∀ d : document,
  querySelector (foldl (λ d x, hide x d) d els) (SelId i) = querySelector d (SelId i)
  ∧ ∀ h, get_style (foldl (λ d x, hide x d) d els) h (lit "boxShadow")
         = get_style d h (lit "boxShadow").
Proof.
  induction els as [|x els IH]; intros d; [done |].
  cbn [foldl]. destruct (IH (hide x d)) as [-> Hb]. split.
  - unfold querySelector, querySelectorAll.
    replace (tree (hide x d)) with (tree d) by done.
    f_equal. apply filter_ext. intros n. apply hide_matches_id.
  - intros h. rewrite Hb. unfold hide.
    by rewrite !get_style_set_style_ne by (right; apply boxShadow_other; auto).
Qed.

Lemma foldl_hideCard_boxShadow cs h : ∀ d : document,
  get_style (foldl (λ d card, hideCard card d) d cs) h (lit "boxShadow")
  = get_style d h (lit "boxShadow").
Proof.
  induction cs as [|c cs IH]; intros d; [done |].
  cbn [foldl]. rewrite IH. unfold hideCard.
  by rewrite !get_style_set_style_ne by (right; apply boxShadow_other; auto).
Qed.

Lemma querySelector_id_is_Some (d : document) i h :
  querySelector d (SelId i) = Some h → is_Some (heap d !! h).
Proof.
  unfold querySelector, querySelectorAll. intros Hq.
  apply head_Some_elem_of, list_elem_of_In, filter_In in Hq as [_ Hm].
  cbn [matches] in Hm. destruct (heap d !! h); [by eexists | done].
Qed.

(** The shadow after any runs of the listener. *)
Lemma header_shadow_runs (d : document) (t0 h : nat) evs t :
  querySelector d (SelId (lit "header")) = Some h →
  get_style (doc (st (advance t (play evs (init true (load d t0)))))) h (lit "boxShadow")
  = match last_scroll evs with
    | Some y => Some (shadow y)
    | None => get_style d h (lit "boxShadow")
    end.
Proof.
  intros Hq. set (w0 := init true (load d t0)).
  set (dA := foldl (λ d x, hide x d) d (querySelectorAll d revealSelector)).
  destruct (foldl_hide_header (querySelectorAll d revealSelector) (lit "header") d)
    as [HqA HbA]. fold dA in HqA, HbA.
  assert (headerScroll (st w0) = Some h
          ∧ doc (st w0) = foldl (λ d card, hideCard card d) dA (cards dA))
    as [Hh Hdoc].
  { unfold w0, init, initProductStagger, initHeaderScroll, initScrollReveal, load.
    cbn [negb]. cbv beta iota zeta. cbn [doc st set_doc set_revealObserver].
    fold dA. rewrite HqA, Hq. cbn.
    by destruct (querySelector _ (SelId (lit "products"))). }
  assert (get_style (doc (st w0)) h (lit "boxShadow") = get_style d h (lit "boxShadow"))
    as Hb0 by by rewrite Hdoc, foldl_hideCard_boxShadow, HbA.
  assert (is_Some (heap (doc (st w0)) !! h)) as Hel.
  { rewrite Hdoc.
    eapply restyled_is_Some;
      [apply (restyled_foldl _ _ (λ d x, restyled_hideCard d x)) |].
    eapply restyled_is_Some;
      [apply (restyled_foldl _ _ (λ d x, restyled_hide d x)) |].
    by eapply querySelector_id_is_Some. }
  destruct (play_header h evs w0 Hh Hel) as (_ & _ & Hb).
  destruct (run_header h (S (length (pending (timers (play evs w0))))) t (play evs w0))
    as (_ & Hb' & _).
  unfold advance. by rewrite Hb', Hb, Hb0.
Qed.

(** *** The scroll events that reach the handler *)

Lemma tadvance_idle (tr : list (nat * nat)) (tw : Utils.tworld nat) t :
  Utils.idle tr tw → Utils.inThrottle (st (Utils.tadvance t tw)) = false.
Proof.
  intros (Hin & _ & Hp). destruct tw as [n [i l] [b cs]]; simpl in *; subst.
  done.
Qed.

Lemma tadvance_throttling limit t1 (tr : list (nat * nat)) (tw : Utils.tworld nat) t :
  Utils.throttling limit t1 tr tw →
  Utils.inThrottle (st (Utils.tadvance t tw)) = (t <? t1 + limit).
Proof.
  intros (Hnow & Hin & Htr & i' & Hp).
  destruct tw as [n [i l] [b cs]]; simpl in *; subst.
  unfold Utils.tadvance; simpl. destruct (Nat.ltb_spec t (t1 + limit)).
  - by rewrite pop_due_single_late by (simpl; lia).
  - by rewrite pop_due_single_due by (simpl; lia).
Qed.

Lemma runs_throttling evs : ∀ t1 tr (tw : Utils.tworld nat),
  Utils.throttling 100 t1 tr tw →
  omap scroll_of (runs evs tw)
  = snd <$> RateLimits.passed 100 (Some (t1 + 100)) (omap scroll_at evs).
Proof.
  induction evs as [|[t e] evs IH]; intros t1 tr tw Hw; [done |].
  destruct e as [changes|changes|y|]; cbn [runs snd fst];
    try (cbn [omap list_omap scroll_of scroll_at snd]; by apply (IH t1 tr)).
  rewrite (tadvance_throttling 100 t1 tr) by done.
  change (omap scroll_at ((t, Scroll y) :: evs)) with ((t, y) :: omap scroll_at evs).
  cbn [RateLimits.passed fst]. destruct (Nat.ltb_spec t (t1 + 100)).
  - change (omap scroll_of ((t, Idle) :: ?l)) with (omap scroll_of l).
    apply (IH t1 tr). by apply (ThrottleFacts.tcall_inside 100 t1 tr (t, y)).
  - change (omap scroll_of ((t, Scroll y) :: ?l)) with (y :: omap scroll_of l).
    rewrite fmap_cons. f_equal.
    apply (IH t (tr ++ [(t, y)])).
    by apply (ThrottleFacts.tcall_after 100 t1 tr (t, y)).
Qed.

Lemma runs_idle evs : ∀ tr (tw : Utils.tworld nat),
  Utils.idle tr tw →
  Forall (λ c : nat * nat, now tw ≤ c.1) (omap scroll_at evs) →
  omap scroll_of (runs evs tw)
  = snd <$> RateLimits.passed 100 None (omap scroll_at evs).
Proof.
  induction evs as [|[t e] evs IH]; intros tr tw Hw Hle; [done |].
  destruct e as [changes|changes|y|]; cbn [runs snd fst];
    try (cbn [omap list_omap scroll_of scroll_at snd]; by apply (IH tr)).
  rewrite (tadvance_idle tr) by done.
  change (omap scroll_at ((t, Scroll y) :: evs)) with ((t, y) :: omap scroll_at evs) in *.
  apply Forall_cons in Hle as [Hle _].
  cbn [RateLimits.passed fst].
  change (omap scroll_of ((t, Scroll y) :: ?l)) with (y :: omap scroll_of l).
  rewrite fmap_cons. f_equal.
  apply (runs_throttling evs t (tr ++ [(t, y)])).
  by apply (ThrottleFacts.tcall_idle 100 tr (t, y)).
Qed.

(** X15. On a page with a [#header], after [init] the shadow of the
    header shows the position of the last scroll event that the wrapper
    of [Utils.throttle(..., 100)] let through, for scroll events in time
    order and none exactly 100 ms after an earlier one: the first, and
    then each one that comes more than 100 ms after the last one let
    through.  The shadow is the strong one if that position is above 50,
    the light one otherwise, and before the first scroll event what the
    page came with.  No observer callback and no timer touches it. *)
Theorem header_shadow_last_scroll (d : document) (t0 h : nat) evs t :
  querySelector d (SelId (lit "header")) = Some h →
  RateLimits.timely 100 t0 (omap scroll_at evs) →
  get_style
    (doc (st (advance t (play (runs evs (Utils.throttle t0)) (init true (load d t0))))))
    h (lit "boxShadow")
  = match last (RateLimits.passed 100 None (omap scroll_at evs)) with
    | Some s => Some (shadow s.2)
    | None => get_style d h (lit "boxShadow")
    end.
Proof.
  intros Hq Ht. rewrite header_shadow_runs by done.
  unfold last_scroll.
  rewrite (runs_idle evs [] (Utils.throttle t0));
    [| done | by apply (RateLimitFacts.timely_from 100)].
  rewrite fmap_last.
  by destruct (last (RateLimits.passed 100 None (omap scroll_at evs))).
Qed.

Lemma header_shadow_last_scroll_witness :
  let d := Document
             (list_to_map
                [ (1, Pages.element "header" "header" [] None);
                  (2, Pages.element "div" EmptyString ["service-card"] None) ])
             [1; 2] [] ∅ in
  let evs := [(10, Scroll 300); (20, RevealChanges [Entry 2 true]); (30, Scroll 12)] in
  get_style
    (doc (st (advance 900 (play (runs evs (Utils.throttle 0)) (init true (load d 0))))))
    1 (lit "boxShadow")
  = Some (lit "0 2px 10px rgba(0, 0, 0, 0.1)")
  ∧ get_style
      (doc (st (advance 900
                  (play (runs (evs ++ [(111, Scroll 12)]) (Utils.throttle 0))
                     (init true (load d 0))))))
      1 (lit "boxShadow")
    = Some (lit "0 1px 2px rgba(0, 0, 0, 0.05)").
Proof.
  intros d evs. split.
  - rewrite (header_shadow_last_scroll d 0 1); [reflexivity | reflexivity |].
    cbn. repeat split; repeat constructor; cbn; lia.
  - rewrite (header_shadow_last_scroll d 0 1); [reflexivity | reflexivity |].
    cbn. repeat split; repeat constructor; cbn; lia.
Defined.

End HeaderShadowFacts.

(** ** [updateContactLinks] *)

Module ContactLinkFacts.
Import CONFIG KelahApp ContactLinks.

Lemma starts_with_app p s : starts_with p (p ++ s) = true.
Proof. induction p as [|c p IH]; [done |]. cbn. by rewrite N.eqb_refl. Qed.

Lemma starts_with_app_r p a b :
  starts_with p a = true → starts_with p (a ++ b) = true.
Proof.
  revert a. induction p as [|c p IH]; intros a; [done |].
  destruct a as [|c' a]; [done |]. cbn.
  intros [-> H]%andb_true_iff. by rewrite (IH a).
Qed.

Lemma includes_app_r p a b : includes p a = true → includes p (a ++ b) = true.
Proof.
  induction a as [|c a IH].
  - cbn. rewrite orb_false_r. intros H.
    destruct p; [| done]. by destruct b.
  - intros Hinc. change ((c :: a) ++ b) with (c :: (a ++ b)).
    cbn [includes] in *. apply orb_true_iff in Hinc as [H|H].
    + apply (starts_with_app_r p (c :: a) b) in H.
      change ((c :: a) ++ b) with (c :: (a ++ b)) in H. by rewrite H.
    + rewrite IH by done. apply orb_true_r.
Qed.

Lemma with_href_idemp value nd : with_href value (with_href value nd) = with_href value nd.
Proof. done. Qed.

Lemma with_href_same nd : with_href (href nd) nd = nd.
Proof. by destruct nd. Qed.

Lemma lookup_relinked value els : ∀ (d : document) el,
  heap (relinked value els d) !! el
  = (if bool_decide (el ∈ els) then with_href value else id) <$> heap d !! el.
Proof.
  induction els as [|x els IH] using rev_ind; intros d el.
  - cbn. by rewrite option_fmap_id.
  - unfold relinked, set_heap in *. cbn [heap] in *. rewrite foldl_app. cbn [foldl].
    destruct (decide (el = x)) as [->|Hne].
    + rewrite lookup_alter_eq, IH.
      rewrite (bool_decide_eq_true_2 (x ∈ els ++ [x]))
        by (apply elem_of_app; right; apply list_elem_of_here).
      destruct (heap d !! x) as [nd|]; [| done]. cbn.
      by case_bool_decide.
    + rewrite lookup_alter_ne, IH by done.
      assert (el ∈ els ++ [x] ↔ el ∈ els) as Hiff.
      { rewrite elem_of_app, list_elem_of_singleton.
        split; [intros [?|?]; [done | congruence] | by left]. }
      by rewrite (bool_decide_ext _ _ Hiff).
Qed.

Lemma tree_relinked value els d : tree (relinked value els d) = tree d.
Proof. done. Qed.

(** Setting a value that is there already changes nothing. *)
Lemma relinked_id value els : ∀ d : document,
  (∀ el nd, el ∈ els → heap d !! el = Some nd → href nd = value) →
  relinked value els d = d.
Proof.
  intros d Hall.
  assert (foldl (λ h el, alter (with_href value) el h) (heap d) els = heap d) as Hh.
  { induction els as [|x els IH]; [done |]. cbn [foldl].
    rewrite alter_id.
    - apply IH. intros el nd Hel. apply Hall. by apply list_elem_of_further.
    - intros nd Hnd. rewrite <- (Hall x nd); [apply with_href_same | | done].
      apply list_elem_of_here. }
  unfold relinked, set_heap. rewrite Hh. by destruct d.
Qed.

Lemma elem_of_getElements test d el :
  el ∈ getElements test d ↔ el ∈ tree d ∧ link_matches test d el = true.
Proof. unfold getElements. by rewrite list_elem_of_In, filter_In, <- list_elem_of_In. Qed.

Lemma for_each_modify (g : nat → kworld → kworld) els : ∀ w : kworld,
  for_each els (λ el, modify (g el)) w = (foldl (λ w el, g el w) w els, Ok ()).
Proof.
  induction els as [|x els IH]; intros w; [done |].
  cbn [for_each foldl]. unfold mbind, M_bind, modify at 1. by rewrite IH.
Qed.

Lemma foldl_set_href value els : ∀ w : kworld,
  foldl (λ w el, set_href value el w) w els = set_doc (relinked value els) w.
Proof.
  induction els as [|x els IH]; intros w.
  - cbn. by destruct w as [? ? [[] ? ? ? ? ? ?]].
  - cbn [foldl]. by rewrite IH.
Qed.

Lemma updateContactLinks_unfold cfg value (w : kworld) :
  getWhatsAppLink cfg None = Ok value →
  updateContactLinks cfg w = (set_doc (relink (getPhoneLink cfg) value) w, Ok ()).
Proof.
  intros Hv. unfold updateContactLinks. rewrite Hv.
  unfold mbind, M_bind, gets.
  rewrite for_each_modify, foldl_set_href.
  by rewrite for_each_modify, foldl_set_href.
Qed.

Lemma default_link cfg : ∃ text,
  getWhatsAppLink cfg None
  = Ok (lit "https://wa.me/" ++ whatsapp (business cfg) ++ lit "?text=" ++ text).
Proof.
  unfold getWhatsAppLink. cbn [default from_option].
  rewrite bool_decide_eq_true_2 by done.
  destruct (encodeURIComponent defaultMessage) as [text|] eqn:H; [by exists text |].
  by vm_compute in H.
Qed.

(** What the two links look like to the two selectors. *)
Lemma phone_link_matches cfg : starts_with (lit "tel:") (getPhoneLink cfg) = true.
Proof. apply starts_with_app. Qed.

Lemma chat_link_matches cfg value :
  getWhatsAppLink cfg None = Ok value →
  starts_with (lit "tel:") value = false ∧ includes (lit "wa.me") value = true.
Proof.
  destruct (default_link cfg) as [text ->]. intros [= <-]. split; [done |].
  by apply (includes_app_r (lit "wa.me") (lit "https://wa.me/")).
Qed.

Lemma relink_post phoneLink whatsappLink (d : document) el nd :
  starts_with (lit "tel:") whatsappLink = false →
  el ∈ tree d →
  heap (relink phoneLink whatsappLink d) !! el = Some nd →
  tag nd = lit "a" →
  (starts_with (lit "tel:") (href nd) = true → href nd = phoneLink)
  ∧ (includes (lit "wa.me") (href nd) = true → href nd = whatsappLink).
Proof.
  intros Hchat Hel Hnd Htag. unfold relink in Hnd. cbv zeta in Hnd.
  set (d1 := relinked phoneLink (getElements (starts_with (lit "tel:")) d) d) in *.
  rewrite lookup_relinked in Hnd.
  destruct (decide (el ∈ getElements (includes (lit "wa.me")) d1)) as [Hw|Hw].
  - rewrite bool_decide_eq_true_2 in Hnd by done.
    destruct (heap d1 !! el) as [nd1|]; [| done]. injection Hnd as <-.
    cbn [href with_href]. split; [| done]. by rewrite Hchat.
  - rewrite bool_decide_eq_false_2, option_fmap_id in Hnd by done.
    rewrite elem_of_getElements in Hw.
    assert (link_matches (includes (lit "wa.me")) d1 el = false) as Hno.
    { destruct (link_matches _ d1 el); [| done]. exfalso. apply Hw. by split. }
    unfold link_matches in Hno. rewrite Hnd in Hno. cbn [from_option] in Hno.
    rewrite Htag, bool_decide_eq_true_2 in Hno by done. cbn [andb] in Hno.
    split; [| by rewrite Hno].
    unfold d1 in Hnd. rewrite lookup_relinked in Hnd.
    destruct (decide (el ∈ getElements (starts_with (lit "tel:")) d)) as [Hp|Hp].
    + rewrite bool_decide_eq_true_2 in Hnd by done.
      destruct (heap d !! el) as [nd0|]; [| done]. by injection Hnd as <-.
    + rewrite bool_decide_eq_false_2, option_fmap_id in Hnd by done.
      rewrite elem_of_getElements in Hp.
      assert (link_matches (starts_with (lit "tel:")) d el = false) as Hno'.
      { destruct (link_matches _ d el); [| done]. exfalso. apply Hp. by split. }
      unfold link_matches in Hno'. rewrite Hnd in Hno'. cbn [from_option] in Hno'.
      rewrite Htag, bool_decide_eq_true_2 in Hno' by done. cbn [andb] in Hno'.
      by rewrite Hno'.
Qed.

Lemma link_matches_Some test d el :
  link_matches test d el = true →
  ∃ nd, heap d !! el = Some nd ∧ tag nd = lit "a" ∧ test (href nd) = true.
Proof.
  unfold link_matches. destruct (heap d !! el) as [nd|]; [| done].
  cbn [from_option]. intros [Ht Hh]%andb_true_iff.
  apply bool_decide_eq_true_1 in Ht. by exists nd.
Qed.

Lemma relink_idemp phoneLink whatsappLink (d : document) :
  starts_with (lit "tel:") whatsappLink = false →
  relink phoneLink whatsappLink (relink phoneLink whatsappLink d)
  = relink phoneLink whatsappLink d.
Proof.
  intros Hchat. set (d2 := relink phoneLink whatsappLink d).
  assert (tree d2 = tree d) as Ht by done.
  assert (relinked phoneLink (getElements (starts_with (lit "tel:")) d2) d2 = d2) as H1.
  { apply relinked_id. intros el nd [Hel Hm]%elem_of_getElements Hnd.
    apply link_matches_Some in Hm as (nd' & Hnd' & Htag & Hs).
    assert (nd' = nd) as -> by congruence. rewrite Ht in Hel.
    destruct (relink_post phoneLink whatsappLink d el nd) as [Hp _]; auto. }
  unfold relink at 1. cbv zeta. rewrite H1.
  apply relinked_id. intros el nd [Hel Hm]%elem_of_getElements Hnd.
  apply link_matches_Some in Hm as (nd' & Hnd' & Htag & Hs).
  assert (nd' = nd) as -> by congruence. rewrite Ht in Hel.
  destruct (relink_post phoneLink whatsappLink d el nd) as [_ Hp]; auto.
Qed.

(** X16. [updateContactLinks] never throws and leaves every link of the
    page on the configured numbers: afterwards each attached [a] element
    whose [href] starts with [tel:] has the configured phone link, and
    each one whose [href] contains [wa.me] has the chat link with the
    default message.  The list of elements is unchanged, and running it a
    second time changes nothing. *)
Theorem updateContactLinks_spec cfg (w : kworld) :
  let r := updateContactLinks cfg w in
  r.2 = Ok ()
  ∧ tree (doc (st r.1)) = tree (doc (st w))
  ∧ (∀ el nd,
       el ∈ tree (doc (st r.1)) →
       heap (doc (st r.1)) !! el = Some nd →
       tag nd = lit "a" →
       (starts_with (lit "tel:") (href nd) = true → href nd = getPhoneLink cfg)
       ∧ (includes (lit "wa.me") (href nd) = true
          → getWhatsAppLink cfg None = Ok (href nd)))
  ∧ updateContactLinks cfg r.1 = (r.1, Ok ()).
Proof.
  intros r. destruct (default_link cfg) as [text Hv].
  destruct (chat_link_matches cfg _ Hv) as [Hchat _].
  unfold r. rewrite (updateContactLinks_unfold cfg _ w Hv). cbn [fst snd].
  split; [done |]. split; [done |]. split.
  - intros el nd Hel Hnd Htag.
    destruct (relink_post (getPhoneLink cfg) _ (doc (st w)) el nd Hchat Hel Hnd Htag)
      as [Hp Hc].
    split; [done |]. intros Hi. by rewrite Hv, (Hc Hi).
  - rewrite (updateContactLinks_unfold cfg _ _ Hv). f_equal.
    unfold set_doc, set_app. cbn [doc st now timers DOM state console listeners
      scrollTo uncaught].
    by rewrite relink_idemp.
Qed.

Lemma updateContactLinks_spec_witness :
  let w := load contact_page 0 in
  let w' := (updateContactLinks CONFIG w).1 in
  href <$> heap (doc (st w')) !! 1 = Some (lit "tel:+254722784947")
  ∧ href <$> heap (doc (st w')) !! 3 = Some (lit "#contact")
  ∧ href <$> heap (doc (st w')) !! 4 = Some (lit "tel:1")
  ∧ updateContactLinks CONFIG w' = (w', Ok ()).
Proof.
  intros w w'.
  destruct (updateContactLinks_spec CONFIG w) as (_ & _ & _ & Hagain).
  split; [by vm_compute |]. split; [by vm_compute |]. split; [by vm_compute |].
  exact Hagain.
Defined.

End ContactLinkFacts.

(** ** [Utils.addClassWithDelay] and [Utils.removeClassWithDelay] *)

Module ClassDelayFacts.
Import ClassDelays TimersFacts.

(** The timer taken out is the first of those with the least due time. *)
Lemma pop_earliest_first {C} (l : list (timer C)) tm r :
  pop_earliest l = Some (tm, r) →
  ∃ l1 l2, l = l1 ++ tm :: l2 ∧ r = l1 ++ l2
           ∧ Forall (λ x, due tm < due x) l1
           ∧ Forall (λ x, due tm ≤ due x) l2.
Proof.
  revert tm r. induction l as [|a l IH]; intros tm r Hpop; [done |].
  cbn [pop_earliest] in Hpop.
  destruct (pop_earliest l) as [[tm' r']|] eqn:Hl.
  - destruct (IH _ _ eq_refl) as (l1 & l2 & -> & -> & H1 & H2).
    destruct (Nat.ltb_spec (due tm') (due a)); simplify_eq.
    + exists (a :: l1), l2. split_and!; [done | done | | done].
      by constructor.
    + exists [], (l1 ++ tm' :: l2). split_and!; [done | done | by constructor |].
      apply Forall_app. split.
      * eapply Forall_impl; [exact H1 |]. cbn; intros; lia.
      * constructor; [done |]. eapply Forall_impl; [exact H2 |]. cbn; intros; lia.
  - apply pop_earliest_None in Hl as ->. simplify_eq.
    exists [], []. by split_and!.
Qed.

Lemma concerning_pop_first {C} (key : C → nat) n t (q : queue C) tm q' :
  pop_due t q = Some (tm, q') →
  due tm ≤ t
  ∧ ∃ a1 a2,
      concerning key n q' = a1 ++ a2
      ∧ concerning key n q
        = a1 ++ (if key (cb tm) =? n then [(due tm, cb tm)] else []) ++ a2
      ∧ Forall (λ p, due tm < p.1) a1
      ∧ Forall (λ p, due tm ≤ p.1) a2.
Proof.
  unfold pop_due.
  destruct (pop_earliest (pending q)) as [[tm' r]|] eqn:Hl; [| done].
  destruct (Nat.leb_spec (due tm') t); [| done]. intros [= -> <-].
  apply pop_earliest_first in Hl as (l1 & l2 & Hq & -> & H1 & H2).
  split; [done |].
  exists (concerning key n (Queue 0 l1)), (concerning key n (Queue 0 l2)).
  destruct q as [i l]; cbn [pending next_id] in *; subst l.
  rewrite (concerning_app key n _ 0), (concerning_app key n i 0),
    (concerning_cons key n 0 0).
  split_and!; [done | done | |].
  - apply Forall_forall. intros [d c] (_ & x & Hin & <- & _)%concerning_elem.
    rewrite Forall_forall in H1. by apply H1.
  - apply Forall_forall. intros [d c] (_ & x & Hin & <- & _)%concerning_elem.
    rewrite Forall_forall in H2. by apply H2.
Qed.

(** *** The order of the timers *)

Lemma insert_timer_first x l :
  Forall (λ p, x.1 ≤ p.1) l → insert_timer x l = x :: l.
Proof.
  destruct l as [|y l]; [done |]. intros [Hy _]%Forall_cons.
  cbn [insert_timer]. by apply Nat.leb_le in Hy as ->.
Qed.

Lemma insert_timer_Forall (P : nat * callback → Prop) x l :
  P x → Forall P l → Forall P (insert_timer x l).
Proof.
  intros Hx. induction l as [|y l IH]; intros Hl; cbn [insert_timer].
  - by constructor.
  - apply Forall_cons in Hl as [Hy Hl].
    destruct (x.1 <=? y.1); repeat constructor; auto.
Qed.

Lemma fire_order_Forall (P : nat * callback → Prop) l :
  Forall P l → Forall P (fire_order l).
Proof.
  induction l as [|x l IH]; [done |]. intros [Hx Hl]%Forall_cons.
  cbn [fire_order]. apply insert_timer_Forall; auto.
Qed.

Lemma fire_order_first a1 x a2 :
  Forall (λ p, x.1 < p.1) a1 → Forall (λ p, x.1 ≤ p.1) a2 →
  fire_order (a1 ++ x :: a2) = x :: fire_order (a1 ++ a2).
Proof.
  intros H1 H2. induction a1 as [|y a1 IH].
  - cbn [List.app fire_order]. by apply insert_timer_first, fire_order_Forall.
  - apply Forall_cons in H1 as [Hy H1].
    change ((y :: a1) ++ x :: a2) with (y :: (a1 ++ x :: a2)).
    change ((y :: a1) ++ a2) with (y :: (a1 ++ a2)).
    cbn [fire_order]. rewrite IH by done. cbn [insert_timer].
    destruct (Nat.leb_spec y.1 x.1); [lia | done].
Qed.

Lemma due_by_app t l1 l2 : due_by t (l1 ++ l2) = due_by t l1 ++ due_by t l2.
Proof. apply List.filter_app. Qed.

Lemma due_by_Forall (P : nat * callback → Prop) t l :
  Forall P l → Forall P (due_by t l).
Proof.
  intros H. apply Forall_forall. intros p [Hin _]%list_elem_of_In%filter_In.
  rewrite Forall_forall in H. by apply H, list_elem_of_In.
Qed.

Lemma due_by_settled t l : Forall (λ p, t < p.1) l → due_by t l = [].
Proof.
  induction l as [|p l IH]; [done |]. intros [Hp Hl]%Forall_cons.
  unfold due_by in *. cbn [List.filter].
  destruct (Nat.leb_spec p.1 t); [lia | auto].
Qed.

(** *** The timer bodies *)

Lemma add_token_elem (c c' : jsstring) l :
  bool_decide (c ∈ add_token c' l) = bool_decide (c' = c) || bool_decide (c ∈ l).
Proof.
  unfold add_token. destruct (decide (c' ∈ l)) as [Hin|Hin].
  - rewrite (bool_decide_eq_true_2 (c' ∈ l)) by done.
    destruct (decide (c' = c)) as [->|Hne].
    + by rewrite !bool_decide_eq_true_2.
    + by rewrite (bool_decide_eq_false_2 (c' = c)).
  - rewrite (bool_decide_eq_false_2 (c' ∈ l)) by done.
    apply eq_true_iff_eq.
    rewrite orb_true_iff, !bool_decide_eq_true, elem_of_app, list_elem_of_singleton.
    split; [intros [?|?]; auto | intros [?|?]; auto].
Qed.

Lemma remove_token_elem (c c' : jsstring) l :
  bool_decide (c ∈ remove_token c' l)
  = negb (bool_decide (c = c')) && bool_decide (c ∈ l).
Proof.
  unfold remove_token. apply eq_true_iff_eq.
  rewrite andb_true_iff, !bool_decide_eq_true, list_elem_of_In, filter_In,
    <- list_elem_of_In.
  split; intros [? ?]; done.
Qed.

Lemma fire_has_class cb (w : cworld) el c :
  is_Some (heap (page (st w)) !! el) →
  validate c = None →
  has_class (fire cb w) el c
  = if concerns el c cb =? 1 then effect cb else has_class w el c.
Proof.
  intros [nd Hnd] Hc. unfold has_class, matches.
  destruct cb as [el' c'|el' c']; cbn [fire st concerns effect];
    unfold classList_update.
  - destruct (decide (el' = el ∧ c' = c)) as [[-> ->]|Hne].
    + rewrite Hc. unfold set_heap; cbn [page heap].
      rewrite lookup_alter_eq, Hnd. cbn. rewrite add_token_elem.
      by rewrite (bool_decide_eq_true_2 (c = c)),
        (bool_decide_eq_true_2 (el = el ∧ c = c)).
    + rewrite (bool_decide_eq_false_2 (el' = el ∧ c' = c)) by done. cbn [Nat.eqb].
      destruct (validate c'); [done |]. unfold set_heap; cbn [page heap].
      destruct (decide (el' = el)) as [->|Hel]; [| by rewrite lookup_alter_ne].
      rewrite lookup_alter_eq, Hnd. cbn. rewrite add_token_elem.
      by rewrite (bool_decide_eq_false_2 (c' = c)) by (intros ->; by apply Hne).
  - destruct (decide (el' = el ∧ c' = c)) as [[-> ->]|Hne].
    + rewrite Hc. unfold set_heap; cbn [page heap].
      rewrite lookup_alter_eq, Hnd. cbn. rewrite remove_token_elem.
      by rewrite (bool_decide_eq_true_2 (c = c)),
        (bool_decide_eq_true_2 (el = el ∧ c = c)).
    + rewrite (bool_decide_eq_false_2 (el' = el ∧ c' = c)) by done. cbn [Nat.eqb].
      destruct (validate c'); [done |]. unfold set_heap; cbn [page heap].
      destruct (decide (el' = el)) as [->|Hel]; [| by rewrite lookup_alter_ne].
      rewrite lookup_alter_eq, Hnd. cbn. rewrite remove_token_elem.
      by rewrite (bool_decide_eq_false_2 (c = c')) by (intros ->; by apply Hne).
Qed.


Lemma fire_is_Some cb (w : cworld) el :
  is_Some (heap (page (st (fire cb w))) !! el) ↔ is_Some (heap (page (st w)) !! el).
Proof.
  destruct cb as [el' c'|el' c']; cbn [fire st]; unfold classList_update;
    (destruct (validate c'); [done |]); unfold set_heap; cbn [page heap];
    (destruct (decide (el' = el)) as [->|Hel];
     [rewrite lookup_alter_eq; apply fmap_is_Some | by rewrite lookup_alter_ne]).
Qed.

Lemma fire_timers cb (w : cworld) : timers (fire cb w) = timers w.
Proof. by destruct cb. Qed.

(** The class of an element at time [t] is what the timers for it that
    are due by then leave, run in their order. *)
Lemma class_law (w : cworld) el c t :
  is_Some (heap (page (st w)) !! el) →
  validate c = None →
  has_class (advance t w) el c
  = replay (has_class w el c) (fire_order (due_by t (about el c (timers w)))).
Proof.
  intros Hel Hc.
  set (K := replay (has_class w el c) (fire_order (due_by t (about el c (timers w))))).
  destruct (run_invariant fire t
              (λ w', is_Some (heap (page (st w')) !! el)
                     ∧ replay (has_class w' el c)
                         (fire_order (due_by t (about el c (timers w')))) = K)
              (λ w', length (pending (timers w'))))
    with (fuel := S (length (pending (timers w)))) (w := w) as ([_ HK] & Hset & _).
  - intros w' tm q' [Hel' HK] Hpop.
    set (w1 := World (now w' `max` due tm) q' (st w')).
    split; [split |].
    + by apply (fire_is_Some (cb tm) w1).
    + rewrite fire_timers, (fire_has_class (cb tm) w1) by done.
      cbn [timers w1]. rewrite <- HK.
      destruct (concerning_pop_first (concerns el c) 1 t _ tm q' Hpop)
        as (Hdue & a1 & a2 & -> & -> & H1 & H2).
      destruct (concerns el c (cb tm) =? 1).
      * rewrite !due_by_app. cbn [due_by List.filter fst].
        apply Nat.leb_le in Hdue as ->.
        change ([(due tm, cb tm)] ++ due_by t a2)
          with ((due tm, cb tm) :: due_by t a2).
        rewrite fire_order_first; [done | |].
        -- by apply due_by_Forall.
        -- by apply due_by_Forall.
      * done.
    + rewrite fire_timers. unfold w1. cbn [timers].
      by eapply RevealFacts.pop_due_shorter.
  - intros w' HI _. exact HI.
  - lia.
  - done.
  - fold (advance t w) in HK, Hset. rewrite <- HK.
    rewrite due_by_settled; [done |].
    apply Forall_forall. intros [d cb'] Hin.
    by apply (concerning_settled (concerns el c) 1 t) in Hin.
Qed.




(** X18. An [addClassWithDelay] and a [removeClassWithDelay] for the
    same class of the same element, the class being a token that
    [classList] accepts, with no other timer for it pending: once both
    delays have passed the call with the longer delay has decided, and
    at equal delays the call made last. *)
Theorem class_delay_race (w : cworld) el c a b t :
  is_Some (heap (page (st w)) !! el) →
  validate c = None →
  about el c (timers w) = [] →
  now w + a ≤ t → now w + b ≤ t →
  has_class (advance t (removeClassWithDelay el c b (addClassWithDelay el c a w))) el c
  = (b <? a)
  ∧ has_class (advance t (addClassWithDelay el c a (removeClassWithDelay el c b w))) el c
    = (b <=? a).
Proof.
  intros Hel Hc Hab Ha Hb.
  assert ((concerns el c (AddClass el c) =? 1) = true) as Hadd
    by (cbn; by rewrite bool_decide_eq_true_2).
  assert ((concerns el c (RemoveClass el c) =? 1) = true) as Hrem
    by (cbn; by rewrite bool_decide_eq_true_2).
  split.
  - rewrite class_law by done.
    unfold removeClassWithDelay, addClassWithDelay. cbn [timers now].
    rewrite !concerning_setTimeout, Hab, Hadd, Hrem. cbn [List.app].
    unfold due_by. cbn [List.filter fst].
    apply Nat.leb_le in Ha as ->. apply Nat.leb_le in Hb as ->.
    cbn [fire_order insert_timer fst].
    destruct (Nat.leb_spec (now w + a) (now w + b)), (Nat.ltb_spec b a);
      try lia; done.
  - rewrite class_law by done.
    unfold removeClassWithDelay, addClassWithDelay. cbn [timers now].
    rewrite !concerning_setTimeout, Hab, Hadd, Hrem. cbn [List.app].
    unfold due_by. cbn [List.filter fst].
    apply Nat.leb_le in Ha as ->. apply Nat.leb_le in Hb as ->.
    cbn [fire_order insert_timer fst].
    destruct (Nat.leb_spec (now w + b) (now w + a)), (Nat.leb_spec b a);
      try lia; done.
Qed.

Lemma class_delay_race_witness :
  let d := Document (list_to_map [(1, Pages.element "div" EmptyString ["card"] None)])
             [1] [] ∅ in
  let w := World 0 (Queue 1 []) (CState d []) in
  has_class (advance 500 (removeClassWithDelay 1 (lit "open") 0
                            (addClassWithDelay 1 (lit "open") 0 w))) 1 (lit "open")
  = false
  ∧ has_class (advance 500 (addClassWithDelay 1 (lit "open") 0
                              (removeClassWithDelay 1 (lit "open") 0 w))) 1 (lit "open")
    = true.
Proof.
  intros d w.
  destruct (class_delay_race w 1 (lit "open") 0 0 500) as [H1 H2].
  - by eexists.
  - reflexivity.
  - reflexivity.
  - cbn. lia.
  - cbn. lia.
  - by rewrite H1, H2.
Defined.

End ClassDelayFacts.

(** ** From the wiring to the scroll request *)

Module WiringFacts.
Import CONFIG KelahApp Handlers.

Lemma elem_id_alter (f : node → node) (h : gmap nat node) t n :
  (∀ nd, elem_id (f nd) = elem_id nd) →
  elem_id <$> alter f t h !! n = elem_id <$> h !! n.
Proof.
  intros Hf. destruct (decide (n = t)) as [->|Hne].
  - rewrite lookup_alter_eq. destruct (h !! t) as [nd|]; [| done].
    cbn. by rewrite Hf.
  - by rewrite lookup_alter_ne.
Qed.

Lemma keeps_ids_refl (w : kworld) : keeps_ids w w.
Proof. split_and!; [done | done | done |]. exists []. by rewrite app_nil_r. Qed.

Lemma keeps_ids_same (w w' : kworld) :
  doc (st w') = doc (st w) → listeners (st w') = listeners (st w) →
  scrollTo (st w') = scrollTo (st w) → keeps_ids w w'.
Proof.
  intros Hd Hl Hs. unfold keeps_ids. rewrite Hd, Hl, Hs.
  split_and!; [done | done | done |]. exists []. by rewrite app_nil_r.
Qed.

Lemma keeps_ids_trans (w1 w2 w3 : kworld) :
  keeps_ids w1 w2 → keeps_ids w2 w3 → keeps_ids w1 w3.
Proof.
  intros (Ht1 & Hi1 & Hl1 & m1 & Hs1) (Ht2 & Hi2 & Hl2 & m2 & Hs2).
  split_and!; [congruence | | congruence |].
  - intros n. by rewrite Hi2, Hi1.
  - exists (m1 ++ m2). by rewrite Hs2, Hs1, app_assoc.
Qed.

Lemma toggleMobileMenu_keeps (w : kworld) : keeps_ids w (toggleMobileMenu w).1.
Proof.
  unfold toggleMobileMenu, toggle_class, mbind, M_bind, modify, gets, throw; simpl.
  destruct (headerActions (DOM (st w))) as [ha|]; simpl;
    [destruct (menuToggle (DOM (st w))) as [mt|]; simpl |].
  all: (split_and!; [done | | done | by exists []; rewrite app_nil_r]).
  all: intros el; unfold classList_toggle, set_heap; simpl;
    by rewrite ?elem_id_alter by done.
Qed.

Lemma run_handler_keeps cfg win target currentTarget h (w : kworld) :
  keeps_ids w (run_handler cfg win target currentTarget h w).1.
Proof.
  destruct h; cbn [run_handler].
  - apply toggleMobileMenu_keeps.
  - by apply keeps_ids_same.
  - unfold handleWhatsAppClick, mbind, M_bind, modify, gets, throw. cbn [fst snd].
    destruct (getWhatsAppLink _ _); cbn [fst snd]; [| by apply keeps_ids_same].
    split_and!; [done | | done | by exists []; rewrite app_nil_r].
    intros n. unfold set_doc, set_app, set_heap; cbn. by apply elem_id_alter.
  - unfold headerLinkClick, mbind, M_bind, gets, when. cbn [fst snd].
    destruct (is_open w); [apply toggleMobileMenu_keeps | apply keeps_ids_refl].
  - unfold handleResize, mbind, M_bind, gets, when. cbn [fst snd].
    destruct (_ && _); [apply toggleMobileMenu_keeps | apply keeps_ids_refl].
  - unfold handleScroll. cbn [fst snd]. rewrite HandlerFacts.visit_sections.
    by apply keeps_ids_same.
  - unfold handleProductClick, smoothScrollTo. cbn [fst snd].
    destruct (querySelector _ _); [| by apply keeps_ids_same].
    split_and!; [done | done | done |]. by eexists.
Qed.

Lemma invoke_keeps cfg win target (w : kworld) l :
  keeps_ids w (invoke cfg win target w l).
Proof.
  unfold invoke.
  pose proof (run_handler_keeps cfg win target (default target (on l))
                (listener_handler l) w) as H.
  by destruct (run_handler _ _ _ _ _ w) as [w' []].
Qed.

Lemma foldl_invoke_keeps cfg win target ls : ∀ w : kworld,
  keeps_ids w (foldl (invoke cfg win target) w ls).
Proof.
  induction ls as [|l ls IH]; intros w; [apply keeps_ids_refl |].
  cbn [foldl]. eapply keeps_ids_trans; [apply invoke_keeps | apply IH].
Qed.

Lemma querySelector_keeps (w w' : kworld) i :
  keeps_ids w w' →
  querySelector (doc (st w')) (SelId i) = querySelector (doc (st w)) (SelId i).
Proof.
  intros (Ht & Hi & _). unfold querySelector, querySelectorAll. rewrite Ht.
  f_equal. apply filter_ext. intros n. cbn [matches]. specialize (Hi n).
  destruct (heap (doc (st w')) !! n) as [nd'|], (heap (doc (st w)) !! n) as [nd|];
    cbn in Hi; try done.
  injection Hi as Hi. cbn [from_option]. by rewrite Hi.
Qed.

Lemma handleProductClick_requests cfg win c contact (w : kworld) :
  querySelector (doc (st w)) (SelId (lit "contact")) = Some contact →
  scrollTo (st (handleProductClick cfg win c w).1)
  = scrollTo (st w) ++ [offsetTop win contact - scrollOffset cfg].
Proof.
  intros Hq. unfold handleProductClick, smoothScrollTo. cbn [fst].
  change (doc (st (console_log _ w))) with (doc (st w)). by rewrite Hq.
Qed.

Lemma foldl_invoke_requests cfg win target c contact ls : ∀ w : kworld,
  Listener (Some c) click HandleProductClick ∈ ls →
  querySelector (doc (st w)) (SelId (lit "contact")) = Some contact →
  (offsetTop win contact - scrollOffset cfg)
  ∈ scrollTo (st (foldl (invoke cfg win target) w ls)).
Proof.
  induction ls as [|l ls IH]; intros w Hin Hq; [by apply elem_of_nil in Hin |].
  cbn [foldl]. apply elem_of_cons in Hin as [<-|Hin].
  - destruct (foldl_invoke_keeps cfg win target ls
                (invoke cfg win target w (Listener (Some c) click HandleProductClick)))
      as (_ & _ & _ & more & ->).
    apply elem_of_app. left.
    unfold invoke, default. cbn [listener_handler on from_option id run_handler].
    pose proof (handleProductClick_requests cfg win c contact w Hq) as Hr.
    destruct (handleProductClick cfg win c w) as [w' [[]|e]] eqn:Hh;
      cbn [fst] in Hr; cbv beta iota.
    + rewrite Hr. apply elem_of_app. right. apply list_elem_of_here.
    + change (scrollTo (st (report e w'))) with (scrollTo (st w')).
      rewrite Hr. apply elem_of_app. right. apply list_elem_of_here.
  - apply IH; [done |].
    by rewrite (querySelector_keeps w) by apply invoke_keeps.
Qed.

(** *** What [initEventListeners] registers *)

Lemma wired_products (d : document) (t0 c : nat) :
  c ∈ querySelectorAll d (SelClass (lit "product-category")) →
  let w := (initEventListeners (cacheDOMElements (load d t0)).1).1 in
  Listener (Some c) click HandleProductClick ∈ listeners (st w)
  ∧ doc (st w) = d
  ∧ scrollTo (st w) = [].
Proof.
  intros Hc w. unfold w, initEventListeners. cbv zeta. cbn [fst].
  set (w0 := (cacheDOMElements (load d t0)).1).
  set (w1 := match menuToggle (DOM (st w0)) with
             | Some el => addEventListener (Listener (Some el) click ToggleMobileMenu) w0
             | None => w0
             end).
  assert (doc (st w1) = d ∧ scrollTo (st w1) = []) as [Hd1 Hs1]
    by (unfold w1; by destruct (menuToggle (DOM (st w0)))).
  set (w2 := listen_each (phoneBtns (DOM (st w1))) HandlePhoneClick w1).
  destruct (MenuFacts.listen_each_spec (phoneBtns (DOM (st w1))) HandlePhoneClick w1)
    as (_ & Hd2 & _ & Hs2). fold w2 in Hd2, Hs2.
  set (w3 := listen_each (whatsappBtns (DOM (st w2))) HandleWhatsAppClick w2).
  destruct (MenuFacts.listen_each_spec (whatsappBtns (DOM (st w2))) HandleWhatsAppClick w2)
    as (_ & Hd3 & _ & Hs3). fold w3 in Hd3, Hs3.
  set (links := querySelectorAll (doc (st w3)) _).
  set (w4 := listen_each links HeaderLinkClick w3).
  destruct (MenuFacts.listen_each_spec links HeaderLinkClick w3) as (_ & Hd4 & _ & Hs4).
  fold w4 in Hd4, Hs4.
  set (w5 := addEventListener (Listener None scroll HandleScroll)
               (addEventListener (Listener None resize HandleResize) w4)).
  assert (doc (st w5) = d ∧ scrollTo (st w5) = []) as [Hd5 Hs5]
    by (split; cbn; congruence).
  destruct (MenuFacts.listen_each_spec
              (querySelectorAll (doc (st w5)) (SelClass (lit "product-category")))
              HandleProductClick w5) as (Hl & Hd6 & _ & Hs6).
  split_and!; [| congruence | congruence].
  rewrite Hl, Hd5. apply elem_of_app. right.
  apply list_elem_of_fmap. by exists c.
Qed.

(** X19. From the wiring to the scroll request.  Once [cacheDOMElements]
    and [initEventListeners] ran on a page with a [#contact], a click on
    any attached product category asks the window to scroll to the top
    of [#contact] less the configured offset (for an offset that does not
    exceed it), whatever other listeners the click reaches. *)
Theorem product_click_scrolls_to_contact cfg win (d : document) (t0 c contact : nat) :
  c ∈ querySelectorAll d (SelClass (lit "product-category")) →
  querySelector d (SelId (lit "contact")) = Some contact →
  scrollOffset cfg ≤ offsetTop win contact →
  let w := (initEventListeners (cacheDOMElements (load d t0)).1).1 in
  (offsetTop win contact - scrollOffset cfg)
  ∈ scrollTo (st (dispatch_click cfg win c w)).
Proof.
  intros Hc Hq _ w. destruct (wired_products d t0 c Hc) as (Hl & Hd & Hs).
  fold w in Hl, Hd, Hs. unfold dispatch_click.
  apply (foldl_invoke_requests cfg win c c contact); [| by rewrite Hd].
  cbn [mbind list_bind]. apply elem_of_app. left.
  unfold listeners_for. apply list_elem_of_In, filter_In.
  split; [by apply list_elem_of_In |]. cbn.
  by rewrite !bool_decide_eq_true_2.
Qed.

Lemma product_click_scrolls_to_contact_witness :
  let d := Document
             (list_to_map
                [ (1, Pages.element "section" "products" [] None);
                  (2, Pages.element "div" EmptyString ["product-category"; "btn--phone"]
                        (Some 1));
                  (3, Pages.element "section" "contact" [] None) ])
             [1; 2; 3] [] ∅ in
  let win := Window 1280 0 (λ el, el * 700) (λ _, 700) in
  let w := (initEventListeners (cacheDOMElements (load d 0)).1).1 in
  2000 ∈ scrollTo (st (dispatch_click CONFIG win 2 w)).
Proof.
  intros d win w.
  apply (product_click_scrolls_to_contact CONFIG win d 0 2 3).
  - apply (bool_decide_unpack _). vm_compute. exact I.
  - reflexivity.
  - cbn; lia.
Defined.

End WiringFacts.

(** ** [Utils.lazyLoadImages] *)

Module LazyImageFacts.
Import Animations LazyImages RevealFacts.

Lemma loaded_idemp img : loaded (loaded img) = loaded img.
Proof.
  unfold loaded. cbn [data_src image_classList]. f_equal.
  unfold ClassDelays.add_token at 1.
  rewrite bool_decide_eq_true_2; [done |].
  unfold ClassDelays.add_token. case_bool_decide; [done |].
  apply elem_of_app. right. apply list_elem_of_here.
Qed.

Lemma unobserve_elem el x ts : el ∈ unobserve x ts ↔ el ∈ ts ∧ el ≠ x.
Proof.
  unfold unobserve. rewrite list_elem_of_In, filter_In, <- list_elem_of_In.
  rewrite negb_true_iff, Nat.eqb_neq. done.
Qed.

(** What a batch does to image [el]: loaded if some entry reports it,
    untouched otherwise; and observed afterwards if it was and no entry
    reported it. *)
Lemma callback_spec el es : ∀ s : state,
  tree (callback es s) = tree s
  ∧ images (callback es s) !! el
    = (if bool_decide (reports el es) then loaded else id) <$> images s !! el
  ∧ (el ∈ imageObserver (callback es s)
     ↔ el ∈ imageObserver s ∧ ¬ reports el es).
Proof.
  induction es as [|e es IH]; intros s.
  - cbn [callback]. rewrite bool_decide_eq_false_2 by apply not_elem_of_nil.
    rewrite option_fmap_id. split_and!; [done | done |].
    split; [intros ?; split; [done | apply not_elem_of_nil] | by intros [? _]].
  - cbn [callback]. destruct (IH (if isIntersecting e
                                   then State (alter loaded (target e) (images s)) (tree s)
                                          (unobserve (target e) (imageObserver s))
                                   else s)) as (-> & -> & ->).
    pose proof (reports_cons el e es) as Hrc.
    destruct (isIntersecting e) eqn:Hi; cbn [tree images imageObserver].
    + split; [done |]. destruct (decide (target e = el)) as [Heq|Hne].
      * assert (reports el (e :: es)) as Hrep by (apply Hrc; by left).
        rewrite (bool_decide_eq_true_2 (reports el (e :: es))) by done.
        rewrite Heq, lookup_alter_eq. split.
        -- destruct (images s !! el) as [img|]; [| done]. cbn.
           case_bool_decide; [by rewrite loaded_idemp | done].
        -- rewrite unobserve_elem. split; [by intros [[_ ?] _] | by intros [_ ?]].
      * rewrite lookup_alter_ne by done.
        assert (reports el (e :: es) ↔ reports el es) as Hiff.
        { rewrite Hrc. split; [intros [[? _]|?]; done | by right]. }
        rewrite (bool_decide_ext _ _ Hiff). split; [done |].
        rewrite unobserve_elem, Hiff.
        split; [by intros [[? _] ?] | by intros [? ?]].
    + split; [done |].
      assert (reports el (e :: es) ↔ reports el es) as Hiff.
      { rewrite Hrc. split; [intros [[_ ?]|?]; [congruence | done] | by right]. }
      by rewrite (bool_decide_ext _ _ Hiff), Hiff.
Qed.

(** An image that is observed is loaded by the first batch that reports
    it, and stays as it is and observed until then. *)
Lemma handle_observed el changes (s : state) :
  el ∈ imageObserver s →
  images (handle changes s) !! el
  = (if bool_decide (reports el changes) then loaded else id) <$> images s !! el
  ∧ (el ∈ imageObserver (handle changes s) ↔ ¬ reports el changes).
Proof.
  intros Hobs. unfold handle.
  destruct (callback_spec el (delivered (imageObserver s) changes) s)
    as (_ & -> & ->).
  assert (reports el (delivered (imageObserver s) changes) ↔ reports el changes) as Hiff.
  { rewrite reports_delivered. split; [by intros [_ ?] | done]. }
  rewrite (bool_decide_ext _ _ Hiff), Hiff. split; [done |].
  split; [by intros [_ ?] | done].
Qed.

(** An image that is not observed is never touched again. *)
Lemma handle_unobserved el changes (s : state) :
  el ∉ imageObserver s →
  images (handle changes s) !! el = images s !! el
  ∧ el ∉ imageObserver (handle changes s).
Proof.
  intros Hobs. unfold handle.
  destruct (callback_spec el (delivered (imageObserver s) changes) s)
    as (_ & -> & ->).
  assert (¬ reports el (delivered (imageObserver s) changes)) as Hno.
  { rewrite reports_delivered. by intros [? _]. }
  rewrite bool_decide_eq_false_2, option_fmap_id by done.
  split; [done |]. by intros [? _].
Qed.

Lemma play_unobserved el batches : ∀ s : state,
  el ∉ imageObserver s →
  images (play batches s) !! el = images s !! el
  ∧ el ∉ imageObserver (play batches s).
Proof.
  induction batches as [|b batches IH]; intros s Hno; [done |].
  change (play (b :: batches) s) with (play batches (handle b s)).
  destruct (handle_unobserved el b s Hno) as [Hi Hn].
  destruct (IH _ Hn) as [-> ?]. by rewrite Hi.
Qed.

Lemma play_observed el batches : ∀ s : state,
  el ∈ imageObserver s →
  images (play batches s) !! el
  = (if bool_decide (Exists (reports el) batches) then loaded else id) <$> images s !! el
  ∧ (el ∈ imageObserver (play batches s) ↔ ¬ Exists (reports el) batches).
Proof.
  induction batches as [|b batches IH]; intros s Hobs.
  - cbn [play foldl]. rewrite bool_decide_eq_false_2 by by intros ?%Exists_nil.
    rewrite option_fmap_id. split; [done |].
    split; [by intros _ ?%Exists_nil | done].
  - change (play (b :: batches) s) with (play batches (handle b s)).
    destruct (handle_observed el b s Hobs) as [Hi Ho].
    destruct (decide (reports el b)) as [Hrep|Hrep].
    + assert (el ∉ imageObserver (handle b s)) as Hno by (rewrite Ho; auto).
      destruct (play_unobserved el batches _ Hno) as [-> Hn].
      rewrite Hi, bool_decide_eq_true_2 by done.
      rewrite bool_decide_eq_true_2 by (apply Exists_cons; by left).
      split; [done |]. split; [done |]. intros H. exfalso. apply H.
      apply Exists_cons. by left.
    + assert (el ∈ imageObserver (handle b s)) as Hyes by by apply Ho.
      destruct (IH _ Hyes) as [-> Hn].
      rewrite Hi, (bool_decide_eq_false_2 (reports el b)), option_fmap_id by done.
      assert (Exists (reports el) (b :: batches) ↔ Exists (reports el) batches) as Hiff.
      { rewrite Exists_cons. split; [by intros [?|?] | by right]. }
      by rewrite (bool_decide_ext _ _ Hiff), Hiff.
Qed.

Lemma getElements_observed el (s : state) :
  el ∈ getElements s → el ∈ imageObserver (lazyLoadImages s).
Proof. intros Hel. cbn. apply foldl_observe. by right. Qed.

(** X20. After [lazyLoadImages], whatever batches of intersection changes
    follow, an attached image with a [data-src] is loaded exactly when
    some batch has reported it as intersecting: then its [src] is its
    [data-src], it has the class [loaded] and is no longer observed;
    until then it is as it was and still observed.  Once loaded it is
    never touched again. *)
Theorem lazy_load_once (s : state) el img url batches :
  el ∈ tree s →
  images s !! el = Some img →
  data_src img = Some url →
  let s' := play batches (lazyLoadImages s) in
  (Exists (reports el) batches
   ∧ images s' !! el
     = Some (Image (Some url) (Some url)
               (ClassDelays.add_token (lit "loaded") (image_classList img)))
   ∧ el ∉ imageObserver s')
  ∨ (¬ Exists (reports el) batches
     ∧ images s' !! el = Some img
     ∧ el ∈ imageObserver s').
Proof.
  intros Hel Himg Hurl s'.
  assert (el ∈ imageObserver (lazyLoadImages s)) as Hobs.
  { apply getElements_observed. unfold getElements.
    apply list_elem_of_In, filter_In. split; [by apply list_elem_of_In |].
    apply bool_decide_eq_true_2. rewrite Himg. cbn. rewrite Hurl. by eexists. }
  destruct (play_observed el batches _ Hobs) as [Hi Ho]. fold s' in Hi, Ho.
  cbn [lazyLoadImages images] in Hi. rewrite Himg in Hi.
  destruct (decide (Exists (reports el) batches)) as [Hex|Hex].
  - left. rewrite bool_decide_eq_true_2 in Hi by done.
    split; [done |]. split; [| rewrite Ho; auto].
    rewrite Hi. cbn. unfold loaded. by rewrite Hurl.
  - right. rewrite bool_decide_eq_false_2 in Hi by done.
    split; [done |]. split; [done | by apply Ho].
Qed.

Lemma lazy_load_once_witness :
  let s := State (list_to_map
                    [ (1, Image None (Some (lit "a.jpg")) []);
                      (2, Image None (Some (lit "b.jpg")) []);
                      (3, Image (Some (lit "c.jpg")) None []) ])
             [1; 2; 3] [] in
  let s' := play [ [Entry 1 false; Entry 2 true]; [Entry 2 false; Entry 3 true] ]
              (lazyLoadImages s) in
  images s' !! 1 = Some (Image None (Some (lit "a.jpg")) [])
  ∧ images s' !! 2 = Some (Image (Some (lit "b.jpg")) (Some (lit "b.jpg")) [lit "loaded"])
  ∧ images s' !! 3 = Some (Image (Some (lit "c.jpg")) None []).
Proof.
  intros s s'. split; [| split; [| reflexivity]].
  - destruct (lazy_load_once s 1 (Image None (Some (lit "a.jpg")) []) (lit "a.jpg")
                [ [Entry 1 false; Entry 2 true]; [Entry 2 false; Entry 3 true] ])
      as [(_ & H & _)|(_ & H & _)]; [by_decision | reflexivity | reflexivity | |].
    + exfalso. revert H. by vm_compute.
    + exact H.
  - destruct (lazy_load_once s 2 (Image None (Some (lit "b.jpg")) []) (lit "b.jpg")
                [ [Entry 1 false; Entry 2 true]; [Entry 2 false; Entry 3 true] ])
      as [(_ & H & _)|(_ & H & _)]; [by_decision | reflexivity | reflexivity | |].
    + exact H.
    + exfalso. revert H. by vm_compute.
Defined.

End LazyImageFacts.
